(** * apns.py: a Tornado client for Apple's binary push-notification protocol

    A shallow embedding of [apns.py] and the properties of its wire formats,
    payload encoder and connection life cycle.

    Conventions of the embedding.
    - Binary data (Python 2 [str] holding raw bytes) is [list byte].
    - Hexadecimal token text is a [string].
    - Payload text is a sequence of Unicode code points ([ustring]); it
      becomes bytes only through [utf8.encode], as in
      [json.dumps(..., ensure_ascii=False).encode('utf-8')].
    - A Python exception is a value of [exn]; a call that may raise returns
      a [result].
    - Library functions ([struct.pack], [binascii], [json], [datetime]) are
      modelled next to the code that calls them, in modules named after the
      Python modules. *)

From Stdlib Require Import ZArith List String Ascii Bool Lia Arith.
From Stdlib Require Import Strings.Byte.
From Stdlib Require Import DecimalPos DecimalZ DecimalFacts.
From Equations Require Import Equations.
Import ListNotations.

Local Open Scope Z_scope.

(** ** Exceptions and results *)

Inductive exn : Type :=
| TypeError (msg : string)
| AttributeError (msg : string)
| IOError (msg : string)
| struct_error (msg : string)
| PayloadTooLargeError
| TokenLengthOddError (msg : string)
| ConnectionError (msg : string).

Inductive result (A : Type) : Type :=
| Ok (a : A)
| Raise (e : exn).
Arguments Ok {A} a.
Arguments Raise {A} e.

Definition bind {A B} (r : result A) (k : A -> result B) : result B :=
  match r with
  | Ok a => k a
  | Raise e => Raise e
  end.

Notation "x <- r ;; k" := (bind r (fun x => k))
  (at level 61, r at next level, right associativity).

(** ['%s' % e]: the text of an exception. *)
Definition str_of_exn (e : exn) : string :=
  match e with
  | TypeError m | AttributeError m | IOError m | struct_error m
  | TokenLengthOddError m | ConnectionError m => m
  | PayloadTooLargeError => EmptyString
  end.

(** ** Bytes *)

Definition bytes := list byte.

Definition Z_of_byte (b : byte) : Z := Z.of_N (Byte.to_N b).

Definition byte_of_Z (z : Z) : byte :=
  match Byte.of_N (Z.to_N (z mod 256)) with
  | Some b => b
  | None => x00
  end.

(** Python's [s[i:j]] for [0 <= i <= j]. *)
Definition slice {A} (s : list A) (i j : nat) : list A :=
  firstn (j - i) (skipn i s).

(** ** [struct]: the formats the module uses *)

Module struct.

Definition USHRT_MAX : Z := 65535.
Definition UINT_MAX : Z := 4294967295.

(** [pack('>H', num)] *)
Definition pack_H (num : Z) : result bytes :=
  if (0 <=? num) && (num <=? USHRT_MAX)
  then Ok [byte_of_Z (Z.shiftr num 8); byte_of_Z num]
  else Raise (struct_error "ushort format requires 0 <= number <= USHRT_MAX").

(** [pack('>I', num)] *)
Definition pack_I (num : Z) : result bytes :=
  if (0 <=? num) && (num <=? UINT_MAX)
  then Ok [byte_of_Z (Z.shiftr num 24); byte_of_Z (Z.shiftr num 16);
           byte_of_Z (Z.shiftr num 8); byte_of_Z num]
  else Raise (struct_error "integer out of range for 'I' format code").

(** [unpack('>H', data)[0]] *)
Definition unpack_H (data : bytes) : result Z :=
  match data with
  | [b1; b0] => Ok (Z.lor (Z.shiftl (Z_of_byte b1) 8) (Z_of_byte b0))
  | _ => Raise (struct_error "unpack requires a string argument of length 2")
  end.

(** [unpack('>I', data)[0]] *)
Definition unpack_I (data : bytes) : result Z :=
  match data with
  | [b3; b2; b1; b0] =>
      Ok (Z.lor (Z.shiftl (Z_of_byte b3) 24)
         (Z.lor (Z.shiftl (Z_of_byte b2) 16)
         (Z.lor (Z.shiftl (Z_of_byte b1) 8) (Z_of_byte b0))))
  | _ => Raise (struct_error "unpack requires a string argument of length 4")
  end.

(** [unpack('>B', data)[0]] *)
Definition unpack_B (data : bytes) : result Z :=
  match data with
  | [b0] => Ok (Z_of_byte b0)
  | _ => Raise (struct_error "unpack requires a string argument of length 1")
  end.

End struct.

(** ** [binascii]: hexadecimal text *)

Module binascii.

(** The value of a hexadecimal digit, upper or lower case. *)
Definition to_int (c : ascii) : option Z :=
  let n := Z.of_nat (nat_of_ascii c) in
  if (48 <=? n) && (n <=? 57) then Some (n - 48)
  else if (97 <=? n) && (n <=? 102) then Some (n - 87)
  else if (65 <=? n) && (n <=? 70) then Some (n - 55)
  else None.

Definition hexdigit (n : Z) : ascii :=
  ascii_of_nat (Z.to_nat (if n <? 10 then 48 + n else 87 + n)).

Fixpoint unhex_pairs (s : string) : result bytes :=
  match s with
  | String top (String bot rest) =>
      match to_int top, to_int bot with
      | Some t, Some b =>
          tl <- unhex_pairs rest ;; Ok (byte_of_Z (16 * t + b) :: tl)
      | _, _ => Raise (TypeError "Non-hexadecimal digit found")
      end
  | _ => Ok []
  end.

(** [a2b_hex(s)]: the length is checked before any digit is read. *)
Definition a2b_hex (s : string) : result bytes :=
  if Nat.odd (String.length s)
  then Raise (TypeError "Odd-length string")
  else unhex_pairs s.

(** [b2a_hex(data)]: two lower-case digits per byte. *)
Fixpoint b2a_hex (data : bytes) : string :=
  match data with
  | [] => EmptyString
  | b :: tl =>
      String (hexdigit (Z_of_byte b / 16))
        (String (hexdigit (Z_of_byte b mod 16)) (b2a_hex tl))
  end.

End binascii.

(** ** class APNs: the binary codec *)

Module APNs.

Definition packed_ushort_big_endian (num : Z) : result bytes :=
  struct.pack_H num.

Definition unpacked_ushort_big_endian (data : bytes) : result Z :=
  struct.unpack_H data.

Definition packed_uint_big_endian (num : Z) : result bytes :=
  struct.pack_I num.

Definition unpacked_uint_big_endian (data : bytes) : result Z :=
  struct.unpack_I data.

End APNs.

(** ** Text: Unicode strings and UTF-8 *)

(** A Python text string: its code points, each in [0, 0x10FFFF]. *)
Definition ustring := list Z.

Definition valid_codepoint (c : Z) : Prop := 0 <= c <= 1114111.
Definition valid_ustring (s : ustring) : Prop := Forall valid_codepoint s.

(** An ASCII literal of the source as text. *)
Definition u (s : string) : ustring :=
  map (fun c => Z.of_nat (nat_of_ascii c)) (list_ascii_of_string s).

Fixpoint ustring_eqb (a b : ustring) : bool :=
  match a, b with
  | [], [] => true
  | x :: a', y :: b' => (x =? y) && ustring_eqb a' b'
  | _, _ => false
  end.

Module utf8.

(** [s.encode('utf-8')] for one code point. *)
Definition encode_codepoint (c : Z) : bytes :=
  if c <? 128 then [byte_of_Z c]
  else if c <? 2048 then
    [byte_of_Z (Z.lor 192 (Z.shiftr c 6));
     byte_of_Z (Z.lor 128 (Z.land c 63))]
  else if c <? 65536 then
    [byte_of_Z (Z.lor 224 (Z.shiftr c 12));
     byte_of_Z (Z.lor 128 (Z.land (Z.shiftr c 6) 63));
     byte_of_Z (Z.lor 128 (Z.land c 63))]
  else
    [byte_of_Z (Z.lor 240 (Z.shiftr c 18));
     byte_of_Z (Z.lor 128 (Z.land (Z.shiftr c 12) 63));
     byte_of_Z (Z.lor 128 (Z.land (Z.shiftr c 6) 63));
     byte_of_Z (Z.lor 128 (Z.land c 63))].

Definition encode (s : ustring) : bytes := flat_map encode_codepoint s.

(** The payload bits of a continuation byte [10xxxxxx]. *)
Definition cont (b : byte) : option Z :=
  let n := Z_of_byte b in
  if (128 <=? n) && (n <? 192) then Some (n - 128) else None.

(** [data.decode('utf-8')]: over-long forms and values above 0x10FFFF
    are refused. *)
Fixpoint decode (data : bytes) : option ustring :=
  match data with
  | [] => Some []
  | b0 :: tl =>
      let n := Z_of_byte b0 in
      if n <? 128 then option_map (cons n) (decode tl)
      else if n <? 192 then None
      else if n <? 224 then
        match tl with
        | b1 :: tl1 =>
            match cont b1 with
            | Some c1 =>
                let c := (n - 192) * 64 + c1 in
                if 128 <=? c then option_map (cons c) (decode tl1) else None
            | None => None
            end
        | _ => None
        end
      else if n <? 240 then
        match tl with
        | b1 :: b2 :: tl2 =>
            match cont b1, cont b2 with
            | Some c1, Some c2 =>
                let c := ((n - 224) * 64 + c1) * 64 + c2 in
                if 2048 <=? c then option_map (cons c) (decode tl2) else None
            | _, _ => None
            end
        | _ => None
        end
      else if n <? 248 then
        match tl with
        | b1 :: b2 :: b3 :: tl3 =>
            match cont b1, cont b2, cont b3 with
            | Some c1, Some c2, Some c3 =>
                let c := (((n - 240) * 64 + c1) * 64 + c2) * 64 + c3 in
                if (65536 <=? c) && (c <=? 1114111)
                then option_map (cons c) (decode tl3) else None
            | _, _, _ => None
            end
        | _ => None
        end
      else None
  end.

End utf8.

(** ** Python objects that [json] serializes *)

(** The objects a payload can hold: [None], booleans, integers, text,
    lists, tuples and dictionaries keyed by text. A dictionary is the list
    of its items in iteration order, taken to be the order of insertion; its
    keys are pairwise distinct ([wf_value]). Floats and keys that are not
    text are outside the model. *)
Unset Elimination Schemes.
Inductive value : Type :=
| PNone
| PBool (b : bool)
| PInt (n : Z)
| PStr (s : ustring)
| PList (l : list value)
| PTuple (l : list value)
| PDict (d : list (ustring * value)).
Set Elimination Schemes.

Definition pydict := list (ustring * value).

(** [d[k]], as an option. *)
Fixpoint dict_get (d : pydict) (k : ustring) : option value :=
  match d with
  | [] => None
  | (k', v) :: tl => if ustring_eqb k k' then Some v else dict_get tl k
  end.

(** [d[k] = v]: an existing key keeps its place, a new key goes last. *)
Fixpoint dict_set (d : pydict) (k : ustring) (v : value) : pydict :=
  match d with
  | [] => [(k, v)]
  | (k', v') :: tl =>
      if ustring_eqb k k' then (k, v) :: tl else (k', v') :: dict_set tl k v
  end.

(** [d.update(other)] *)
Definition dict_update (d other : pydict) : pydict :=
  fold_left (fun acc kv => dict_set acc (fst kv) (snd kv)) other d.

(** [dict(pairs)] *)
Definition dict_of_pairs (pairs : list (ustring * value)) : pydict :=
  dict_update [] pairs.

(** ** [json]: the compact serializer and the parser *)

Module json.

(** Character codes. *)
Definition QUOTE : Z := 34.
Definition BACKSLASH : Z := 92.
Definition COMMA : Z := 44.
Definition COLON : Z := 58.
Definition MINUS : Z := 45.
Definition LBRACKET : Z := 91.
Definition RBRACKET : Z := 93.
Definition LBRACE : Z := 123.
Definition RBRACE : Z := 125.

Definition hexdigit (n : Z) : Z := if n <? 10 then 48 + n else 87 + n.

(** [ESCAPE_DCT]: the replacement of a character that [ESCAPE] matches. *)
Definition escape (c : Z) : ustring :=
  if c =? QUOTE then [BACKSLASH; QUOTE]
  else if c =? BACKSLASH then [BACKSLASH; BACKSLASH]
  else if c =? 10 then [BACKSLASH; 110]
  else if c =? 13 then [BACKSLASH; 114]
  else if c =? 9 then [BACKSLASH; 116]
  else if c =? 8 then [BACKSLASH; 98]
  else if c =? 12 then [BACKSLASH; 102]
  else [BACKSLASH; 117; 48; 48; hexdigit (c / 16); hexdigit (c mod 16)].

(** The characters [ESCAPE] matches: the control characters below 0x20,
    the quote and the backslash. *)
Definition needs_escape (c : Z) : bool :=
  (c <? 32) || (c =? QUOTE) || (c =? BACKSLASH).

(** [encode_basestring(s)]: with [ensure_ascii=False] every other
    character is emitted as it is. *)
Definition encode_basestring (s : ustring) : ustring :=
  QUOTE :: flat_map (fun c => if needs_escape c then escape c else [c]) s
    ++ [QUOTE].

Fixpoint digits_of_uint (d : Decimal.uint) : ustring :=
  match d with
  | Decimal.Nil => []
  | Decimal.D0 d => 48 :: digits_of_uint d
  | Decimal.D1 d => 49 :: digits_of_uint d
  | Decimal.D2 d => 50 :: digits_of_uint d
  | Decimal.D3 d => 51 :: digits_of_uint d
  | Decimal.D4 d => 52 :: digits_of_uint d
  | Decimal.D5 d => 53 :: digits_of_uint d
  | Decimal.D6 d => 54 :: digits_of_uint d
  | Decimal.D7 d => 55 :: digits_of_uint d
  | Decimal.D8 d => 56 :: digits_of_uint d
  | Decimal.D9 d => 57 :: digits_of_uint d
  end.

(** [str(n)] for an integer. *)
Definition str_int (n : Z) : ustring :=
  match Z.to_int n with
  | Decimal.Pos d => digits_of_uint d
  | Decimal.Neg d => MINUS :: digits_of_uint d
  end.

(** [sep.join(parts)] *)
Fixpoint join (sep : ustring) (parts : list ustring) : ustring :=
  match parts with
  | [] => []
  | [p] => p
  | p :: tl => p ++ sep ++ join sep tl
  end.

(** [json.dumps(v, separators=(',',':'), ensure_ascii=False)] *)
Fixpoint dumps (v : value) : ustring :=
  match v with
  | PNone => u "null"
  | PBool true => u "true"
  | PBool false => u "false"
  | PInt n => str_int n
  | PStr s => encode_basestring s
  | PList l | PTuple l =>
      LBRACKET :: join [COMMA] (map dumps l) ++ [RBRACKET]
  | PDict d =>
      LBRACE ::
      join [COMMA]
        (map (fun kv : ustring * value => let (k, x) := kv in
                        encode_basestring k ++ COLON :: dumps x) d)
      ++ [RBRACE]
  end.

Definition dumps_item (kv : ustring * value) : ustring :=
  let (k, x) := kv in encode_basestring k ++ COLON :: dumps x.

(** *** Parsing *)

Definition is_ws (c : Z) : bool :=
  (c =? 32) || (c =? 9) || (c =? 10) || (c =? 13).

Fixpoint skip_ws (s : ustring) : ustring :=
  match s with
  | c :: tl => if is_ws c then skip_ws tl else s
  | [] => []
  end.

Definition is_digit (c : Z) : bool := (48 <=? c) && (c <=? 57).

Definition hexval (c : Z) : option Z :=
  if (48 <=? c) && (c <=? 57) then Some (c - 48)
  else if (97 <=? c) && (c <=? 102) then Some (c - 87)
  else if (65 <=? c) && (c <=? 70) then Some (c - 55)
  else None.

(** The character a one-letter escape stands for. *)
Definition unescape (e : Z) : option Z :=
  if e =? QUOTE then Some QUOTE
  else if e =? BACKSLASH then Some BACKSLASH
  else if e =? 47 then Some 47
  else if e =? 98 then Some 8
  else if e =? 102 then Some 12
  else if e =? 110 then Some 10
  else if e =? 114 then Some 13
  else if e =? 116 then Some 9
  else None.

(** [scanstring]: the text up to the closing quote, and what follows it.
    A four-digit escape denotes its code point (a pair of surrogate
    escapes is not joined; the serializer emits none). *)
Fixpoint scanstring (s : ustring) : option (ustring * ustring) :=
  match s with
  | [] => None
  | c :: tl =>
      if c =? QUOTE then Some ([], tl)
      else if c =? BACKSLASH then
        match tl with
        | [] => None
        | e :: tl1 =>
            if e =? 117 then
              match tl1 with
              | h1 :: h2 :: h3 :: h4 :: tl2 =>
                  match hexval h1, hexval h2, hexval h3, hexval h4 with
                  | Some a, Some b, Some c', Some d =>
                      match scanstring tl2 with
                      | Some (str, r) =>
                          Some ((((a * 16 + b) * 16 + c') * 16 + d) :: str, r)
                      | None => None
                      end
                  | _, _, _, _ => None
                  end
              | _ => None
              end
            else
              match unescape e with
              | Some x =>
                  match scanstring tl1 with
                  | Some (str, r) => Some (x :: str, r)
                  | None => None
                  end
              | None => None
              end
        end
      else if c <? 32 then None
      else
        match scanstring tl with
        | Some (str, r) => Some (c :: str, r)
        | None => None
        end
  end.

Fixpoint span_digits (s : ustring) : ustring * ustring :=
  match s with
  | c :: tl =>
      if is_digit c
      then let (ds, r) := span_digits tl in (c :: ds, r)
      else ([], s)
  | [] => ([], [])
  end.

Fixpoint uint_of_digits (ds : ustring) : Decimal.uint :=
  match ds with
  | [] => Decimal.Nil
  | c :: tl =>
      let d := uint_of_digits tl in
      match c - 48 with
      | 0 => Decimal.D0 d
      | 1 => Decimal.D1 d
      | 2 => Decimal.D2 d
      | 3 => Decimal.D3 d
      | 4 => Decimal.D4 d
      | 5 => Decimal.D5 d
      | 6 => Decimal.D6 d
      | 7 => Decimal.D7 d
      | 8 => Decimal.D8 d
      | _ => Decimal.D9 d
      end
  end.

(** A number continues as a float when a fraction or an exponent follows. *)
Definition starts_fraction (s : ustring) : bool :=
  match s with
  | c :: _ => (c =? 46) || (c =? 101) || (c =? 69)
  | [] => false
  end.

(** An integer literal: an optional sign, then [0] or digits without
    a leading zero. Floats are refused. *)
Definition scan_int (s : ustring) : option (Z * ustring) :=
  let (neg, s1) :=
    match s with
    | c :: tl => if c =? MINUS then (true, tl) else (false, s)
    | [] => (false, s)
    end in
  let (ds, rest) := span_digits s1 in
  match ds with
  | [] => None
  | c0 :: ds' =>
      if (c0 =? 48) && (match ds' with [] => false | _ => true end)
      then None
      else if starts_fraction rest then None
      else
        let m := uint_of_digits ds in
        Some (Z.of_int (if neg : bool then Decimal.Neg m else Decimal.Pos m),
              rest)
  end.

Fixpoint strip_prefix (p s : ustring) : option ustring :=
  match p, s with
  | [], _ => Some s
  | a :: p', b :: s' => if a =? b then strip_prefix p' s' else None
  | _ :: _, [] => None
  end.

(** [scan_once]: one value at the head of [s], and what follows it.
    [fuel] bounds the nesting and the number of items. *)
Fixpoint scan_once (fuel : nat) (s : ustring) : option (value * ustring) :=
  match fuel with
  | O => None
  | S fuel =>
      match s with
      | [] => None
      | c :: tl =>
          if c =? QUOTE then
            match scanstring tl with
            | Some (str, r) => Some (PStr str, r)
            | None => None
            end
          else if c =? LBRACE then
            match skip_ws tl with
            | [] => None
            | c' :: tl' =>
                if c' =? RBRACE then Some (PDict [], tl')
                else
                  match scan_members fuel (c' :: tl') with
                  | Some (pairs, r) => Some (PDict (dict_of_pairs pairs), r)
                  | None => None
                  end
            end
          else if c =? LBRACKET then
            match skip_ws tl with
            | [] => None
            | c' :: tl' =>
                if c' =? RBRACKET then Some (PList [], tl')
                else
                  match scan_elements fuel (c' :: tl') with
                  | Some (vs, r) => Some (PList vs, r)
                  | None => None
                  end
            end
          else
            match strip_prefix (u "null") s with
            | Some r => Some (PNone, r)
            | None =>
                match strip_prefix (u "true") s with
                | Some r => Some (PBool true, r)
                | None =>
                    match strip_prefix (u "false") s with
                    | Some r => Some (PBool false, r)
                    | None =>
                        match scan_int s with
                        | Some (n, r) => Some (PInt n, r)
                        | None => None
                        end
                    end
                end
            end
      end
  end

(** The elements of an array after its opening bracket. *)
with scan_elements (fuel : nat) (s : ustring)
    : option (list value * ustring) :=
  match fuel with
  | O => None
  | S fuel =>
      match scan_once fuel s with
      | None => None
      | Some (v, r) =>
          match skip_ws r with
          | [] => None
          | c :: tl =>
              if c =? RBRACKET then Some ([v], tl)
              else if c =? COMMA then
                match scan_elements fuel (skip_ws tl) with
                | Some (vs, r') => Some (v :: vs, r')
                | None => None
                end
              else None
          end
      end
  end

(** The members of an object after its opening brace. *)
with scan_members (fuel : nat) (s : ustring)
    : option (list (ustring * value) * ustring) :=
  match fuel with
  | O => None
  | S fuel =>
      match s with
      | [] => None
      | q :: tl =>
          if q =? QUOTE then
            match scanstring tl with
            | None => None
            | Some (k, r) =>
                match skip_ws r with
                | [] => None
                | c :: tl1 =>
                    if c =? COLON then
                      match scan_once fuel (skip_ws tl1) with
                      | None => None
                      | Some (v, r1) =>
                          match skip_ws r1 with
                          | [] => None
                          | c1 :: tl2 =>
                              if c1 =? RBRACE then Some ([(k, v)], tl2)
                              else if c1 =? COMMA then
                                match scan_members fuel (skip_ws tl2) with
                                | Some (kvs, r2) => Some ((k, v) :: kvs, r2)
                                | None => None
                                end
                              else None
                          end
                      end
                    else None
                end
            end
          else None
      end
  end.

(** [json.loads(data)]: the bytes are UTF-8 text holding one value,
    with optional white space around it. *)
Definition loads (data : bytes) : option value :=
  match utf8.decode data with
  | None => None
  | Some s =>
      match scan_once (List.length s) (skip_ws s) with
      | Some (v, r) =>
          match skip_ws r with
          | [] => Some v
          | _ => None
          end
      | None => None
      end
  end.

End json.



(** ** Truth values of the attributes tested with [if x:] *)

(** An optional text attribute as the object it holds ([None] by default). *)
Definition obj_of_text (o : option ustring) : value :=
  match o with
  | None => PNone
  | Some s => PStr s
  end.

Definition obj_of_texts (o : option (list ustring)) : value :=
  match o with
  | None => PNone
  | Some l => PList (map PStr l)
  end.

(** [bool(v)] *)
Definition truthy (v : value) : bool :=
  match v with
  | PNone => false
  | PBool b => b
  | PInt n => negb (n =? 0)
  | PStr s => match s with [] => false | _ => true end
  | PList l | PTuple l => match l with [] => false | _ => true end
  | PDict d => match d with [] => false | _ => true end
  end.

(** ** class PayloadAlert *)

Module PayloadAlert.

Record t : Type := {
  body : ustring;
  action_loc_key : option ustring;
  loc_key : option ustring;
  loc_args : option (list ustring);
  launch_image : option ustring
}.

Definition dict (self : t) : pydict :=
  let d := [(u "body", PStr (body self))] in
  let d := if truthy (obj_of_text (action_loc_key self))
           then dict_set d (u "action-loc-key") (obj_of_text (action_loc_key self))
           else d in
  let d := if truthy (obj_of_text (loc_key self))
           then dict_set d (u "loc-key") (obj_of_text (loc_key self))
           else d in
  let d := if truthy (obj_of_texts (loc_args self))
           then dict_set d (u "loc-args") (obj_of_texts (loc_args self))
           else d in
  let d := if truthy (obj_of_text (launch_image self))
           then dict_set d (u "launch-image") (obj_of_text (launch_image self))
           else d in
  d.

End PayloadAlert.

(** ** class Payload *)

Definition MAX_PAYLOAD_LENGTH : nat := 256.

Module Payload.

(** The alert is text or a [PayloadAlert] object. *)
Inductive alert_t : Type :=
| AlertText (s : ustring)
| AlertObject (a : PayloadAlert.t).

Record t : Type := {
  alert : option alert_t;
  badge : option Z;
  sound : option ustring;
  custom : pydict
}.

(** [bool(self.alert)]: an object without [__len__] is always true. *)
Definition alert_truthy (a : option alert_t) : bool :=
  match a with
  | None => false
  | Some (AlertText s) => truthy (PStr s)
  | Some (AlertObject _) => true
  end.

Definition dict (self : t) : pydict :=
  let d := [] in
  let d := if alert_truthy (alert self) then
             match alert self with
             | Some (AlertObject a) => dict_set d (u "alert") (PDict (PayloadAlert.dict a))
             | Some (AlertText s) => dict_set d (u "alert") (PStr s)
             | None => d
             end
           else d in
  let d := if truthy (obj_of_text (sound self))
           then dict_set d (u "sound") (obj_of_text (sound self))
           else d in
  let d := match badge self with
           | Some n => dict_set d (u "badge") (PInt n)
           | None => d
           end in
  let d := [(u "aps", PDict d)] in
  dict_update d (custom self).

Definition json (self : t) : bytes :=
  utf8.encode (json.dumps (PDict (dict self))).

Definition _check_size (self : t) : result unit :=
  if (MAX_PAYLOAD_LENGTH <? List.length (json self))%nat
  then Raise PayloadTooLargeError
  else Ok tt.

Definition __init__ (alert : option alert_t) (badge : option Z)
    (sound : option ustring) (custom : pydict) : result t :=
  let self := {| alert := alert; badge := badge; sound := sound;
                 custom := custom |} in
  _ <- _check_size self ;;
  Ok self.

End Payload.

(** ** The world a connection lives in *)

(** User continuations are opaque; one is identified by a tag. *)
Definition callback := nat.

(** The fields of an [APNsConnection] object. A socket (and the
    [SSLIOStream] built on it) is identified by a number. *)
Record connection : Type := {
  _socket : option nat;
  _stream : option nat;
  _alive : bool;
  _connecting : bool;
  _connect_timeout : option nat
}.

(** The connection object together with the event loop, the clock and the
    sockets it uses.
    - [timeouts]: the handles and deadlines registered with
      [IOLoop.add_timeout] and not yet run or removed;
    - [closed]: the sockets on which [close()] was called;
    - [connects]: the [stream.connect] calls whose continuation has not run;
    - [reads]: the [read_bytes] requests the streams accepted;
    - [written]: the data the streams accepted for writing, oldest first;
    - [called]: the continuations [_on_connected] invoked, with the socket
      of the attempt, newest first. *)
Record world : Type := {
  self : connection;
  now : Z;
  timeouts : list (nat * Z);
  next_timeout : nat;
  next_socket : nat;
  closed : list nat;
  connects : list (nat * callback);
  reads : list (nat * nat * callback);
  written : list (nat * bytes);
  called : list (nat * callback)
}.

Definition TIME_OUT : Z := 20.

Definition set_self (c : connection) (w : world) : world :=
  {| self := c; now := now w; timeouts := timeouts w;
     next_timeout := next_timeout w; next_socket := next_socket w;
     closed := closed w; connects := connects w; reads := reads w;
     written := written w; called := called w |}.

(** [socket.close()] *)
Definition socket_close (s : nat) (w : world) : world :=
  {| self := self w; now := now w; timeouts := timeouts w;
     next_timeout := next_timeout w; next_socket := next_socket w;
     closed := s :: closed w; connects := connects w; reads := reads w;
     written := written w; called := called w |}.

Definition is_closed (s : nat) (w : world) : bool :=
  existsb (Nat.eqb s) (closed w).

(** [IOLoop.remove_timeout(handle)] *)
Definition remove_timeout (h : option nat) (w : world) : world :=
  {| self := self w; now := now w;
     timeouts :=
       match h with
       | Some h => filter (fun t => negb (Nat.eqb (fst t) h)) (timeouts w)
       | None => timeouts w
       end;
     next_timeout := next_timeout w; next_socket := next_socket w;
     closed := closed w; connects := connects w; reads := reads w;
     written := written w; called := called w |}.

(** What one call of a stream method does: it returns, or raises. *)
Definition io_outcome := option exn.

(** ** class APNsConnection *)

Module APNsConnection.

Definition __init__ : connection :=
  {| _socket := None; _stream := None; _alive := false;
     _connecting := false; _connect_timeout := None |}.

Definition is_alive (w : world) : bool := _alive (self w).

Definition is_connecting (w : world) : bool := _connecting (self w).

Definition _disconnect (w : world) : world :=
  let w := set_self {| _socket := _socket (self w);
                       _stream := _stream (self w);
                       _alive := false;
                       _connecting := _connecting (self w);
                       _connect_timeout := _connect_timeout (self w) |} w in
  match _socket (self w) with
  | Some s => socket_close s w
  | None => w
  end.

Definition connect (cb : callback) (w : world) : world :=
  if negb (_connecting (self w)) then
    let h := next_timeout w in
    let s := next_socket w in
    {| self := {| _socket := Some s; _stream := Some s;
                  _alive := _alive (self w); _connecting := true;
                  _connect_timeout := Some h |};
       now := now w;
       timeouts := (h, now w + TIME_OUT) :: timeouts w;
       next_timeout := S h;
       next_socket := S s;
       closed := closed w;
       connects := (s, cb) :: connects w;
       reads := reads w;
       written := written w;
       called := called w |}
  else w.

Definition _connecting_timeout_callback (w : world) : world :=
  if negb (_alive (self w)) then
    let w := set_self {| _socket := _socket (self w);
                         _stream := _stream (self w);
                         _alive := _alive (self w);
                         _connecting := false;
                         _connect_timeout := _connect_timeout (self w) |} w in
    _disconnect w
  else w.

Definition _on_connected (s : nat) (cb : callback) (w : world) : world :=
  let w := remove_timeout (_connect_timeout (self w)) w in
  let w := set_self {| _socket := _socket (self w);
                       _stream := _stream (self w);
                       _alive := true;
                       _connecting := false;
                       _connect_timeout := _connect_timeout (self w) |} w in
  {| self := self w; now := now w; timeouts := timeouts w;
     next_timeout := next_timeout w; next_socket := next_socket w;
     closed := closed w; connects := connects w; reads := reads w;
     written := written w; called := (s, cb) :: called w |}.

(** [self._stream.read_bytes(n, callback)]: without a stream the
    attribute lookup fails; with one, the stream accepts the request or
    raises what the event loop reports ([io]). *)
Definition stream_read_bytes (n : nat) (cb : callback) (io : io_outcome)
    (w : world) : result unit * world :=
  match _stream (self w) with
  | None =>
      (Raise (AttributeError "'NoneType' object has no attribute 'read_bytes'"), w)
  | Some s =>
      match io with
      | Some e => (Raise e, w)
      | None =>
          (Ok tt,
           {| self := self w; now := now w; timeouts := timeouts w;
              next_timeout := next_timeout w; next_socket := next_socket w;
              closed := closed w; connects := connects w;
              reads := reads w ++ [(s, n, cb)];
              written := written w; called := called w |})
      end
  end.

(** [self._stream.write(string, callback)] *)
Definition stream_write (data : bytes) (cb : callback) (io : io_outcome)
    (w : world) : result unit * world :=
  match _stream (self w) with
  | None =>
      (Raise (AttributeError "'NoneType' object has no attribute 'write'"), w)
  | Some s =>
      match io with
      | Some e => (Raise e, w)
      | None =>
          (Ok tt,
           {| self := self w; now := now w; timeouts := timeouts w;
              next_timeout := next_timeout w; next_socket := next_socket w;
              closed := closed w; connects := connects w;
              reads := reads w;
              written := written w ++ [(s, data)]; called := called w |})
      end
  end.

(** [except (AttributeError, IOError) as e] *)
Definition caught (e : exn) : bool :=
  match e with
  | AttributeError _ | IOError _ => true
  | _ => false
  end.

Definition read (n : nat) (cb : callback) (io : io_outcome) (w : world)
    : result unit * world :=
  match stream_read_bytes n cb io w with
  | (Raise e, w') =>
      if caught e
      then (Raise (ConnectionError (str_of_exn e)), _disconnect w')
      else (Raise e, w')
  | ok => ok
  end.

Definition write (data : bytes) (cb : callback) (io : io_outcome) (w : world)
    : result unit * world :=
  match stream_write data cb io w with
  | (Raise e, w') =>
      if caught e
      then (Raise (ConnectionError (str_of_exn e)), _disconnect w')
      else (Raise e, w')
  | ok => ok
  end.

End APNsConnection.

(** ** The event loop *)

(** What can happen to a connection: its owner calls a method, time passes,
    the event loop runs a timeout that is due, or a stream reports that its
    connect has completed. The connection never takes back a connect that
    is pending: [_disconnect] closes [self._socket] and does not touch
    [self._stream], so a stream can report its connect whenever the call is
    pending. *)
Inductive event : Type :=
| Call_connect (cb : callback)
| Call_read (n : nat) (cb : callback) (io : io_outcome)
| Call_write (data : bytes) (cb : callback) (io : io_outcome)
| Call_disconnect
| Tick (d : Z)
| Timeout_fires (h : nat)
| Connect_completes (s : nat) (cb : callback).

Definition advance (d : Z) (w : world) : world :=
  {| self := self w; now := now w + d; timeouts := timeouts w;
     next_timeout := next_timeout w; next_socket := next_socket w;
     closed := closed w; connects := connects w; reads := reads w;
     written := written w; called := called w |}.

Definition due (h : nat) (w : world) : bool :=
  existsb (fun t => Nat.eqb (fst t) h && (snd t <=? now w)) (timeouts w).

Definition pending_connect (s : nat) (cb : callback) (w : world) : bool :=
  existsb (fun c => Nat.eqb (fst c) s && Nat.eqb (snd c) cb) (connects w).

Definition drop_connect (s : nat) (cb : callback) (w : world) : world :=
  {| self := self w; now := now w; timeouts := timeouts w;
     next_timeout := next_timeout w; next_socket := next_socket w;
     closed := closed w;
     connects :=
       filter (fun c => negb (Nat.eqb (fst c) s && Nat.eqb (snd c) cb))
         (connects w);
     reads := reads w; written := written w; called := called w |}.

(** One event; [None] when the event cannot happen in [w]. *)
Definition step (e : event) (w : world) : option world :=
  match e with
  | Call_connect cb => Some (APNsConnection.connect cb w)
  | Call_read n cb io => Some (snd (APNsConnection.read n cb io w))
  | Call_write data cb io => Some (snd (APNsConnection.write data cb io w))
  | Call_disconnect => Some (APNsConnection._disconnect w)
  | Tick d => if 0 <=? d then Some (advance d w) else None
  | Timeout_fires h =>
      if due h w
      then Some (APNsConnection._connecting_timeout_callback
                   (remove_timeout (Some h) w))
      else None
  | Connect_completes s cb =>
      if pending_connect s cb w
      then Some (APNsConnection._on_connected s cb (drop_connect s cb w))
      else None
  end.

Fixpoint run (evs : list event) (w : world) : option world :=
  match evs with
  | [] => Some w
  | e :: evs' =>
      match step e w with
      | Some w' => run evs' w'
      | None => None
      end
  end.

(** A fresh connection object at time [t0]. *)
Definition initial (t0 : Z) : world :=
  {| self := APNsConnection.__init__; now := t0; timeouts := [];
     next_timeout := 0; next_socket := 0; closed := []; connects := [];
     reads := []; written := []; called := [] |}.

Definition reachable (w : world) : Prop :=
  exists t0 evs, run evs (initial t0) = Some w.

(** ** [datetime] *)

Module datetime.

Record t : Type := {
  year : Z; month : Z; day : Z; hour : Z; minute : Z; second : Z
}.

(** The civil date of a day number counted from 1970-01-01. *)
Definition civil_from_days (z : Z) : Z * Z * Z :=
  let z := z + 719468 in
  let era := z / 146097 in
  let doe := z - era * 146097 in
  let yoe := (doe - doe / 1460 + doe / 36524 - doe / 146096) / 365 in
  let y := yoe + era * 400 in
  let doy := doe - (365 * yoe + yoe / 4 - yoe / 100) in
  let mp := (5 * doy + 2) / 153 in
  let d := doy - (153 * mp + 2) / 5 + 1 in
  let m := if mp <? 10 then mp + 3 else mp - 9 in
  (if m <=? 2 then y + 1 else y, m, d).

(** [datetime.utcfromtimestamp(ts)] for an integer time stamp. *)
Definition utcfromtimestamp (ts : Z) : t :=
  let '(y, m, d) := civil_from_days (ts / 86400) in
  let s := ts mod 86400 in
  {| year := y; month := m; day := d;
     hour := s / 3600; minute := (s mod 3600) / 60; second := s mod 60 |}.

End datetime.

(** ** Generators *)

(** A generator that is run to its end: what it yielded, and how it
    stopped ([None]: it returned; [Some e]: it raised [e]). *)
Record generated (A : Type) : Type := {
  yielded : list A;
  raised : option exn
}.
Arguments yielded {A} g.
Arguments raised {A} g.

(** ** class FeedbackConnection *)

Module FeedbackConnection.

Definition server (use_sandbox : bool) : string :=
  if use_sandbox then "feedback.sandbox.push.apple.com"%string
  else "feedback.push.apple.com"%string.

Definition port : Z := 2196.

Definition BUF_SIZE : nat := 4096.

(** One feedback item: the token in hexadecimal and the time of failure. *)
Definition item : Type := string * datetime.t.

(** [self.read(BUF_SIZE)]: [read] is [APNsConnection.read(self, n, callback)]
    and [FeedbackConnection] does not override it. The call gives it [n]
    alone, so Python raises [TypeError] when it binds the arguments, before
    the body of [read] runs: nothing is asked of the stream, nothing is
    returned and the connection is not touched. *)
Definition read_BUF_SIZE : result bytes :=
  Raise (TypeError "read() takes exactly 3 arguments (2 given)").

(** [_chunks], run to its end: each turn of [while 1] reads, yields what it
    read and stops after an empty value; an exception of the read ends the
    generator. [fuel] bounds the number of turns. *)
Fixpoint _chunks (fuel : nat) : generated bytes :=
  match fuel with
  | O => {| yielded := []; raised := None |}
  | S fuel' =>
      match read_BUF_SIZE with
      | Raise e => {| yielded := []; raised := Some e |}
      | Ok data =>
          match data with
          | [] => {| yielded := [data]; raised := None |}
          | _ =>
              let g := _chunks fuel' in
              {| yielded := data :: yielded g; raised := raised g |}
          end
      end
  end.

(** The inner [while len(buff) > 6] loop: the items it yields, and the
    buffer it leaves (or the exception that ends the generator). *)
Equations? drain (buff : bytes) : list item * result bytes
  by wf (List.length buff) lt :=
drain [] := ([], Ok []);
drain (b :: tl) with Nat.ltb 6 (List.length (b :: tl)) := {
  | false := ([], Ok (b :: tl))
  | true with APNs.unpacked_ushort_big_endian (slice (b :: tl) 4 6) := {
    | Raise e := ([], Raise e)
    | Ok token_length with
        Nat.leb (6 + Z.to_nat token_length) (List.length (b :: tl)) := {
      | false := ([], Ok (b :: tl))
      | true with APNs.unpacked_uint_big_endian (slice (b :: tl) 0 4) := {
        | Raise e := ([], Raise e)
        | Ok fail_time_unix :=
            let fail_time := datetime.utcfromtimestamp fail_time_unix in
            let token :=
              binascii.b2a_hex (slice (b :: tl) 6 (6 + Z.to_nat token_length)) in
            let rest := drain (skipn (6 + Z.to_nat token_length) (b :: tl)) in
            ((token, fail_time) :: fst rest, snd rest) } } } }.
Proof.
  apply Nat.lt_succ_r.
  change (List.length (skipn (5 + Z.to_nat token_length) tl) <= List.length tl)%nat.
  rewrite length_skipn. lia.
Qed.

(** The [for chunk in ...] loop of [items] over the chunks its chunk
    generator still yields; [stop] is how that generator ends after them:
    it returns ([None]) or raises. A [break] leaves the loop, and the
    generator is asked nothing more. *)
Fixpoint items_from (buff : bytes) (chunks : list bytes) (stop : option exn)
    : generated item :=
  match chunks with
  | [] => {| yielded := []; raised := stop |}
  | chunk :: chunks' =>
      let buff := buff ++ chunk in
      match buff with
      | [] => {| yielded := []; raised := None |}
      | _ =>
          if (List.length buff <? 6)%nat
          then {| yielded := []; raised := None |}
          else
            match drain buff with
            | (ys, Raise e) => {| yielded := ys; raised := Some e |}
            | (ys, Ok buff') =>
                let g := items_from buff' chunks' stop in
                {| yielded := ys ++ yielded g; raised := raised g |}
            end
      end
  end.

(** [items]: the loop over what [self._chunks()] yields. *)
Definition items (fuel : nat) : generated item :=
  let chunks := _chunks fuel in
  items_from [] (yielded chunks) (raised chunks).

End FeedbackConnection.

(** ** class GatewayConnection *)

Module GatewayConnection.

Definition server (use_sandbox : bool) : string :=
  if use_sandbox then "gateway.sandbox.push.apple.com"%string
  else "gateway.push.apple.com"%string.

Definition port : Z := 2195.

Definition _get_notification (identifier expiry : Z) (token_hex : string)
    (payload : Payload.t) : result bytes :=
  token_bin <-
    match binascii.a2b_hex token_hex with
    | Raise (TypeError _) => Raise (TokenLengthOddError "Token Length is Odd")
    | r => r
    end ;;
  token_length_bin <-
    APNs.packed_ushort_big_endian (Z.of_nat (List.length token_bin)) ;;
  identifier_bin <- APNs.packed_uint_big_endian identifier ;;
  expiry <- APNs.packed_uint_big_endian expiry ;;
  let payload_json := Payload.json payload in
  payload_length_bin <-
    APNs.packed_ushort_big_endian (Z.of_nat (List.length payload_json)) ;;
  let notification :=
    [x01] ++ identifier_bin ++ expiry ++ token_length_bin ++ token_bin
      ++ payload_length_bin ++ payload_json in
  Ok notification.

Definition send_notification (identifier expiry : Z) (token_hex : string)
    (payload : Payload.t) (cb : callback) (io : io_outcome) (w : world)
    : result unit * world :=
  match _get_notification identifier expiry token_hex payload with
  | Raise e => (Raise e, w)
  | Ok notification => APNsConnection.write notification cb io w
  end.

(** [send_notification_json]: the payload is the serialized text itself. *)
Definition send_notification_json (identifier expiry : Z) (token_hex : string)
    (payload : bytes) (cb : callback) (io : io_outcome) (w : world)
    : result unit * world :=
  match
    token_bin <-
      match binascii.a2b_hex token_hex with
      | Raise (TypeError _) => Raise (TokenLengthOddError "Token Length is Odd")
      | r => r
      end ;;
    token_length_bin <-
      APNs.packed_ushort_big_endian (Z.of_nat (List.length token_bin)) ;;
    identifier_bin <- APNs.packed_uint_big_endian identifier ;;
    expiry <- APNs.packed_uint_big_endian expiry ;;
    let payload_json := payload in
    payload_length_bin <-
      APNs.packed_ushort_big_endian (Z.of_nat (List.length payload_json)) ;;
    let notification :=
      [x01] ++ identifier_bin ++ expiry ++ token_length_bin ++ token_bin
        ++ payload_length_bin ++ payload_json in
    Ok notification
  with
  | Raise e => (Raise e, w)
  | Ok notification => APNsConnection.write notification cb io w
  end.

(** [receive_response]: what the continuation of the 6-byte read passes to
    the callback, the status and the identifier. *)
Definition receive_response (data : bytes) : result (Z * Z) :=
  command <- struct.unpack_B (slice data 0 1) ;;
  status <- struct.unpack_B (slice data 1 2) ;;
  seq <- APNs.unpacked_uint_big_endian (slice data 2 6) ;;
  Ok (status, seq).

End GatewayConnection.

(** ** Well-formed objects and formats *)

Definition valid_text (s : ustring) : bool :=
  forallb (fun c => (0 <=? c) && (c <=? 1114111)) s.

Fixpoint distinct (ks : list ustring) : bool :=
  match ks with
  | [] => true
  | k :: tl => negb (existsb (ustring_eqb k) tl) && distinct tl
  end.

(** An object that JSON can hold as it is: it has no tuple, its text is
    made of code points and the keys of each of its dictionaries are
    pairwise distinct. *)
Fixpoint wf_value (v : value) : bool :=
  match v with
  | PNone | PBool _ | PInt _ => true
  | PStr s => valid_text s
  | PList l => forallb wf_value l
  | PTuple _ => false
  | PDict d =>
      distinct (map fst d)
      && forallb (fun kv : ustring * value =>
                    let (k, x) := kv in valid_text k && wf_value x) d
  end.

Definition wf_opt_text (o : option ustring) : bool :=
  match o with
  | None => true
  | Some s => valid_text s
  end.

Definition wf_alert (a : PayloadAlert.t) : bool :=
  valid_text (PayloadAlert.body a)
  && wf_opt_text (PayloadAlert.action_loc_key a)
  && wf_opt_text (PayloadAlert.loc_key a)
  && match PayloadAlert.loc_args a with
     | None => true
     | Some l => forallb valid_text l
     end
  && wf_opt_text (PayloadAlert.launch_image a).

Definition wf_payload (p : Payload.t) : bool :=
  match Payload.alert p with
  | None => true
  | Some (Payload.AlertText s) => valid_text s
  | Some (Payload.AlertObject a) => wf_alert a
  end
  && wf_opt_text (Payload.sound p)
  && wf_value (PDict (Payload.custom p)).

(** A token in hexadecimal: every character is a hexadecimal digit. *)
Fixpoint hexadecimal (s : string) : bool :=
  match s with
  | EmptyString => true
  | String c tl =>
      match binascii.to_int c with
      | Some _ => hexadecimal tl
      | None => false
      end
  end.

(** The big-endian bytes of [n], [k] of them. *)
Fixpoint big_endian (k : nat) (n : Z) : bytes :=
  match k with
  | O => []
  | S k' => big_endian k' (n / 256) ++ [byte_of_Z n]
  end.

(** A record of the feedback stream. *)
Record feedback_record : Type := {
  fail_time : Z;
  token : bytes
}.

Definition wf_record (r : feedback_record) : bool :=
  (0 <=? fail_time r) && (fail_time r <? 2 ^ 32)
  && (Z.of_nat (List.length (token r)) <? 2 ^ 16).

(** [fail_time(4B) | len(2B) | token]. *)
Definition wire_record (r : feedback_record) : bytes :=
  big_endian 4 (fail_time r)
    ++ big_endian 2 (Z.of_nat (List.length (token r)))
    ++ token r.

(** The item a record stands for. *)
Definition item_of_record (r : feedback_record) : FeedbackConnection.item :=
  (binascii.b2a_hex (token r), datetime.utcfromtimestamp (fail_time r)).

(** [s.lower()] on ASCII text. *)
Definition ascii_lower (c : ascii) : ascii :=
  let n := nat_of_ascii c in
  if ((65 <=? n) && (n <=? 90))%nat then ascii_of_nat (n + 32) else c.

Fixpoint lower (s : string) : string :=
  match s with
  | EmptyString => EmptyString
  | String c tl => String (ascii_lower c) (lower tl)
  end.

(** The last record of the stream, if there is one, has a token. *)
Fixpoint ends_with_token (recs : list feedback_record) : bool :=
  match recs with
  | [] => true
  | r :: tl =>
      match tl with
      | [] => match token r with [] => false | _ => true end
      | _ => ends_with_token tl
      end
  end.

(** The number of nodes of an object, counting each item of a list or
    dictionary once more: the fuel [scan_once] needs to read it back. *)
Fixpoint size (v : value) : nat :=
  match v with
  | PList l => S (list_sum (map (fun x => S (size x)) l))
  | PDict d =>
      S (list_sum (map (fun kv : ustring * value =>
                          let (_, x) := kv in S (size x)) d))
  | _ => 1
  end.

(** ** class APNs: the facade *)

(** The connection objects the facade creates live in a store; an object is
    known by its place in it. *)
Inductive connection_class : Type :=
| FeedbackConnection_class
| GatewayConnection_class.

Record connection_object : Type := {
  class_of : connection_class;
  server : string;
  port : Z;
  object_cert_file : option string;
  object_key_file : option string;
  fields : connection
}.

Module Facade.

Record t : Type := {
  use_sandbox : bool;
  cert_file : option string;
  key_file : option string;
  _feedback_connection : option nat;
  _gateway_connection : option nat
}.

Definition __init__ (use_sandbox : bool) (cert_file key_file : option string)
    : t :=
  {| use_sandbox := use_sandbox; cert_file := cert_file;
     key_file := key_file; _feedback_connection := None;
     _gateway_connection := None |}.

(** The property [feedback_server]: the object, the facade and the store
    after the access. *)
Definition feedback_server (self : t) (store : list connection_object)
    : nat * t * list connection_object :=
  match _feedback_connection self with
  | Some c => (c, self, store)
  | None =>
      let c := List.length store in
      (c,
       {| use_sandbox := use_sandbox self; cert_file := cert_file self;
          key_file := key_file self; _feedback_connection := Some c;
          _gateway_connection := _gateway_connection self |},
       store ++ [{| class_of := FeedbackConnection_class;
                    server := FeedbackConnection.server (use_sandbox self);
                    port := FeedbackConnection.port;
                    object_cert_file := cert_file self;
                    object_key_file := key_file self;
                    fields := APNsConnection.__init__ |}])
  end.

(** The property [gateway_server]. *)
Definition gateway_server (self : t) (store : list connection_object)
    : nat * t * list connection_object :=
  match _gateway_connection self with
  | Some c => (c, self, store)
  | None =>
      let c := List.length store in
      (c,
       {| use_sandbox := use_sandbox self; cert_file := cert_file self;
          key_file := key_file self;
          _feedback_connection := _feedback_connection self;
          _gateway_connection := Some c |},
       store ++ [{| class_of := GatewayConnection_class;
                    server := GatewayConnection.server (use_sandbox self);
                    port := GatewayConnection.port;
                    object_cert_file := cert_file self;
                    object_key_file := key_file self;
                    fields := APNsConnection.__init__ |}])
  end.

(** A use of the facade: which property is read. *)
Inductive access : Type :=
| Get_feedback_server
| Get_gateway_server.

Definition get (a : access) (self : t) (store : list connection_object)
    : nat * t * list connection_object :=
  match a with
  | Get_feedback_server => feedback_server self store
  | Get_gateway_server => gateway_server self store
  end.

(** The objects a sequence of accesses returns, with the facade and the
    store it leaves. *)
Fixpoint gets (accesses : list access) (self : t)
    (store : list connection_object)
    : list (access * nat) * t * list connection_object :=
  match accesses with
  | [] => ([], self, store)
  | a :: rest =>
      let '(c, self1, store1) := get a self store in
      let '(cs, self2, store2) := gets rest self1 store1 in
      ((a, c) :: cs, self2, store2)
  end.

End Facade.

(** ** Notions used by the properties *)

(** The frame of a notification: command 1, identifier, expiry, token with
    its length, payload with its length. *)
Definition frame_of (identifier expiry : Z) (token_bin payload_json : bytes)
    : bytes :=
  [x01] ++ big_endian 4 identifier ++ big_endian 4 expiry
    ++ big_endian 2 (Z.of_nat (List.length token_bin)) ++ token_bin
    ++ big_endian 2 (Z.of_nat (List.length payload_json)) ++ payload_json.

(** No event of a run is the completion of a connect. *)
Fixpoint no_completion (evs : list event) : bool :=
  match evs with
  | [] => true
  | Connect_completes _ _ :: _ => false
  | _ :: rest => no_completion rest
  end.

(** Every chunk leaves at least 6 bytes in the buffer of the loop of
    [items]: the check made after each chunk never stops the loop. [buff] is
    the buffer before the first of the chunks. *)
Fixpoint keeps_header (buff : bytes) (chunks : list bytes) : bool :=
  match chunks with
  | [] => true
  | chunk :: rest =>
      (6 <=? List.length (buff ++ chunk))%nat
      && match snd (FeedbackConnection.drain (buff ++ chunk)) with
         | Ok buff' => keeps_header buff' rest
         | Raise _ => true
         end
  end.

(** The payload of the example: a [Payload] whose alert is the text [hi]. *)
Definition hi_payload : Payload.t :=
  {| Payload.alert := Some (Payload.AlertText (u "hi"));
     Payload.badge := None; Payload.sound := None; Payload.custom := [] |}.

(** The 22 bytes of the compact text of that payload: an object whose
    [aps] member is an object whose [alert] member is the text [hi]. *)
Definition hi_json : bytes :=
  [x7b; x22; x61; x70; x73; x22; x3a; x7b; x22; x61; x6c; x65; x72; x74;
   x22; x3a; x22; x68; x69; x22; x7d; x7d].

(** What [stream.write] adds to the world. *)
Definition after_write (s : nat) (data : bytes) (w : world) : world :=
  {| self := self w; now := now w; timeouts := timeouts w;
     next_timeout := next_timeout w; next_socket := next_socket w;
     closed := closed w; connects := connects w; reads := reads w;
     written := written w ++ [(s, data)]; called := called w |}.

(** What holds of every world a fresh connection can reach. The [k]-th call
    of [connect] that goes ahead registers timeout [k] and opens socket [k];
    a timeout is pending only during a connect attempt, and it is the one the
    connection remembers; no continuation has run for the socket of an
    attempt in progress. *)
Definition invariant (w : world) : Prop :=
  next_timeout w = next_socket w
  /\ (forall h d, In (h, d) (timeouts w) ->
        _connecting (self w) = true
        /\ _connect_timeout (self w) = Some h
        /\ _socket (self w) = Some h)
  /\ (_connecting (self w) = true ->
      exists s, _socket (self w) = Some s
                /\ forall cb, ~ In (s, cb) (called w))
  /\ (forall s cb, In (s, cb) (called w) -> (s < next_socket w)%nat)
  /\ (forall s cb, In (s, cb) (connects w) -> (s < next_socket w)%nat).

(** What may follow a value inside a document: nothing, a comma, or a
    closing bracket or brace. *)
Definition delimited (rest : ustring) : bool :=
  match rest with
  | [] => true
  | c :: _ => (c =? json.COMMA) || (c =? json.RBRACKET) || (c =? json.RBRACE)
  end.

(** A decimal numeral with at least one digit and no leading zero, unless
    it is the single digit 0. *)
Definition normal (d : Decimal.uint) : Prop :=
  d <> Decimal.Nil /\ forall d', d = Decimal.D0 d' -> d' = Decimal.Nil.

Definition escaped (s : ustring) : ustring :=
  flat_map (fun c => if json.needs_escape c then json.escape c else [c]) s.

(** How a serialized value begins: with a character that is not white
    space and closes nothing. *)
Definition opens_value (c : Z) : bool :=
  (c =? 110) || (c =? 116) || (c =? 102) || (c =? json.MINUS)
  || json.is_digit c || (c =? json.QUOTE) || (c =? json.LBRACKET)
  || (c =? json.LBRACE).

(** What the induction gives for the items of a list or dictionary. *)
Definition reads_back (v : value) : Prop :=
  forall fuel rest,
    wf_value v = true -> (size v <= fuel)%nat -> delimited rest = true ->
    json.scan_once fuel (json.dumps v ++ rest) = Some (v, rest).

(** At most one connect timer is pending, and it is due within [TIME_OUT]
    of the present. *)
Definition timed (w : world) : Prop :=
  (List.length (timeouts w) <= 1)%nat
  /\ forall h d, In (h, d) (timeouts w) -> d <= now w + TIME_OUT.

(** No pending timer is due before [t], and none registered from now on
    will be. *)
Definition not_before (t : Z) (w : world) : Prop :=
  t <= now w + TIME_OUT /\ forall h d, In (h, d) (timeouts w) -> t <= d.

(** The four numbers of a frame fit their fields. *)
Definition fits (identifier expiry : Z) (token_bin payload_json : bytes)
    : Prop :=
  0 <= identifier < 2 ^ 32 /\ 0 <= expiry < 2 ^ 32
  /\ Z.of_nat (List.length token_bin) <= 65535
  /\ Z.of_nat (List.length payload_json) <= 65535.

(** The world after the run that leaves a connection alive and connecting
    with no timer pending: the timer of a second connect fired while the
    first connection was alive. *)
Definition stuck_world : world :=
  Eval vm_compute in
    match run [Call_connect 1%nat; Connect_completes 0%nat 1%nat;
               Call_connect 2%nat; Tick 20; Timeout_fires 1%nat] (initial 0)
    with
    | Some w => w
    | None => initial 0
    end.

(** A payload with an alert text and nothing else. *)
Definition alert_only (s : ustring) : Payload.t :=
  {| Payload.alert := Some (Payload.AlertText s); Payload.badge := None;
     Payload.sound := None; Payload.custom := [] |}.

(** The bytes around the alert text in the serialized payload: the opening
    of the two objects with their keys [aps] and [alert] up to the opening
    quote, and the closing quote with the two closing braces. *)
Definition alert_prefix : bytes :=
  [x7b; x22; x61; x70; x73; x22; x3a; x7b; x22; x61; x6c; x65; x72; x74;
   x22; x3a; x22].

Definition alert_suffix : bytes := [x22; x7d; x7d].

(** A printable ASCII character that [json] does not escape. *)
Definition plain (c : Z) : Prop := 32 <= c < 128 /\ c <> 34 /\ c <> 92.

(** A character that takes three bytes in UTF-8. *)
Definition three_bytes (c : Z) : Prop := 2048 <= c < 65536.

(** The attribute of the facade that remembers the connection of a kind. *)
Definition memo (a : Facade.access) (self : Facade.t) : option nat :=
  match a with
  | Facade.Get_feedback_server => Facade._feedback_connection self
  | Facade.Get_gateway_server => Facade._gateway_connection self
  end.

(** The connection object of a kind as its constructor makes it. *)
Definition object_for (a : Facade.access) (use_sandbox : bool)
    (cert_file key_file : option string) : connection_object :=
  match a with
  | Facade.Get_feedback_server =>
      {| class_of := FeedbackConnection_class;
         server := FeedbackConnection.server use_sandbox;
         port := FeedbackConnection.port;
         object_cert_file := cert_file; object_key_file := key_file;
         fields := APNsConnection.__init__ |}
  | Facade.Get_gateway_server =>
      {| class_of := GatewayConnection_class;
         server := GatewayConnection.server use_sandbox;
         port := GatewayConnection.port;
         object_cert_file := cert_file; object_key_file := key_file;
         fields := APNsConnection.__init__ |}
  end.

(** Every connection the facade remembers is in the store, made from the
    settings of the facade. *)
Definition facade_ok (self : Facade.t) (store : list connection_object)
    : Prop :=
  forall a c,
    memo a self = Some c ->
    nth_error store c
    = Some (object_for a (Facade.use_sandbox self) (Facade.cert_file self)
              (Facade.key_file self)).

(** How many connections the facade remembers. *)
Definition remembered (self : Facade.t) : nat :=
  (match Facade._feedback_connection self with Some _ => 1 | None => 0 end
   + match Facade._gateway_connection self with Some _ => 1 | None => 0 end)%nat.

(** The days of a month of the Gregorian calendar. *)
Definition days_in_month (y m : Z) : Z :=
  if m =? 2 then
    if ((y mod 4 =? 0) && negb (y mod 100 =? 0)) || (y mod 400 =? 0)
    then 29 else 28
  else if (m =? 4) || (m =? 6) || (m =? 9) || (m =? 11) then 30
  else 31.

(** A date of the calendar in the years an unsigned 32-bit time stamp
    reaches. *)
Definition calendar_date (y m d : Z) : bool :=
  (1970 <=? y) && (y <=? 2106) && (1 <=? m) && (m <=? 12)
  && (1 <=? d) && (d <=? days_in_month y m).

Definition civil_date_ok (z : Z) : bool :=
  let '(y, m, d) := datetime.civil_from_days z in calendar_date y m d.

(** [civil_date_ok] on the [n] days from [z] on. *)
Fixpoint civil_dates_ok (n : nat) (z : Z) : bool :=
  match n with
  | O => true
  | S n' => civil_date_ok z && civil_dates_ok n' (z + 1)
  end.

Definition time_of_day (t : datetime.t) : Prop :=
  0 <= datetime.hour t < 24 /\ 0 <= datetime.minute t < 60
  /\ 0 <= datetime.second t < 60.

(** What [items] can yield: the lower-case hexadecimal text of some bytes
    with the date of an unsigned 32-bit time stamp. *)
Definition plausible (it : FeedbackConnection.item) : Prop :=
  exists data ts,
    it = (binascii.b2a_hex data, datetime.utcfromtimestamp ts)
    /\ 0 <= ts < 2 ^ 32.

(** The socket [s0] is open, was opened by an earlier connect, and is not
    the socket the connection holds. *)
Definition abandoned (s0 : nat) (w : world) : Prop :=
  is_closed s0 w = false
  /\ (s0 < next_socket w)%nat
  /\ _socket (self w) <> Some s0.

(** The socket the connection holds was opened by one of its connects. *)
Definition socket_known (w : world) : Prop :=
  forall s, _socket (self w) = Some s -> (s < next_socket w)%nat.

(** * Properties *)

Lemma Z_of_byte_range b : 0 <= Z_of_byte b < 256.
Proof.
  unfold Z_of_byte. pose proof (Byte.to_N_bounded b). lia.
Qed.

Lemma Z_of_byte_of_Z z : Z_of_byte (byte_of_Z z) = z mod 256.
Proof.
  unfold Z_of_byte, byte_of_Z.
  assert (Hr : 0 <= z mod 256 < 256) by (apply Z.mod_pos_bound; lia).
  destruct (Byte.of_N (Z.to_N (z mod 256))) as [b|] eqn:E.
  - apply Byte.to_of_N in E. rewrite E. apply Z2N.id. lia.
  - apply Byte.of_N_None_iff in E. lia.
Qed.

Lemma byte_of_Z_of_byte b : byte_of_Z (Z_of_byte b) = b.
Proof.
  unfold byte_of_Z, Z_of_byte.
  pose proof (Byte.to_N_bounded b).
  rewrite Z.mod_small by lia.
  rewrite N2Z.id, Byte.of_to_N. reflexivity.
Qed.



(** ** Bit-level facts *)

Lemma land_shiftl_small a b n :
  0 <= n -> 0 <= b < 2 ^ n -> Z.land (Z.shiftl a n) b = 0.
Proof.
  intros Hn Hb. apply Z.bits_inj'. intros i Hi.
  rewrite Z.land_spec, Z.bits_0.
  destruct (Z.lt_ge_cases i n) as [Hlt | Hge].
  - rewrite Z.shiftl_spec_low by lia. reflexivity.
  - destruct (Z.eq_dec b 0) as [-> | Hnz].
    + rewrite Z.bits_0. apply andb_false_r.
    + rewrite (Z.bits_above_log2 b i).
      * apply andb_false_r.
      * lia.
      * assert (Z.log2 b < n) by (apply Z.log2_lt_pow2; lia). lia.
Qed.

Lemma lor_shiftl_small a b n :
  0 <= n -> 0 <= b < 2 ^ n -> Z.lor (Z.shiftl a n) b = a * 2 ^ n + b.
Proof.
  intros Hn Hb.
  rewrite <- Z.lxor_lor by (apply land_shiftl_small; assumption).
  rewrite <- Z.add_nocarry_lxor by (apply land_shiftl_small; assumption).
  rewrite Z.shiftl_mul_pow2 by assumption. reflexivity.
Qed.

Lemma lor_small_add a b n :
  0 <= n -> 0 <= b < 2 ^ n -> Z.lor (a * 2 ^ n) b = a * 2 ^ n + b.
Proof.
  intros Hn Hb. rewrite <- (lor_shiftl_small a b n) by assumption.
  rewrite Z.shiftl_mul_pow2 by assumption. reflexivity.
Qed.

Lemma big_endian_length k n : List.length (big_endian k n) = k.
Proof.
  revert n. induction k as [|k IH]; intros n; simpl.
  - reflexivity.
  - rewrite length_app, IH. simpl. lia.
Qed.

Lemma pack_H_big_endian n :
  0 <= n < 65536 -> struct.pack_H n = Ok (big_endian 2 n).
Proof.
  intros Hn. unfold struct.pack_H, struct.USHRT_MAX.
  replace ((0 <=? n) && (n <=? 65535)) with true
    by (symmetry; apply andb_true_intro; split; apply Z.leb_le; lia).
  simpl. rewrite Z.shiftr_div_pow2 by lia. reflexivity.
Qed.

Lemma pack_I_big_endian n :
  0 <= n < 4294967296 -> struct.pack_I n = Ok (big_endian 4 n).
Proof.
  intros Hn. unfold struct.pack_I, struct.UINT_MAX.
  replace ((0 <=? n) && (n <=? 4294967295)) with true
    by (symmetry; apply andb_true_intro; split; apply Z.leb_le; lia).
  simpl. rewrite !Z.shiftr_div_pow2 by lia.
  replace (n / 256 / 256 / 256) with (n / 2 ^ 24)
    by (rewrite !Z.div_div by lia; reflexivity).
  replace (n / 256 / 256) with (n / 2 ^ 16)
    by (rewrite !Z.div_div by lia; reflexivity).
  reflexivity.
Qed.

Lemma unpack_H_big_endian n :
  0 <= n < 65536 -> struct.unpack_H (big_endian 2 n) = Ok n.
Proof.
  intros Hn.
  change (big_endian 2 n) with [byte_of_Z (n / 256); byte_of_Z n].
  unfold struct.unpack_H. f_equal.
  rewrite !Z_of_byte_of_Z.
  rewrite lor_shiftl_small by (try lia; apply Z.mod_pos_bound; lia).
  change (2 ^ 8) with 256.
  rewrite (Z.mod_small (n / 256)) by (split; [apply Z.div_pos | apply Z.div_lt_upper_bound]; lia).
  pose proof (Z.div_mod n 256). lia.
Qed.

Lemma unpack_I_big_endian n :
  0 <= n < 4294967296 -> struct.unpack_I (big_endian 4 n) = Ok n.
Proof.
  intros Hn.
  change (big_endian 4 n) with
    [byte_of_Z (n / 256 / 256 / 256); byte_of_Z (n / 256 / 256);
     byte_of_Z (n / 256); byte_of_Z n].
  unfold struct.unpack_I. f_equal.
  rewrite !Z_of_byte_of_Z.
  assert (B0 : 0 <= n mod 256 < 256) by (apply Z.mod_pos_bound; lia).
  assert (B1 : 0 <= (n / 256) mod 256 < 256) by (apply Z.mod_pos_bound; lia).
  assert (B2 : 0 <= (n / 256 / 256) mod 256 < 256) by (apply Z.mod_pos_bound; lia).
  assert (B3 : 0 <= (n / 256 / 256 / 256) mod 256 < 256) by (apply Z.mod_pos_bound; lia).
  rewrite (lor_shiftl_small _ (n mod 256) 8) by lia.
  rewrite (lor_shiftl_small _ _ 16) by lia.
  rewrite (lor_shiftl_small _ _ 24) by lia.
  change (2 ^ 8) with 256. change (2 ^ 16) with 65536. change (2 ^ 24) with 16777216.
  pose proof (Z.div_mod n 256).
  pose proof (Z.div_mod (n / 256) 256).
  pose proof (Z.div_mod (n / 256 / 256) 256).
  pose proof (Z.div_mod (n / 256 / 256 / 256) 256).
  assert (n / 256 / 256 / 256 / 256 = 0).
  { rewrite !Z.div_div by lia. apply Z.div_small. lia. }
  lia.
Qed.

(** ** The binary codec *)

(** C8: for every 16-bit unsigned [n], [packed_ushort_big_endian n] is
    exactly two bytes, most significant first, and
    [unpacked_ushort_big_endian] gives [n] back; for every 32-bit unsigned
    [m], [packed_uint_big_endian m] is exactly four bytes, most significant
    first, and [unpacked_uint_big_endian] gives [m] back. *)
Theorem codec_roundtrip (n m : Z)
    (Hn : 0 <= n < 2 ^ 16) (Hm : 0 <= m < 2 ^ 32) :
  (exists b1 b0,
      APNs.packed_ushort_big_endian n = Ok [b1; b0]
      /\ Z_of_byte b1 = n / 2 ^ 8
      /\ Z_of_byte b0 = n mod 2 ^ 8
      /\ APNs.unpacked_ushort_big_endian [b1; b0] = Ok n)
  /\ (exists b3 b2 b1 b0,
      APNs.packed_uint_big_endian m = Ok [b3; b2; b1; b0]
      /\ Z_of_byte b3 = m / 2 ^ 24
      /\ Z_of_byte b2 = (m / 2 ^ 16) mod 2 ^ 8
      /\ Z_of_byte b1 = (m / 2 ^ 8) mod 2 ^ 8
      /\ Z_of_byte b0 = m mod 2 ^ 8
      /\ APNs.unpacked_uint_big_endian [b3; b2; b1; b0] = Ok m).
Proof.
  change (2 ^ 16) with 65536 in Hn. change (2 ^ 32) with 4294967296 in Hm.
  change (2 ^ 8) with 256.
  split.
  - exists (byte_of_Z (n / 256)), (byte_of_Z n).
    unfold APNs.packed_ushort_big_endian, APNs.unpacked_ushort_big_endian.
    rewrite pack_H_big_endian by lia.
    repeat split.
    + rewrite Z_of_byte_of_Z. apply Z.mod_small.
      split; [apply Z.div_pos | apply Z.div_lt_upper_bound]; lia.
    + apply Z_of_byte_of_Z.
    + apply (unpack_H_big_endian n). lia.
  - exists (byte_of_Z (m / 256 / 256 / 256)), (byte_of_Z (m / 256 / 256)),
      (byte_of_Z (m / 256)), (byte_of_Z m).
    unfold APNs.packed_uint_big_endian, APNs.unpacked_uint_big_endian.
    rewrite pack_I_big_endian by lia.
    repeat split.
    + rewrite Z_of_byte_of_Z, !Z.div_div by lia. apply Z.mod_small.
      split; [apply Z.div_pos | apply Z.div_lt_upper_bound]; lia.
    + rewrite Z_of_byte_of_Z, !Z.div_div by lia. reflexivity.
    + rewrite Z_of_byte_of_Z. reflexivity.
    + apply Z_of_byte_of_Z.
    + apply (unpack_I_big_endian m). lia.
Qed.

Lemma codec_roundtrip_witness :
  (0 <= 4660 < 2 ^ 16) /\ (0 <= 305419896 < 2 ^ 32)
  /\ (exists b1 b0,
      APNs.packed_ushort_big_endian 4660 = Ok [b1; b0]
      /\ Z_of_byte b1 = 4660 / 2 ^ 8
      /\ Z_of_byte b0 = 4660 mod 2 ^ 8
      /\ APNs.unpacked_ushort_big_endian [b1; b0] = Ok 4660)
  /\ (exists b3 b2 b1 b0,
      APNs.packed_uint_big_endian 305419896 = Ok [b3; b2; b1; b0]
      /\ Z_of_byte b3 = 305419896 / 2 ^ 24
      /\ Z_of_byte b2 = (305419896 / 2 ^ 16) mod 2 ^ 8
      /\ Z_of_byte b1 = (305419896 / 2 ^ 8) mod 2 ^ 8
      /\ Z_of_byte b0 = 305419896 mod 2 ^ 8
      /\ APNs.unpacked_uint_big_endian [b3; b2; b1; b0] = Ok 305419896).
Proof.
  split; [lia | split; [lia |]].
  apply (codec_roundtrip 4660 305419896); lia.
Defined.

(** Packing [0x1234] and [0x12345678]. *)
Example packed_ushort_example :
  APNs.packed_ushort_big_endian 4660 = Ok [x12; x34].
Proof. reflexivity. Qed.

Example packed_uint_example :
  APNs.packed_uint_big_endian 305419896 = Ok [x12; x34; x56; x78].
Proof. reflexivity. Qed.

(** ** The example frame *)

(** C7 as stated fails: with identifier 1, expiry 0 and token [a1b2c3d4] the
    frame is not [01 00000001 00000000 0004 a1b2c3d4 0018] followed by the
    payload; the compact payload has 22 bytes, not 24. *)
Lemma example_frame_length_field_not_0018 :
  Payload.__init__ (Some (Payload.AlertText (u "hi"))) None None []
    = Ok hi_payload
  /\ Payload.json hi_payload = hi_json
  /\ GatewayConnection._get_notification 1 0 "a1b2c3d4" hi_payload
     <> Ok ([x01; x00; x00; x00; x01; x00; x00; x00; x00; x00; x04;
             xa1; xb2; xc3; xd4; x00; x18] ++ Payload.json hi_payload).
Proof.
  split; [reflexivity | split; [reflexivity |]].
  vm_compute. discriminate.
Qed.

(** C7, amended: the frame is [01 00000001 00000000 0004 a1b2c3d4 0016]
    followed by the 22 bytes of the payload. *)
Theorem example_frame :
  Payload.__init__ (Some (Payload.AlertText (u "hi"))) None None []
    = Ok hi_payload
  /\ Payload.json hi_payload = hi_json
  /\ List.length hi_json = 22%nat
  /\ GatewayConnection._get_notification 1 0 "a1b2c3d4" hi_payload
     = Ok ([x01; x00; x00; x00; x01; x00; x00; x00; x00; x00; x04;
            xa1; xb2; xc3; xd4; x00; x16] ++ hi_json).
Proof.
  repeat split; reflexivity.
Qed.

(** ** Dictionaries *)

Lemma ustring_eqb_eq a b : ustring_eqb a b = true <-> a = b.
Proof.
  revert b. induction a as [|x a IH]; intros [|y b]; simpl;
    try (split; [discriminate | intros H; discriminate H]);
    try (split; reflexivity).
  rewrite andb_true_iff, Z.eqb_eq, IH.
  split; [intros [-> ->]; reflexivity | intros H; injection H; auto].
Qed.

Lemma ustring_eqb_refl a : ustring_eqb a a = true.
Proof. apply ustring_eqb_eq. reflexivity. Qed.

Lemma ustring_eqb_neq a b : a <> b -> ustring_eqb a b = false.
Proof.
  intros H. destruct (ustring_eqb a b) eqn:E; [|reflexivity].
  apply ustring_eqb_eq in E. contradiction.
Qed.

Lemma ustring_eqb_sym a b : ustring_eqb a b = ustring_eqb b a.
Proof.
  destruct (ustring_eqb a b) eqn:E.
  - apply ustring_eqb_eq in E. subst. symmetry. apply ustring_eqb_refl.
  - symmetry. apply ustring_eqb_neq. intros ->.
    rewrite ustring_eqb_refl in E. discriminate.
Qed.

Lemma dict_get_set_same d k v : dict_get (dict_set d k v) k = Some v.
Proof.
  induction d as [|[k' v'] d IH]; simpl.
  - rewrite ustring_eqb_refl. reflexivity.
  - destruct (ustring_eqb k k') eqn:E; simpl.
    + rewrite ustring_eqb_refl. reflexivity.
    + rewrite E. exact IH.
Qed.

Lemma dict_get_set_other d k v k' :
  ustring_eqb k' k = false -> dict_get (dict_set d k v) k' = dict_get d k'.
Proof.
  intros Hne. induction d as [|[k0 v0] d IH]; simpl.
  - rewrite Hne. reflexivity.
  - destruct (ustring_eqb k k0) eqn:E; simpl.
    + apply ustring_eqb_eq in E. subst k0. rewrite Hne. reflexivity.
    + destruct (ustring_eqb k' k0); [reflexivity | exact IH].
Qed.

Lemma dict_get_update_absent other : forall d k,
  dict_get other k = None ->
  dict_get (dict_update d other) k = dict_get d k.
Proof.
  unfold dict_update.
  induction other as [|[k0 v0] other IH]; intros d k Hk; simpl in *.
  - reflexivity.
  - destruct (ustring_eqb k k0) eqn:E; [discriminate |].
    rewrite IH by assumption. apply dict_get_set_other. assumption.
Qed.

Lemma dict_get_absent d k :
  existsb (ustring_eqb k) (map fst d) = false -> dict_get d k = None.
Proof.
  induction d as [|[k0 v0] d IH]; simpl; [reflexivity |].
  intros H. apply orb_false_iff in H. destruct H as [H1 H2].
  rewrite H1. apply IH. assumption.
Qed.

Lemma dict_get_update_present other : forall d k x,
  distinct (map fst other) = true ->
  dict_get other k = Some x ->
  dict_get (dict_update d other) k = Some x.
Proof.
  induction other as [|[k0 v0] other IH]; intros d k x Hd Hk; simpl in *.
  - discriminate.
  - apply andb_true_iff in Hd. destruct Hd as [Hfresh Hd].
    apply negb_true_iff in Hfresh.
    destruct (ustring_eqb k k0) eqn:E.
    + apply ustring_eqb_eq in E. subst k0. injection Hk as <-.
      change (dict_get (dict_update (dict_set d k v0) other) k = Some v0).
      rewrite dict_get_update_absent by (apply dict_get_absent; assumption).
      apply dict_get_set_same.
    + apply (IH (dict_set d k0 v0)); assumption.
Qed.

(** ** Hexadecimal text *)

(** Induction over a string two characters at a time. *)
Lemma string_pairs_ind (P : string -> Prop) :
  P EmptyString ->
  (forall c, P (String c EmptyString)) ->
  (forall c1 c2 s, P s -> P (String c1 (String c2 s))) ->
  forall s, P s.
Proof.
  intros H0 H1 H2.
  fix IH 1. intros [|c1 [|c2 s]].
  - exact H0.
  - apply H1.
  - apply H2. apply IH.
Qed.

Lemma unhex_pairs_raises s e :
  binascii.unhex_pairs s = Raise e -> exists m, e = TypeError m.
Proof.
  revert e. induction s as [| c | c1 c2 s IH] using string_pairs_ind;
    intros e; simpl; try discriminate.
  destruct (binascii.to_int c1), (binascii.to_int c2);
    try (intros H; injection H as <-; eexists; reflexivity).
  destruct (binascii.unhex_pairs s) as [bs | e'] eqn:E; simpl.
  - discriminate.
  - intros H. injection H as <-. apply IH. reflexivity.
Qed.

Lemma a2b_hex_raises s e :
  binascii.a2b_hex s = Raise e -> exists m, e = TypeError m.
Proof.
  unfold binascii.a2b_hex. destruct (Nat.odd (String.length s)).
  - intros H. injection H as <-. eexists. reflexivity.
  - apply unhex_pairs_raises.
Qed.

Lemma get_notification_not_too_large identifier expiry token_hex q :
  GatewayConnection._get_notification identifier expiry token_hex q
  <> Raise PayloadTooLargeError.
Proof.
  unfold GatewayConnection._get_notification,
    APNs.packed_ushort_big_endian, APNs.packed_uint_big_endian,
    struct.pack_H, struct.pack_I.
  destruct (binascii.a2b_hex token_hex) as [tb | e] eqn:E.
  - simpl.
    repeat match goal with
           | |- context [if ?c then _ else _] => destruct c; simpl
           end; discriminate.
  - apply a2b_hex_raises in E. destruct E as [m ->]. simpl. discriminate.
Qed.

(** ** The payload *)

(** C2: constructing a payload raises [PayloadTooLargeError] exactly when
    its compact UTF-8 JSON text has more than 256 bytes; otherwise the object
    built holds the four arguments unchanged, so nothing is truncated; and
    the size is checked nowhere else: building a frame never raises that
    error, whatever the size of the payload it is given. *)
Theorem payload_size_check (alert : option Payload.alert_t) (badge : option Z)
    (sound : option ustring) (custom : pydict) :
  let p := {| Payload.alert := alert; Payload.badge := badge;
              Payload.sound := sound; Payload.custom := custom |} in
  (Payload.__init__ alert badge sound custom = Raise PayloadTooLargeError
   <-> (256 < List.length (Payload.json p))%nat)
  /\ ((List.length (Payload.json p) <= 256)%nat
      <-> Payload.__init__ alert badge sound custom = Ok p)
  /\ (forall q, Payload.__init__ alert badge sound custom = Ok q -> q = p)
  /\ (forall identifier expiry token_hex q,
        GatewayConnection._get_notification identifier expiry token_hex q
        <> Raise PayloadTooLargeError).
Proof.
  intros p.
  assert (Hinit : Payload.__init__ alert badge sound custom
                  = if (256 <? List.length (Payload.json p))%nat
                    then Raise PayloadTooLargeError else Ok p).
  { unfold Payload.__init__, Payload._check_size, MAX_PAYLOAD_LENGTH.
    fold p. destruct (256 <? List.length (Payload.json p))%nat; reflexivity. }
  rewrite Hinit.
  split; [| split; [| split]].
  - destruct (256 <? List.length (Payload.json p))%nat eqn:E.
    + apply Nat.ltb_lt in E. split; auto.
    + apply Nat.ltb_ge in E. split; [discriminate | lia].
  - destruct (256 <? List.length (Payload.json p))%nat eqn:E.
    + apply Nat.ltb_lt in E. split; [lia | discriminate].
    + apply Nat.ltb_ge in E. split; auto.
  - intros q. destruct (256 <? List.length (Payload.json p))%nat.
    + discriminate.
    + intros H. injection H as <-. reflexivity.
  - apply get_notification_not_too_large.
Qed.

(** A payload of 257 bytes is refused, one of 256 bytes is built. *)
Example payload_257_refused :
  Payload.__init__ (Some (Payload.AlertText (repeat 97 237))) None None []
  = Raise PayloadTooLargeError.
Proof. vm_compute. reflexivity. Qed.

Example payload_256_built :
  Payload.__init__ (Some (Payload.AlertText (repeat 97 236))) None None []
  = Ok {| Payload.alert := Some (Payload.AlertText (repeat 97 236));
          Payload.badge := None; Payload.sound := None;
          Payload.custom := [] |}.
Proof. vm_compute. reflexivity. Qed.

(** C9: when the custom mapping has the key [aps], the dictionary of the
    payload maps [aps] to the custom value, and every key of the custom
    mapping keeps its value at the top level; the [aps] object built from
    alert, sound and badge is gone: the dictionary and the custom mapping
    agree on every key. *)
Theorem custom_overrides_aps (p : Payload.t) (v : value)
    (Hdistinct : distinct (map fst (Payload.custom p)) = true)
    (Haps : dict_get (Payload.custom p) (u "aps") = Some v) :
  dict_get (Payload.dict p) (u "aps") = Some v
  /\ (forall k x, dict_get (Payload.custom p) k = Some x ->
                  dict_get (Payload.dict p) k = Some x)
  /\ (forall k, dict_get (Payload.dict p) k = dict_get (Payload.custom p) k).
Proof.
  assert (Hin : forall k x, dict_get (Payload.custom p) k = Some x ->
                            dict_get (Payload.dict p) k = Some x).
  { intros k x Hk. unfold Payload.dict.
    apply dict_get_update_present; assumption. }
  split; [apply Hin; assumption | split; [exact Hin |]].
  intros k. destruct (dict_get (Payload.custom p) k) as [x|] eqn:Hk.
  - apply Hin. assumption.
  - unfold Payload.dict. rewrite dict_get_update_absent by assumption.
    simpl. destruct (ustring_eqb k (u "aps")) eqn:E; [| reflexivity].
    apply ustring_eqb_eq in E. subst k. congruence.
Qed.

Lemma custom_overrides_aps_witness :
  let p := {| Payload.alert := Some (Payload.AlertText (u "hi"));
              Payload.badge := Some 3; Payload.sound := None;
              Payload.custom := [(u "aps", PInt 7); (u "extra", PBool true)] |} in
  distinct (map fst (Payload.custom p)) = true
  /\ dict_get (Payload.custom p) (u "aps") = Some (PInt 7)
  /\ dict_get (Payload.dict p) (u "aps") = Some (PInt 7)
  /\ (forall k x, dict_get (Payload.custom p) k = Some x ->
                  dict_get (Payload.dict p) k = Some x)
  /\ (forall k, dict_get (Payload.dict p) k = dict_get (Payload.custom p) k).
Proof.
  intros p.
  split; [reflexivity | split; [reflexivity |]].
  apply (custom_overrides_aps p (PInt 7)); reflexivity.
Defined.

Example custom_overrides_aps_example :
  Payload.dict
    {| Payload.alert := Some (Payload.AlertText (u "hi"));
       Payload.badge := Some 3; Payload.sound := None;
       Payload.custom := [(u "aps", PInt 7); (u "extra", PBool true)] |}
  = [(u "aps", PInt 7); (u "extra", PBool true)].
Proof. reflexivity. Qed.

(** C10: in the [aps] object, [badge] is present whenever the badge is not
    [None] (a badge of 0 included) and holds that integer; [alert] and
    [sound] are present only when they are true, so empty text is left out;
    the dictionary of a [PayloadAlert] always has [body] and has each
    optional field only when its value is true (not [None], not empty). *)
Theorem optional_fields (p : Payload.t) (a : PayloadAlert.t)
    (Hcustom : dict_get (Payload.custom p) (u "aps") = None) :
  (exists aps,
      dict_get (Payload.dict p) (u "aps") = Some (PDict aps)
      /\ dict_get aps (u "badge") = option_map PInt (Payload.badge p)
      /\ dict_get aps (u "alert") =
           match Payload.alert p with
           | Some (Payload.AlertText (c :: s)) => Some (PStr (c :: s))
           | Some (Payload.AlertObject o) => Some (PDict (PayloadAlert.dict o))
           | Some (Payload.AlertText []) => None
           | None => None
           end
      /\ dict_get aps (u "sound") =
           match Payload.sound p with
           | Some (c :: s) => Some (PStr (c :: s))
           | Some [] => None
           | None => None
           end)
  /\ dict_get (PayloadAlert.dict a) (u "body")
     = Some (PStr (PayloadAlert.body a))
  /\ dict_get (PayloadAlert.dict a) (u "action-loc-key") =
       match PayloadAlert.action_loc_key a with
       | Some (c :: s) => Some (PStr (c :: s))
       | Some [] => None
       | None => None
       end
  /\ dict_get (PayloadAlert.dict a) (u "loc-key") =
       match PayloadAlert.loc_key a with
       | Some (c :: s) => Some (PStr (c :: s))
       | Some [] => None
       | None => None
       end
  /\ dict_get (PayloadAlert.dict a) (u "loc-args") =
       match PayloadAlert.loc_args a with
       | Some (x :: l) => Some (PList (map PStr (x :: l)))
       | Some [] => None
       | None => None
       end
  /\ dict_get (PayloadAlert.dict a) (u "launch-image") =
       match PayloadAlert.launch_image a with
       | Some (c :: s) => Some (PStr (c :: s))
       | Some [] => None
       | None => None
       end.
Proof.
  split.
  - eexists. split.
    + unfold Payload.dict.
      rewrite dict_get_update_absent by exact Hcustom.
      reflexivity.
    + clear Hcustom. destruct p as [al bd sd cu]. simpl.
      destruct al as [[[|c s]|o]|], sd as [[|c' s']|], bd as [n|];
        repeat split; reflexivity.
  - destruct a as [b alk lk la li]. unfold PayloadAlert.dict. simpl.
    destruct alk as [[|c1 s1]|], lk as [[|c2 s2]|], la as [[|x l]|],
      li as [[|c4 s4]|]; repeat split; reflexivity.
Qed.

Lemma optional_fields_witness :
  let p := {| Payload.alert := Some (Payload.AlertText []);
              Payload.badge := Some 0; Payload.sound := Some [];
              Payload.custom := [(u "extra", PInt 1)] |} in
  let a := {| PayloadAlert.body := u "b";
              PayloadAlert.action_loc_key := Some [];
              PayloadAlert.loc_key := Some (u "k");
              PayloadAlert.loc_args := Some [];
              PayloadAlert.launch_image := None |} in
  dict_get (Payload.custom p) (u "aps") = None
  /\ Payload.dict p = [(u "aps", PDict [(u "badge", PInt 0)]);
                       (u "extra", PInt 1)]
  /\ PayloadAlert.dict a = [(u "body", PStr (u "b"));
                            (u "loc-key", PStr (u "k"))]
  /\ dict_get (PayloadAlert.dict a) (u "body") = Some (PStr (u "b")).
Proof.
  intros p a.
  split; [reflexivity | split; [reflexivity | split; [reflexivity |]]].
  exact (proj1 (proj2 (optional_fields p a eq_refl))).
Defined.

(** ** Reading and writing *)

(** C6: when the stream operation under [read] or [write] raises an
    [IOError] or an [AttributeError], the call raises [ConnectionError] with
    the text of that exception, and the world it leaves has the alive flag
    cleared and the connection's socket, if there is one, closed, with
    nothing else changed; when the stream operation returns, the call returns
    and the connection object is as it was and no socket was closed. *)
Theorem io_failure_tears_down (w : world) (n : nat) (data : bytes)
    (cb : callback) (io : io_outcome) :
  (forall e w1,
      APNsConnection.stream_read_bytes n cb io w = (Raise e, w1) ->
      APNsConnection.caught e = true ->
      APNsConnection.read n cb io w
      = (Raise (ConnectionError (str_of_exn e)), APNsConnection._disconnect w))
  /\ (forall w1,
      APNsConnection.stream_read_bytes n cb io w = (Ok tt, w1) ->
      APNsConnection.read n cb io w = (Ok tt, w1)
      /\ self w1 = self w /\ closed w1 = closed w)
  /\ (forall e w1,
      APNsConnection.stream_write data cb io w = (Raise e, w1) ->
      APNsConnection.caught e = true ->
      APNsConnection.write data cb io w
      = (Raise (ConnectionError (str_of_exn e)), APNsConnection._disconnect w))
  /\ (forall w1,
      APNsConnection.stream_write data cb io w = (Ok tt, w1) ->
      APNsConnection.write data cb io w = (Ok tt, w1)
      /\ self w1 = self w /\ closed w1 = closed w)
  /\ _alive (self (APNsConnection._disconnect w)) = false
  /\ (forall s, _socket (self w) = Some s ->
                is_closed s (APNsConnection._disconnect w) = true)
  /\ _socket (self (APNsConnection._disconnect w)) = _socket (self w)
  /\ _stream (self (APNsConnection._disconnect w)) = _stream (self w)
  /\ _connecting (self (APNsConnection._disconnect w)) = _connecting (self w)
  /\ written (APNsConnection._disconnect w) = written w
  /\ reads (APNsConnection._disconnect w) = reads w.
Proof.
  assert (Hr : forall e w1,
             APNsConnection.stream_read_bytes n cb io w = (Raise e, w1) ->
             w1 = w).
  { unfold APNsConnection.stream_read_bytes.
    intros e w1. destruct (_stream (self w)); [destruct io |];
      intros H; inversion H; reflexivity. }
  assert (Hw : forall e w1,
             APNsConnection.stream_write data cb io w = (Raise e, w1) ->
             w1 = w).
  { unfold APNsConnection.stream_write.
    intros e w1. destruct (_stream (self w)); [destruct io |];
      intros H; inversion H; reflexivity. }
  repeat split.
  - intros e w1 H Hc. unfold APNsConnection.read. rewrite H, Hc.
    rewrite (Hr _ _ H). reflexivity.
  - unfold APNsConnection.read. rewrite H. reflexivity.
  - revert H. unfold APNsConnection.stream_read_bytes.
    destruct (_stream (self w)); [destruct io |];
      intros H; inversion H; reflexivity.
  - revert H. unfold APNsConnection.stream_read_bytes.
    destruct (_stream (self w)); [destruct io |];
      intros H; inversion H; reflexivity.
  - intros e w1 H Hc. unfold APNsConnection.write. rewrite H, Hc.
    rewrite (Hw _ _ H). reflexivity.
  - unfold APNsConnection.write. rewrite H. reflexivity.
  - revert H. unfold APNsConnection.stream_write.
    destruct (_stream (self w)); [destruct io |];
      intros H; inversion H; reflexivity.
  - revert H. unfold APNsConnection.stream_write.
    destruct (_stream (self w)); [destruct io |];
      intros H; inversion H; reflexivity.
  - unfold APNsConnection._disconnect. simpl.
    destruct (_socket (self w)); reflexivity.
  - intros s Hs. unfold APNsConnection._disconnect. simpl. rewrite Hs.
    unfold is_closed. simpl. rewrite Nat.eqb_refl. reflexivity.
  - unfold APNsConnection._disconnect. simpl.
    destruct (_socket (self w)); reflexivity.
  - unfold APNsConnection._disconnect. simpl.
    destruct (_socket (self w)); reflexivity.
  - unfold APNsConnection._disconnect. simpl.
    destruct (_socket (self w)); reflexivity.
  - unfold APNsConnection._disconnect. simpl.
    destruct (_socket (self w)); reflexivity.
  - unfold APNsConnection._disconnect. simpl.
    destruct (_socket (self w)); reflexivity.
Qed.

Lemma io_failure_tears_down_witness :
  let w := APNsConnection.connect 7%nat (initial 0) in
  APNsConnection.stream_read_bytes 6%nat 1%nat (Some (IOError "reset")) w
  = (Raise (IOError "reset"), w)
  /\ APNsConnection.caught (IOError "reset") = true
  /\ APNsConnection.read 6%nat 1%nat (Some (IOError "reset")) w
     = (Raise (ConnectionError "reset"), APNsConnection._disconnect w)
  /\ is_closed 0%nat (APNsConnection._disconnect w) = true.
Proof.
  intros w.
  split; [reflexivity | split; [reflexivity | split]].
  - apply (proj1 (io_failure_tears_down w 6%nat [] 1%nat (Some (IOError "reset")))
             (IOError "reset") w); reflexivity.
  - apply (io_failure_tears_down w 6%nat [] 1%nat (Some (IOError "reset"))).
Defined.

(** Reading from a connection that was never connected. *)
Example read_without_stream :
  APNsConnection.read 6%nat 1%nat None (initial 0)
  = (Raise (ConnectionError "'NoneType' object has no attribute 'read_bytes'"),
     APNsConnection._disconnect (initial 0)).
Proof. reflexivity. Qed.

(** ** The notification frame *)

Lemma to_int_spec c t :
  binascii.to_int c = Some t ->
  0 <= t < 16 /\ binascii.hexdigit t = ascii_lower c.
Proof.
  destruct c as [[] [] [] [] [] [] [] []]; intros H; vm_compute in H;
    try discriminate H; injection H as <-; (split; [lia | reflexivity]).
Qed.

Lemma unhex_pairs_ok s :
  hexadecimal s = true ->
  Nat.even (String.length s) = true ->
  exists bs,
    binascii.unhex_pairs s = Ok bs
    /\ (2 * List.length bs = String.length s)%nat
    /\ binascii.b2a_hex bs = lower s.
Proof.
  induction s as [| c | c1 c2 s IH] using string_pairs_ind; intros Hh He.
  - exists []. repeat split.
  - discriminate He.
  - simpl in Hh.
    destruct (binascii.to_int c1) as [t|] eqn:E1; [| discriminate].
    destruct (binascii.to_int c2) as [b|] eqn:E2; [| discriminate].
    destruct (IH Hh He) as (bs & Hbs & Hlen & Hhex).
    exists (byte_of_Z (16 * t + b) :: bs).
    simpl binascii.unhex_pairs. rewrite E1, E2, Hbs.
    apply to_int_spec in E1. apply to_int_spec in E2.
    destruct E1 as [Ht Hlt], E2 as [Hb Hlb].
    repeat split.
    + simpl. lia.
    + simpl. rewrite Z_of_byte_of_Z, Hhex.
      rewrite (Z.mod_small (16 * t + b)) by lia.
      replace ((16 * t + b) / 16) with t
        by (apply Z.div_unique with b; lia).
      replace ((16 * t + b) mod 16) with b
        by (apply Z.mod_unique with t; lia).
      rewrite Hlt, Hlb. reflexivity.
Qed.

Lemma odd_negb_even n : Nat.odd n = negb (Nat.even n).
Proof. unfold Nat.odd. reflexivity. Qed.

Lemma big_endian_nth k : forall n i,
  (i < k)%nat ->
  nth i (map Z_of_byte (big_endian k n)) 0
  = (n / 256 ^ Z.of_nat (k - 1 - i)) mod 256.
Proof.
  induction k as [|k IH]; intros n i Hi; [lia |].
  simpl big_endian. rewrite map_app.
  destruct (Nat.eq_dec i k) as [-> | Hne].
  - rewrite app_nth2 by (rewrite length_map, big_endian_length; lia).
    rewrite length_map, big_endian_length.
    replace (S k - 1 - k)%nat with 0%nat by lia.
    replace (k - k)%nat with 0%nat by lia. simpl.
    rewrite Z_of_byte_of_Z, Z.div_1_r. reflexivity.
  - rewrite app_nth1 by (rewrite length_map, big_endian_length; lia).
    rewrite IH by lia.
    replace (S k - 1 - i)%nat with (S (k - 1 - i)) by lia.
    rewrite Nat2Z.inj_succ, Z.pow_succ_r by lia.
    rewrite Z.div_div by lia. reflexivity.
Qed.

(** C1: for an identifier and an expiry of 32 bits and a token of
    hexadecimal digits of even length (at most 65535 bytes once decoded),
    [send_notification] on a connection whose stream accepts the write hands
    the stream exactly one frame: the byte 1, the identifier in 4 big-endian
    bytes, the expiry in 4 big-endian bytes, the number of token bytes in 2
    big-endian bytes, the token bytes, the number of payload bytes in 2
    big-endian bytes, the payload's JSON bytes; its length is
    1+4+4+2+len(token)+2+len(payload). For a token of odd length
    [send_notification] raises [TokenLengthOddError] and leaves the world as
    it was: nothing is written. *)
Theorem notification_frame (identifier expiry : Z) (token_hex : string)
    (payload : Payload.t) (cb : callback) (w : world) :
  (Nat.even (String.length token_hex) = true ->
   hexadecimal token_hex = true ->
   0 <= identifier < 2 ^ 32 ->
   0 <= expiry < 2 ^ 32 ->
   Z.of_nat (String.length token_hex) <= 2 * 65535 ->
   Z.of_nat (List.length (Payload.json payload)) <= 65535 ->
   exists token_bin frame,
     binascii.a2b_hex token_hex = Ok token_bin
     /\ binascii.b2a_hex token_bin = lower token_hex
     /\ (2 * List.length token_bin = String.length token_hex)%nat
     /\ frame =
          [x01] ++ big_endian 4 identifier ++ big_endian 4 expiry
            ++ big_endian 2 (Z.of_nat (List.length token_bin)) ++ token_bin
            ++ big_endian 2 (Z.of_nat (List.length (Payload.json payload)))
            ++ Payload.json payload
     /\ List.length frame
        = (1 + 4 + 4 + 2 + List.length token_bin + 2
           + List.length (Payload.json payload))%nat
     /\ GatewayConnection._get_notification identifier expiry token_hex payload
        = Ok frame
     /\ forall s,
          _stream (self w) = Some s ->
          GatewayConnection.send_notification identifier expiry token_hex
            payload cb None w
          = (Ok tt, after_write s frame w))
  /\ (Nat.odd (String.length token_hex) = true ->
      forall io,
        GatewayConnection.send_notification identifier expiry token_hex
          payload cb io w
        = (Raise (TokenLengthOddError "Token Length is Odd"), w)).
Proof.
  split.
  - intros He Hh Hid Hex Htl Hpl.
    destruct (unhex_pairs_ok token_hex Hh He) as (token_bin & Hbs & Hlen & Hhex).
    assert (Ha : binascii.a2b_hex token_hex = Ok token_bin).
    { unfold binascii.a2b_hex. rewrite odd_negb_even, He. exact Hbs. }
    assert (Hget :
      GatewayConnection._get_notification identifier expiry token_hex payload
      = Ok ([x01] ++ big_endian 4 identifier ++ big_endian 4 expiry
            ++ big_endian 2 (Z.of_nat (List.length token_bin)) ++ token_bin
            ++ big_endian 2 (Z.of_nat (List.length (Payload.json payload)))
            ++ Payload.json payload)).
    { unfold GatewayConnection._get_notification,
        APNs.packed_ushort_big_endian, APNs.packed_uint_big_endian.
      rewrite Ha. cbn [bind].
      rewrite (pack_H_big_endian (Z.of_nat (List.length token_bin))) by lia.
      cbn [bind].
      rewrite (pack_I_big_endian identifier) by (change (2 ^ 32) with 4294967296 in Hid; lia).
      cbn [bind].
      rewrite (pack_I_big_endian expiry) by (change (2 ^ 32) with 4294967296 in Hex; lia).
      cbn [bind].
      rewrite (pack_H_big_endian (Z.of_nat (List.length (Payload.json payload)))) by lia.
      reflexivity. }
    eexists token_bin, _.
    split; [exact Ha |].
    split; [exact Hhex |].
    split; [exact Hlen |].
    split; [reflexivity |].
    split.
    { rewrite !length_app, !big_endian_length. simpl. lia. }
    split; [exact Hget |].
    intros s Hs. unfold GatewayConnection.send_notification.
    rewrite Hget. unfold APNsConnection.write, APNsConnection.stream_write.
    rewrite Hs. reflexivity.
  - intros Ho io. unfold GatewayConnection.send_notification,
      GatewayConnection._get_notification, binascii.a2b_hex.
    rewrite Ho. reflexivity.
Qed.

Lemma notification_frame_witness :
  let w := APNsConnection.connect 0%nat (initial 0) in
  Nat.even (String.length "a1b2c3d4") = true
  /\ hexadecimal "a1b2c3d4" = true
  /\ Nat.odd (String.length "a1b2c") = true
  /\ GatewayConnection.send_notification 1 0 "a1b2c3d4" hi_payload 5%nat None w
     = (Ok tt,
        after_write 0%nat
          ([x01; x00; x00; x00; x01; x00; x00; x00; x00; x00; x04;
            xa1; xb2; xc3; xd4; x00; x16] ++ hi_json) w)
  /\ GatewayConnection.send_notification 1 0 "a1b2c" hi_payload 5%nat None w
     = (Raise (TokenLengthOddError "Token Length is Odd"), w).
Proof.
  intros w.
  split; [reflexivity | split; [reflexivity | split; [reflexivity | split]]].
  - assert (H1 : 0 <= 1 < 2 ^ 32) by (change (2 ^ 32) with 4294967296; lia).
    assert (H0 : 0 <= 0 < 2 ^ 32) by (change (2 ^ 32) with 4294967296; lia).
    assert (Ht : Z.of_nat (String.length "a1b2c3d4") <= 2 * 65535)
      by (simpl; lia).
    assert (Hp : Z.of_nat (List.length (Payload.json hi_payload)) <= 65535)
      by (change (Payload.json hi_payload) with hi_json; simpl; lia).
    destruct (proj1 (notification_frame 1 0 "a1b2c3d4" hi_payload 5%nat w)
                eq_refl eq_refl H1 H0 Ht Hp)
      as (token_bin & frame & Ha & _ & _ & Hf & _ & _ & Hsend).
    rewrite (Hsend 0%nat eq_refl). f_equal. f_equal.
    rewrite Hf. vm_compute in Ha. injection Ha as <-. reflexivity.
  - apply (proj2 (notification_frame 1 0 "a1b2c" hi_payload 5%nat w)).
    reflexivity.
Defined.

(** ** The feedback stream *)

(** The inner loop of [items], one iteration unfolded. *)
Lemma drain_eq (buff : bytes) :
  FeedbackConnection.drain buff =
  if (6 <? List.length buff)%nat then
    match APNs.unpacked_ushort_big_endian (slice buff 4 6) with
    | Raise e => ([], Raise e)
    | Ok token_length =>
        if (6 + Z.to_nat token_length <=? List.length buff)%nat then
          match APNs.unpacked_uint_big_endian (slice buff 0 4) with
          | Raise e => ([], Raise e)
          | Ok fail_time_unix =>
              let rest :=
                FeedbackConnection.drain
                  (skipn (6 + Z.to_nat token_length) buff) in
              ((binascii.b2a_hex (slice buff 6 (6 + Z.to_nat token_length)),
                datetime.utcfromtimestamp fail_time_unix) :: fst rest,
               snd rest)
          end
        else ([], Ok buff)
    end
  else ([], Ok buff).
Proof.
  funelim (FeedbackConnection.drain buff);
    repeat match goal with
           | H : _ = FeedbackConnection.drain _ |- _ => clear H
           end;
    try reflexivity;
    repeat match goal with
           | H : ?x = _ |- context [?x] => rewrite H
           end; reflexivity.
Qed.

Lemma wf_record_bounds r :
  wf_record r = true ->
  0 <= fail_time r < 4294967296
  /\ 0 <= Z.of_nat (List.length (token r)) < 65536.
Proof.
  unfold wf_record. rewrite !andb_true_iff, Z.leb_le, !Z.ltb_lt.
  change (2 ^ 32) with 4294967296. change (2 ^ 16) with 65536. lia.
Qed.

Lemma wire_record_cons r rest :
  wire_record r ++ rest =
  byte_of_Z (fail_time r / 256 / 256 / 256)
    :: byte_of_Z (fail_time r / 256 / 256)
    :: byte_of_Z (fail_time r / 256)
    :: byte_of_Z (fail_time r)
    :: byte_of_Z (Z.of_nat (List.length (token r)) / 256)
    :: byte_of_Z (Z.of_nat (List.length (token r)))
    :: (token r ++ rest).
Proof. unfold wire_record. rewrite <- !app_assoc. reflexivity. Qed.

Lemma wire_record_length r :
  List.length (wire_record r) = (6 + List.length (token r))%nat.
Proof.
  unfold wire_record. rewrite !length_app, !big_endian_length. reflexivity.
Qed.

(** The loop on a buffer that starts with a header and holds the whole
    token: the item is yielded and the loop goes on after the record. *)
Lemma drain_header_complete ft (tok rest : bytes) :
  0 <= ft < 4294967296 ->
  0 <= Z.of_nat (List.length tok) < 65536 ->
  tok ++ rest <> [] ->
  FeedbackConnection.drain
    (byte_of_Z (ft / 256 / 256 / 256) :: byte_of_Z (ft / 256 / 256)
       :: byte_of_Z (ft / 256) :: byte_of_Z ft
       :: byte_of_Z (Z.of_nat (List.length tok) / 256)
       :: byte_of_Z (Z.of_nat (List.length tok)) :: (tok ++ rest))
  = ((binascii.b2a_hex tok, datetime.utcfromtimestamp ft)
       :: fst (FeedbackConnection.drain rest),
     snd (FeedbackConnection.drain rest)).
Proof.
  intros Hft Hlen Hne. rewrite drain_eq.
  assert (Hlong : (6 <? List.length
             (byte_of_Z (ft / 256 / 256 / 256) :: byte_of_Z (ft / 256 / 256)
                :: byte_of_Z (ft / 256) :: byte_of_Z ft
                :: byte_of_Z (Z.of_nat (List.length tok) / 256)
                :: byte_of_Z (Z.of_nat (List.length tok)) :: (tok ++ rest)))%nat
             = true).
  { apply Nat.ltb_lt. cbn [List.length].
    destruct (tok ++ rest); [contradiction | cbn [List.length]; lia]. }
  rewrite Hlong.
  unfold slice. cbn [skipn firstn Nat.sub].
  unfold APNs.unpacked_ushort_big_endian, APNs.unpacked_uint_big_endian.
  change [byte_of_Z (Z.of_nat (List.length tok) / 256);
          byte_of_Z (Z.of_nat (List.length tok))]
    with (big_endian 2 (Z.of_nat (List.length tok))).
  rewrite unpack_H_big_endian by assumption.
  rewrite Nat2Z.id.
  replace (6 + List.length tok <=? _)%nat with true
    by (symmetry; apply Nat.leb_le; cbn [List.length];
        rewrite length_app; lia).
  change [byte_of_Z (ft / 256 / 256 / 256); byte_of_Z (ft / 256 / 256);
          byte_of_Z (ft / 256); byte_of_Z ft]
    with (big_endian 4 ft).
  rewrite unpack_I_big_endian by assumption.
  replace (6 + List.length tok - 6)%nat with (List.length tok) by lia.
  change (skipn (6 + List.length tok) ?l)
    with (skipn (List.length tok) (tok ++ rest)).
  rewrite firstn_app, Nat.sub_diag, firstn_all. cbn [firstn].
  rewrite List.app_nil_r.
  rewrite skipn_app, Nat.sub_diag, skipn_all. cbn [skipn app].
  reflexivity.
Qed.

(** The loop on a buffer that holds a header but not yet the whole token:
    nothing is yielded and the buffer is kept. *)
Lemma drain_header_incomplete ft len (body : bytes) :
  0 <= len < 65536 ->
  (List.length body < Z.to_nat len)%nat ->
  FeedbackConnection.drain
    (byte_of_Z (ft / 256 / 256 / 256) :: byte_of_Z (ft / 256 / 256)
       :: byte_of_Z (ft / 256) :: byte_of_Z ft
       :: byte_of_Z (len / 256) :: byte_of_Z len :: body)
  = ([],
     Ok (byte_of_Z (ft / 256 / 256 / 256) :: byte_of_Z (ft / 256 / 256)
           :: byte_of_Z (ft / 256) :: byte_of_Z ft
           :: byte_of_Z (len / 256) :: byte_of_Z len :: body)).
Proof.
  intros Hlen Hshort. rewrite drain_eq.
  destruct (6 <? _)%nat; [| reflexivity].
  unfold slice. cbn [skipn firstn Nat.sub].
  unfold APNs.unpacked_ushort_big_endian.
  change [byte_of_Z (len / 256); byte_of_Z len] with (big_endian 2 len).
  rewrite unpack_H_big_endian by assumption.
  replace (6 + Z.to_nat len <=? _)%nat with false; [reflexivity |].
  symmetry. apply Nat.leb_gt. cbn [List.length]. lia.
Qed.

Lemma drain_short (buff : bytes) :
  (List.length buff <= 6)%nat ->
  FeedbackConnection.drain buff = ([], Ok buff).
Proof.
  intros H. rewrite drain_eq.
  replace (6 <? List.length buff)%nat with false; [reflexivity |].
  symmetry. apply Nat.ltb_ge. assumption.
Qed.

Lemma flat_map_wire_nil recs :
  flat_map wire_record recs = [] -> recs = [].
Proof.
  destruct recs as [|r recs]; [reflexivity |].
  cbn [flat_map]. rewrite wire_record_cons. discriminate.
Qed.

Lemma ends_with_token_app a b :
  ends_with_token (a ++ b) = true -> ends_with_token b = true.
Proof.
  induction a as [|r a IH]; [trivial |].
  intros H. apply IH. simpl in H.
  destruct (a ++ b) eqn:E; [| exact H].
  apply app_eq_nil in E. destruct E as [-> ->]. reflexivity.
Qed.

(** Draining a buffer that is the front of a stream of records: the records
    it holds in full are yielded, in order, and what is left is the front of
    the records that remain; draining what is left yields nothing more. *)
Lemma drain_prefix recs : forall buff rest,
  forallb wf_record recs = true ->
  buff ++ rest = flat_map wire_record recs ->
  exists consumed remaining residual,
    recs = consumed ++ remaining
    /\ FeedbackConnection.drain buff
       = (map item_of_record consumed, Ok residual)
    /\ FeedbackConnection.drain residual = ([], Ok residual)
    /\ residual ++ rest = flat_map wire_record remaining.
Proof.
  induction recs as [|r recs IH]; intros buff rest Hwf Heq.
  - simpl in Heq. apply app_eq_nil in Heq. destruct Heq as [-> ->].
    exists [], [], []. repeat split; apply drain_short; simpl; lia.
  - simpl in Hwf. apply andb_true_iff in Hwf. destruct Hwf as [Hr Hwf].
    destruct (wf_record_bounds r Hr) as [Hft Hlen].
    destruct (Nat.le_gt_cases (List.length buff) 6) as [Hshort | Hlong].
    { exists [], (r :: recs), buff.
      repeat split; try (apply drain_short; assumption). exact Heq. }
    cbn [flat_map] in Heq. rewrite wire_record_cons in Heq.
    destruct buff as [|x1 [|x2 [|x3 [|x4 [|x5 [|x6 body]]]]]];
      simpl in Hlong; try lia.
    simpl in Heq. injection Heq as -> -> -> -> -> -> Hbody.
    destruct (Nat.lt_ge_cases (List.length body) (List.length (token r)))
      as [Hinc | Hall].
    { eexists [], (r :: recs), _.
      split; [reflexivity |].
      split; [| split].
      - apply drain_header_incomplete; [assumption | rewrite Nat2Z.id; lia].
      - apply drain_header_incomplete; [assumption | rewrite Nat2Z.id; lia].
      - cbn [flat_map]. rewrite wire_record_cons. simpl.
        rewrite Hbody. reflexivity. }
    assert (Hsplit : exists buff', body = token r ++ buff'
                                   /\ buff' ++ rest = flat_map wire_record recs).
    { apply app_eq_app in Hbody. destruct Hbody as [l [[H1 H2] | [H1 H2]]].
      - exists l. auto.
      - assert (l = []) as ->.
        { apply (f_equal (@List.length byte)) in H1.
          rewrite length_app in H1. destruct l; [reflexivity | simpl in H1; lia]. }
        exists []. rewrite List.app_nil_r in H1. simpl in H2. subst.
        rewrite List.app_nil_r. auto. }
    destruct Hsplit as (buff' & -> & Hrest).
    destruct (IH buff' rest Hwf Hrest)
      as (consumed & remaining & residual & Hrecs & Hdrain & Hres & Htail).
    exists (r :: consumed), remaining, residual.
    split; [simpl; rewrite Hrecs; reflexivity |].
    split; [| split; assumption].
    rewrite drain_header_complete; try assumption.
    + rewrite Hdrain. reflexivity.
    + intros E. simpl in Hlong. rewrite E in Hlong. simpl in Hlong. lia.
Qed.

(** Draining a whole stream of records yields every record and leaves
    nothing. *)
Lemma drain_all recs :
  forallb wf_record recs = true ->
  ends_with_token recs = true ->
  FeedbackConnection.drain (flat_map wire_record recs)
  = (map item_of_record recs, Ok []).
Proof.
  induction recs as [|r recs IH]; intros Hwf Hend.
  - apply drain_short. simpl. lia.
  - simpl in Hwf. apply andb_true_iff in Hwf. destruct Hwf as [Hr Hwf].
    destruct (wf_record_bounds r Hr) as [Hft Hlen].
    cbn [flat_map]. rewrite wire_record_cons.
    rewrite drain_header_complete; try assumption.
    + rewrite IH; [reflexivity | assumption |].
      simpl in Hend. destruct recs; [reflexivity | exact Hend].
    + simpl in Hend. destruct recs as [|r' recs].
      * destruct (token r); [discriminate | discriminate].
      * cbn [flat_map]. rewrite wire_record_cons.
        intros E. apply app_eq_nil in E. destruct E as [_ E]. discriminate.
Qed.

(** Chunks of at least 6 bytes always leave 6 bytes in the buffer. *)
Lemma keeps_header_long_chunks received : forall buff,
  forallb (fun c : bytes => (6 <=? List.length c)%nat) received = true ->
  keeps_header buff received = true.
Proof.
  induction received as [|c cs IH]; intros buff H; [reflexivity |].
  cbn [forallb] in H. apply andb_true_iff in H. destruct H as [Hc Hcs].
  apply Nat.leb_le in Hc. cbn [keeps_header].
  apply andb_true_intro. split.
  - apply Nat.leb_le. rewrite length_app. lia.
  - destruct (snd (FeedbackConnection.drain (buff ++ c))); [| reflexivity].
    apply IH. exact Hcs.
Qed.

(** The loop, started with a drained buffer that is the front of the
    records still to come, over chunks that may end with an empty one. *)
Lemma items_from_stream cs tail : forall recs buff,
  tail = [] \/ tail = [[]] ->
  forallb wf_record recs = true ->
  ends_with_token recs = true ->
  keeps_header buff cs = true ->
  FeedbackConnection.drain buff = ([], Ok buff) ->
  buff ++ List.concat cs = flat_map wire_record recs ->
  FeedbackConnection.items_from buff (cs ++ tail) None
  = {| yielded := map item_of_record recs; raised := None |}.
Proof.
  induction cs as [|c cs IH]; intros recs buff Htail Hwf Hend Hcs Hdr Heq.
  - simpl in Heq. rewrite List.app_nil_r in Heq.
    pose proof (drain_all recs Hwf Hend) as Hall.
    rewrite <- Heq, Hdr in Hall. injection Hall as Hitems Hbuff.
    rewrite <- Hitems, Hbuff.
    destruct Htail as [-> | ->]; reflexivity.
  - cbn [List.concat] in Heq. rewrite app_assoc in Heq.
    destruct (drain_prefix recs (buff ++ c) (List.concat cs) Hwf Heq)
      as (consumed & remaining & residual & Hrecs & Hdrain & Hres & Htl).
    cbn [keeps_header] in Hcs. rewrite Hdrain in Hcs. cbn [snd] in Hcs.
    apply andb_true_iff in Hcs. destruct Hcs as [Hlen Hcs].
    apply Nat.leb_le in Hlen.
    cbn [app FeedbackConnection.items_from].
    destruct (buff ++ c) as [|x l] eqn:E; [simpl in Hlen; lia |].
    replace (List.length (x :: l) <? 6)%nat with false
      by (symmetry; apply Nat.ltb_ge; exact Hlen).
    rewrite Hdrain.
    subst recs. rewrite forallb_app in Hwf.
    apply andb_true_iff in Hwf. destruct Hwf as [_ Hwf].
    apply ends_with_token_app in Hend.
    rewrite (IH remaining residual Htail Hwf Hend Hcs Hres Htl).
    cbn [yielded raised]. rewrite map_app. reflexivity.
Qed.

(** C3: the code does not do what the claim says. [_chunks] calls
    [self.read(BUF_SIZE)], and [read] takes a callback as well: the call
    raises [TypeError] at the first step of the generator. So [items],
    whatever the feedback server sends and however many turns the
    generators are given, yields no pair and ends with that exception; it
    yields the pairs of no stream that holds a record. *)
Theorem items_raises_type_error (fuel : nat) :
  (exists m,
      FeedbackConnection._chunks (S fuel)
      = {| yielded := []; raised := Some (TypeError m) |}
      /\ FeedbackConnection.items (S fuel)
         = {| yielded := []; raised := Some (TypeError m) |})
  /\ forall (r : feedback_record) (recs : list feedback_record),
       yielded (FeedbackConnection.items (S fuel))
       <> map item_of_record (r :: recs).
Proof.
  split.
  - eexists. split; reflexivity.
  - intros r recs. cbn. discriminate.
Qed.

(** The loop of [items] on the record with fail time 10 and token [99],
    given in one chunk. *)
Example feedback_example :
  FeedbackConnection.items_from [] [[x00; x00; x00; x0a; x00; x01; x99]] None
  = {| yielded :=
         [("99"%string,
           {| datetime.year := 1970; datetime.month := 1; datetime.day := 1;
              datetime.hour := 0; datetime.minute := 0;
              datetime.second := 10 |})];
       raised := None |}.
Proof. reflexivity. Qed.

(** An error response: command 8, status 8, identifier 1. *)
Example receive_response_example :
  GatewayConnection.receive_response [x08; x08; x00; x00; x00; x01]
  = Ok (8, 1).
Proof. reflexivity. Qed.

(** The time of the last item above, as a date. *)
Example utcfromtimestamp_max :
  datetime.utcfromtimestamp 4294967295
  = {| datetime.year := 2106; datetime.month := 2; datetime.day := 7;
       datetime.hour := 6; datetime.minute := 28; datetime.second := 15 |}.
Proof. reflexivity. Qed.

(** ** The connect timeout *)

Lemma invariant_initial t0 : invariant (initial t0).
Proof.
  unfold invariant, initial; simpl.
  repeat split; try (intros; contradiction); discriminate.
Qed.

Lemma disconnect_fields w :
  let w' := APNsConnection._disconnect w in
  _socket (self w') = _socket (self w)
  /\ _connecting (self w') = _connecting (self w)
  /\ _connect_timeout (self w') = _connect_timeout (self w)
  /\ _alive (self w') = false
  /\ timeouts w' = timeouts w
  /\ next_timeout w' = next_timeout w
  /\ next_socket w' = next_socket w
  /\ connects w' = connects w
  /\ called w' = called w
  /\ (forall s, is_closed s w = true -> is_closed s w' = true)
  /\ (forall s, _socket (self w) = Some s -> is_closed s w' = true).
Proof.
  unfold APNsConnection._disconnect. simpl.
  destruct (_socket (self w)) as [s0|] eqn:E; simpl;
    repeat split; try reflexivity;
    intros s H; try discriminate H; try assumption.
  - unfold is_closed in *. simpl. rewrite H. apply orb_true_r.
  - injection H as ->. unfold is_closed. simpl.
    rewrite Nat.eqb_refl. reflexivity.
Qed.

Lemma invariant_disconnect w :
  invariant w -> invariant (APNsConnection._disconnect w).
Proof.
  intros (I0 & I1 & I2 & I3 & I5).
  destruct (disconnect_fields w)
    as (Hs & Hc & Ht & _ & Hto & Hnt & Hns & Hco & Hca & _ & _).
  unfold invariant. rewrite Hs, Hc, Ht, Hto, Hnt, Hns, Hco, Hca.
  exact (conj I0 (conj I1 (conj I2 (conj I3 I5)))).
Qed.

Lemma read_world n cb io w :
  let w' := snd (APNsConnection.read n cb io w) in
  (w' = APNsConnection._disconnect w)
  \/ (self w' = self w /\ timeouts w' = timeouts w
      /\ next_timeout w' = next_timeout w /\ next_socket w' = next_socket w
      /\ connects w' = connects w /\ called w' = called w
      /\ closed w' = closed w).
Proof.
  unfold APNsConnection.read, APNsConnection.stream_read_bytes.
  destruct (_stream (self w)); [destruct io as [e|] |]; simpl.
  - destruct (APNsConnection.caught e); simpl; [left; reflexivity |].
    right. repeat split.
  - right. repeat split.
  - left. reflexivity.
Qed.

Lemma write_world data cb io w :
  let w' := snd (APNsConnection.write data cb io w) in
  (w' = APNsConnection._disconnect w)
  \/ (self w' = self w /\ timeouts w' = timeouts w
      /\ next_timeout w' = next_timeout w /\ next_socket w' = next_socket w
      /\ connects w' = connects w /\ called w' = called w
      /\ closed w' = closed w).
Proof.
  unfold APNsConnection.write, APNsConnection.stream_write.
  destruct (_stream (self w)); [destruct io as [e|] |]; simpl.
  - destruct (APNsConnection.caught e); simpl; [left; reflexivity |].
    right. repeat split.
  - right. repeat split.
  - left. reflexivity.
Qed.

Lemma invariant_same_fields w w' :
  invariant w ->
  self w' = self w -> timeouts w' = timeouts w ->
  next_timeout w' = next_timeout w -> next_socket w' = next_socket w ->
  connects w' = connects w -> called w' = called w ->
  invariant w'.
Proof.
  intros I Hs Ht Hnt Hns Hco Hca. unfold invariant.
  rewrite Hs, Ht, Hnt, Hns, Hco, Hca. exact I.
Qed.

Lemma invariant_connect cb w :
  invariant w -> invariant (APNsConnection.connect cb w).
Proof.
  intros I. unfold APNsConnection.connect.
  destruct (_connecting (self w)) eqn:Ec; simpl; [exact I |].
  destruct I as (I0 & I1 & I2 & I3 & I5).
  - assert (Hno : timeouts w = []).
    { destruct (timeouts w) as [|[h d] tl] eqn:E; [reflexivity |].
      destruct (I1 h d) as [Hc _]; [left; reflexivity |].
      congruence. }
    unfold invariant; simpl. rewrite Hno.
    split; [congruence |].
    split.
    { intros h d [H | []]. injection H as <- _. rewrite I0. auto. }
    split.
    { intros _. exists (next_socket w). split; [reflexivity |].
      intros cb' Hin. apply I3 in Hin. lia. }
    split.
    { intros s cb' Hin. apply I3 in Hin. lia. }
    intros s cb' [H | Hin].
    + injection H as <- _. lia.
    + apply I5 in Hin. lia.
Qed.

Lemma remove_timeout_current w h :
  invariant w ->
  (exists d, In (h, d) (timeouts w)) ->
  timeouts (remove_timeout (Some h) w) = [].
Proof.
  intros (_ & I1 & _) [d Hd]. simpl.
  destruct (I1 h d Hd) as (_ & Hh & _).
  destruct (filter _ (timeouts w)) as [|[h' d'] tl] eqn:E; [reflexivity |].
  exfalso.
  assert (Hin : In (h', d') (filter (fun t : nat * Z => negb (fst t =? h)%nat)
                              (timeouts w)))
    by (rewrite E; left; reflexivity).
  apply filter_In in Hin. destruct Hin as [Hin Hne].
  destruct (I1 h' d' Hin) as (_ & Hh' & _).
  simpl in Hne. rewrite Hh in Hh'. injection Hh' as ->.
  rewrite Nat.eqb_refl in Hne. discriminate.
Qed.

Lemma due_pending h w :
  due h w = true -> exists d, In (h, d) (timeouts w) /\ d <= now w.
Proof.
  unfold due. intros H. apply existsb_exists in H.
  destruct H as [[h' d] [Hin Hc]]. simpl in Hc.
  apply andb_true_iff in Hc. destruct Hc as [Hh Hd].
  apply Nat.eqb_eq in Hh. subst h'. apply Z.leb_le in Hd.
  exists d. auto.
Qed.

Lemma invariant_timeout h w :
  invariant w -> due h w = true ->
  invariant (APNsConnection._connecting_timeout_callback
               (remove_timeout (Some h) w)).
Proof.
  intros I Hdue. apply due_pending in Hdue. destruct Hdue as (d & Hd & _).
  pose proof (remove_timeout_current w h I (ex_intro _ d Hd)) as Hno.
  destruct I as (I0 & I1 & I2 & I3 & I5).
  assert (Ir : invariant (remove_timeout (Some h) w)).
  { unfold invariant. rewrite Hno. simpl.
    split; [exact I0 |].
    split; [intros ? ? [] |].
    split; [exact I2 |]. split; [exact I3 | exact I5]. }
  unfold APNsConnection._connecting_timeout_callback.
  destruct (negb (_alive (self (remove_timeout (Some h) w)))); [| exact Ir].
  apply invariant_disconnect.
  destruct Ir as (J0 & J1 & J2 & J3 & J5).
  unfold invariant; simpl. simpl in Hno. rewrite Hno.
  split; [exact I0 |].
  split; [intros ? ? [] |].
  split; [discriminate |]. split; [exact I3 | exact I5].
Qed.

Lemma invariant_connected s cb w :
  invariant w -> pending_connect s cb w = true ->
  invariant (APNsConnection._on_connected s cb (drop_connect s cb w)).
Proof.
  intros (I0 & I1 & I2 & I3 & I5) Hp.
  assert (Hs : (s < next_socket w)%nat).
  { unfold pending_connect in Hp. apply existsb_exists in Hp.
    destruct Hp as [[s' cb'] [Hin Hc]]. simpl in Hc.
    apply andb_true_iff in Hc. destruct Hc as [Hs _].
    apply Nat.eqb_eq in Hs. subst s'. apply (I5 s cb'). exact Hin. }
  assert (Hno : timeouts
                  (remove_timeout (_connect_timeout (self w)) w) = []).
  { destruct (timeouts w) as [|[h d] tl] eqn:E.
    - simpl. rewrite E. destruct (_connect_timeout (self w)); reflexivity.
    - rewrite <- E in I1.
      destruct (I1 h d) as (_ & Hh & _); [rewrite E; left; reflexivity |].
      rewrite Hh. apply remove_timeout_current.
      + exact (conj I0 (conj I1 (conj I2 (conj I3 I5)))).
      + exists d. rewrite E. left. reflexivity. }
  unfold invariant, APNsConnection._on_connected; simpl. simpl in Hno.
  rewrite Hno.
  split; [exact I0 |].
  split; [intros ? ? [] |].
  split; [discriminate |].
  split.
  - intros s' cb' [H | Hin]; [injection H as <- _; exact Hs |].
    apply (I3 s' cb'); exact Hin.
  - intros s' cb' Hin. apply filter_In in Hin. destruct Hin as [Hin _].
    apply (I5 s' cb'); exact Hin.
Qed.

Lemma invariant_step e w w' :
  invariant w -> step e w = Some w' -> invariant w'.
Proof.
  intros I. destruct e as [cb | n cb io | data cb io | | d | h | s cb];
    simpl; intros H.
  - injection H as <-. apply invariant_connect. exact I.
  - injection H as <-.
    destruct (read_world n cb io w) as [-> | (Hs & Ht & Hnt & Hns & Hco & Hca & _)].
    + apply invariant_disconnect. exact I.
    + apply (invariant_same_fields w); assumption.
  - injection H as <-.
    destruct (write_world data cb io w) as [-> | (Hs & Ht & Hnt & Hns & Hco & Hca & _)].
    + apply invariant_disconnect. exact I.
    + apply (invariant_same_fields w); assumption.
  - injection H as <-. apply invariant_disconnect. exact I.
  - destruct (0 <=? d); [| discriminate]. injection H as <-. exact I.
  - destruct (due h w) eqn:Hdue; [| discriminate]. injection H as <-.
    apply invariant_timeout; assumption.
  - destruct (pending_connect s cb w) eqn:Hp; [| discriminate].
    injection H as <-.
    apply invariant_connected; assumption.
Qed.

Lemma invariant_run evs : forall w w',
  invariant w -> run evs w = Some w' -> invariant w'.
Proof.
  induction evs as [|e evs IH]; intros w w' I H; simpl in H.
  - injection H as <-. exact I.
  - destruct (step e w) as [w1|] eqn:E; [| discriminate].
    apply (IH w1); [apply (invariant_step e w) |]; assumption.
Qed.

Lemma invariant_reachable w : reachable w -> invariant w.
Proof.
  intros (t0 & evs & H).
  apply (invariant_run evs (initial t0)); [apply invariant_initial | exact H].
Qed.

(** [connect] on a connection that is not connecting registers a timeout
    that falls due [TIME_OUT] = 20 units after the call. *)
Lemma connect_registers_timeout cb w :
  _connecting (self w) = false ->
  timeouts (APNsConnection.connect cb w)
  = (next_timeout w, now w + 20) :: timeouts w
  /\ connects (APNsConnection.connect cb w)
     = (next_socket w, cb) :: connects w.
Proof.
  intros H. unfold APNsConnection.connect. rewrite H. split; reflexivity.
Qed.

(** C5: when the connect timer fires and the alive flag is not set, the
    connection ends not alive, with the connecting flag cleared and the
    socket of the attempt closed, and no continuation has run for the
    attempt. But the connect of the stream is still pending: the teardown
    closes the socket and leaves the stream and its pending connect alone.
    When the stream reports the connect later, [_on_connected] runs as
    always: the continuation passed to [connect] is invoked and the
    connection is marked alive, on its closed socket. (The timer is timeout
    [h]; the connect call that registered it opened socket [h].) *)
Theorem timeout_keeps_connect_pending (w w1 : world) (h : nat)
    (cb : callback)
    (Hreach : reachable w)
    (Hfire : step (Timeout_fires h) w = Some w1)
    (Hdead : _alive (self w) = false)
    (Hpend : pending_connect h cb w = true) :
  _alive (self w1) = false
  /\ _connecting (self w1) = false
  /\ _socket (self w1) = Some h
  /\ is_closed h w1 = true
  /\ (forall cb', ~ In (h, cb') (called w1))
  /\ exists w2,
       step (Connect_completes h cb) w1 = Some w2
       /\ _alive (self w2) = true
       /\ _connecting (self w2) = false
       /\ In (h, cb) (called w2)
       /\ is_closed h w2 = true.
Proof.
  apply invariant_reachable in Hreach.
  simpl in Hfire. destruct (due h w) eqn:Hdue; [| discriminate].
  injection Hfire as <-.
  destruct (due_pending h w Hdue) as (d & Hd & _).
  destruct Hreach as (I0 & I1 & I2 & I3 & I5).
  destruct (I1 h d Hd) as (Hc & Ht & Hs).
  destruct (I2 Hc) as (s & Hs' & Hnone).
  rewrite Hs in Hs'. injection Hs' as <-.
  unfold APNsConnection._connecting_timeout_callback.
  change (_alive (self (remove_timeout (Some h) w))) with (_alive (self w)).
  rewrite Hdead. cbn [negb].
  match goal with
  | |- context [APNsConnection._disconnect ?x] => set (w0 := x)
  end.
  assert (Hs0 : _socket (self w0) = Some h) by exact Hs.
  destruct (disconnect_fields w0)
    as (Hso & Hco & _ & Hal & _ & _ & _ & Hcon & Hca & _ & Hcl).
  split; [exact Hal |].
  split; [rewrite Hco; reflexivity |].
  split; [rewrite Hso; exact Hs0 |].
  split; [apply Hcl; exact Hs0 |].
  split; [rewrite Hca; exact Hnone |].
  cbn [step].
  assert (Hp : pending_connect h cb (APNsConnection._disconnect w0) = true).
  { unfold pending_connect. rewrite Hcon. exact Hpend. }
  rewrite Hp. eexists. split; [reflexivity |].
  split; [reflexivity |]. split; [reflexivity |].
  split; [left; reflexivity |].
  apply (Hcl h Hs0).
Qed.

(** A connect on a new connection, 20 time units, the timer, and then the
    completion of the connect. *)
Lemma timeout_keeps_connect_pending_witness :
  exists w w1 w2,
    run [Call_connect 1%nat; Tick 20] (initial 0) = Some w
    /\ step (Timeout_fires 0%nat) w = Some w1
    /\ _alive (self w1) = false
    /\ is_closed 0%nat w1 = true
    /\ step (Connect_completes 0%nat 1%nat) w1 = Some w2
    /\ _alive (self w2) = true
    /\ In (0%nat, 1%nat) (called w2)
    /\ is_closed 0%nat w2 = true.
Proof.
  pose (w := advance 20 (APNsConnection.connect 1%nat (initial 0))).
  assert (Hr : reachable w).
  { exists 0, [Call_connect 1%nat; Tick 20]. reflexivity. }
  destruct (timeout_keeps_connect_pending w _ 0%nat 1%nat Hr
              eq_refl eq_refl eq_refl)
    as (Ha & _ & _ & Hcl & _ & w2 & Hstep & Ha2 & _ & Hin & Hcl2).
  exists w. eexists. exists w2.
  split; [reflexivity |].
  split; [reflexivity |].
  split; [exact Ha |].
  split; [exact Hcl |].
  split; [exact Hstep |].
  split; [exact Ha2 |].
  split; [exact Hin | exact Hcl2].
Defined.

(** ** JSON: integers *)

Lemma to_uint_normal p : normal (Pos.to_uint p).
Proof.
  split; [apply DecimalPos.Unsigned.to_uint_nonnil |].
  intros d' E.
  assert (Hn : Decimal.unorm (Pos.to_uint p) = Pos.to_uint p).
  { rewrite <- (DecimalPos.Unsigned.to_of (Pos.to_uint p)).
    rewrite DecimalPos.Unsigned.of_to. reflexivity. }
  rewrite E in Hn. rewrite DecimalFacts.unorm_D0 in Hn.
  destruct d' as [| | | | | | | | | |]; try reflexivity;
    match goal with
    | H : Decimal.unorm ?u = Decimal.D0 ?u |- _ =>
        assert (Hnz : u <> Decimal.Nil) by discriminate;
        pose proof (DecimalFacts.nb_digits_unorm u Hnz) as Hle;
        rewrite H in Hle; simpl in Hle; lia
    end.
Qed.

Lemma to_int_normal n :
  match Z.to_int n with
  | Decimal.Pos d => normal d
  | Decimal.Neg d => normal d
  end.
Proof.
  destruct n as [|p|p]; simpl.
  - split; [discriminate |]. intros d' E. injection E as <-. reflexivity.
  - apply to_uint_normal.
  - apply to_uint_normal.
Qed.

Lemma digits_of_uint_digits d :
  forallb json.is_digit (json.digits_of_uint d) = true.
Proof. induction d; simpl; auto. Qed.

Lemma uint_of_digits_of_uint d :
  json.uint_of_digits (json.digits_of_uint d) = d.
Proof. induction d; simpl; rewrite ?IHd; reflexivity. Qed.

Lemma span_digits_app ds rest :
  forallb json.is_digit ds = true ->
  match rest with [] => true | c :: _ => negb (json.is_digit c) end = true ->
  json.span_digits (ds ++ rest) = (ds, rest).
Proof.
  intros Hds Hrest. induction ds as [|c ds IH]; simpl.
  - destruct rest as [|c rest]; [reflexivity |]. simpl.
    apply negb_true_iff in Hrest. rewrite Hrest. reflexivity.
  - simpl in Hds. apply andb_true_iff in Hds. destruct Hds as [Hc Hds].
    rewrite Hc, (IH Hds). reflexivity.
Qed.

Lemma delimited_not_digit rest :
  delimited rest = true ->
  match rest with [] => true | c :: _ => negb (json.is_digit c) end = true
  /\ json.starts_fraction rest = false.
Proof.
  destruct rest as [|c rest]; [auto |].
  unfold delimited, json.is_digit, json.starts_fraction,
    json.COMMA, json.RBRACKET, json.RBRACE.
  rewrite !orb_true_iff, !Z.eqb_eq.
  intros [[-> | ->] | ->]; split; reflexivity.
Qed.

Lemma digits_of_normal d :
  normal d ->
  exists c ds,
    json.digits_of_uint d = c :: ds
    /\ json.is_digit c = true
    /\ (c =? 48) && (match ds with [] => false | _ => true end) = false.
Proof.
  intros [Hnil Hzero].
  destruct d as [|d|d|d|d|d|d|d|d|d|d]; try contradiction; simpl;
    eexists _, _; (split; [reflexivity | split; [reflexivity |]]);
    try reflexivity.
  rewrite (Hzero d eq_refl). reflexivity.
Qed.

Lemma scan_digits d (neg : bool) rest :
  normal d -> delimited rest = true ->
  (let (ds, r) := json.span_digits (json.digits_of_uint d ++ rest) in
   match ds with
   | [] => None
   | c0 :: ds' =>
       if (c0 =? 48) && (match ds' with [] => false | _ => true end)
       then None
       else if json.starts_fraction r then None
       else
         let m := json.uint_of_digits ds in
         Some (Z.of_int (if neg then Decimal.Neg m else Decimal.Pos m), r)
   end)
  = Some (Z.of_int (if neg then Decimal.Neg d else Decimal.Pos d), rest).
Proof.
  intros Hn Hd.
  destruct (delimited_not_digit rest Hd) as [Hnd Hnf].
  rewrite span_digits_app by (try apply digits_of_uint_digits; assumption).
  destruct (digits_of_normal d Hn) as (c & ds & E & _ & Hz).
  pose proof (uint_of_digits_of_uint d) as Hu.
  rewrite E in *. rewrite Hz, Hnf, Hu. reflexivity.
Qed.

Lemma scan_int_str_int n rest :
  delimited rest = true ->
  json.scan_int (json.str_int n ++ rest) = Some (n, rest).
Proof.
  intros Hd. unfold json.str_int, json.scan_int.
  pose proof (to_int_normal n) as Hn.
  pose proof (DecimalZ.of_to n) as Hof.
  destruct (Z.to_int n) as [d | d].
  - destruct (digits_of_normal d Hn) as (c & ds & E & Hc & _).
    assert (Hm : (c =? json.MINUS) = false).
    { unfold json.is_digit in Hc. apply andb_true_iff in Hc.
      rewrite Z.leb_le in Hc. apply Z.eqb_neq. unfold json.MINUS. lia. }
    rewrite E. cbn [app]. rewrite Hm.
    change (c :: ds ++ rest) with ((c :: ds) ++ rest). rewrite <- E.
    pose proof (scan_digits d false rest Hn Hd) as H.
    cbv beta iota in H. rewrite Hof in H. exact H.
  - cbn [app]. unfold json.MINUS at 1. rewrite Z.eqb_refl.
    pose proof (scan_digits d true rest Hn Hd) as H.
    cbv beta iota in H. rewrite Hof in H. exact H.
Qed.

(** ** JSON: text *)

Lemma encode_basestring_eq s :
  json.encode_basestring s = json.QUOTE :: escaped s ++ [json.QUOTE].
Proof. reflexivity. Qed.

Lemma scanstring_escape c tl :
  0 <= c -> json.needs_escape c = true ->
  json.scanstring (json.escape c ++ tl)
  = match json.scanstring tl with
    | Some (str, r) => Some (c :: str, r)
    | None => None
    end.
Proof.
  intros H0 Hn. unfold json.needs_escape, json.QUOTE, json.BACKSLASH in Hn.
  rewrite !orb_true_iff, Z.ltb_lt, !Z.eqb_eq in Hn.
  assert (Hc : c = 0 \/ c = 1 \/ c = 2 \/ c = 3 \/ c = 4 \/ c = 5 \/ c = 6
               \/ c = 7 \/ c = 8 \/ c = 9 \/ c = 10 \/ c = 11 \/ c = 12
               \/ c = 13 \/ c = 14 \/ c = 15 \/ c = 16 \/ c = 17 \/ c = 18
               \/ c = 19 \/ c = 20 \/ c = 21 \/ c = 22 \/ c = 23 \/ c = 24
               \/ c = 25 \/ c = 26 \/ c = 27 \/ c = 28 \/ c = 29 \/ c = 30
               \/ c = 31 \/ c = 34 \/ c = 92) by lia.
  repeat (destruct Hc as [-> | Hc]; [reflexivity |]).
  subst c. reflexivity.
Qed.

Lemma scanstring_plain c tl :
  json.needs_escape c = false ->
  json.scanstring (c :: tl)
  = match json.scanstring tl with
    | Some (str, r) => Some (c :: str, r)
    | None => None
    end.
Proof.
  unfold json.needs_escape. rewrite !orb_false_iff.
  intros [[H1 H2] H3]. simpl. rewrite H2, H3, H1. reflexivity.
Qed.

Lemma valid_text_cons c s :
  valid_text (c :: s) = true <-> 0 <= c <= 1114111 /\ valid_text s = true.
Proof.
  unfold valid_text. simpl. rewrite !andb_true_iff, !Z.leb_le. tauto.
Qed.

Lemma scanstring_escaped s rest :
  valid_text s = true ->
  json.scanstring (escaped s ++ json.QUOTE :: rest) = Some (s, rest).
Proof.
  induction s as [|c s IH]; intros Hv.
  - reflexivity.
  - apply valid_text_cons in Hv. destruct Hv as [Hc Hv].
    unfold escaped. cbn [flat_map]. fold (escaped s).
    rewrite <- app_assoc.
    destruct (json.needs_escape c) eqn:E.
    + rewrite scanstring_escape by (try assumption; lia).
      rewrite (IH Hv). reflexivity.
    + cbn [app]. rewrite scanstring_plain by assumption.
      rewrite (IH Hv). reflexivity.
Qed.

(** ** JSON: values *)

(** Induction over an object and, with it, over the items of its lists and
    dictionaries. *)
Lemma value_ind (P : value -> Prop) :
  P PNone ->
  (forall b, P (PBool b)) ->
  (forall n, P (PInt n)) ->
  (forall s, P (PStr s)) ->
  (forall l, Forall P l -> P (PList l)) ->
  (forall l, P (PTuple l)) ->
  (forall d, Forall (fun kv : ustring * value => P (snd kv)) d -> P (PDict d)) ->
  forall v, P v.
Proof.
  intros HN HB HI HS HL HT HD.
  fix IH 1. intros [| b | n | s | l | l | d].
  - exact HN.
  - apply HB.
  - apply HI.
  - apply HS.
  - apply HL. induction l as [|x l IHl]; constructor; [apply IH | exact IHl].
  - apply HT.
  - apply HD. induction d as [|[k x] d IHd]; constructor;
      [apply IH | exact IHd].
Qed.

Lemma skip_ws_head c tl :
  json.is_ws c = false -> json.skip_ws (c :: tl) = c :: tl.
Proof. intros H. simpl. rewrite H. reflexivity. Qed.

Lemma scan_elements_eq f s :
  json.scan_elements (S f) s =
  match json.scan_once f s with
  | None => None
  | Some (v, r) =>
      match json.skip_ws r with
      | [] => None
      | c :: tl =>
          if c =? json.RBRACKET then Some ([v], tl)
          else if c =? json.COMMA then
            match json.scan_elements f (json.skip_ws tl) with
            | Some (vs, r') => Some (v :: vs, r')
            | None => None
            end
          else None
      end
  end.
Proof. reflexivity. Qed.

Lemma scan_members_eq f q tl :
  json.scan_members (S f) (q :: tl) =
  if q =? json.QUOTE then
    match json.scanstring tl with
    | None => None
    | Some (k, r) =>
        match json.skip_ws r with
        | [] => None
        | c :: tl1 =>
            if c =? json.COLON then
              match json.scan_once f (json.skip_ws tl1) with
              | None => None
              | Some (v, r1) =>
                  match json.skip_ws r1 with
                  | [] => None
                  | c1 :: tl2 =>
                      if c1 =? json.RBRACE then Some ([(k, v)], tl2)
                      else if c1 =? json.COMMA then
                        match json.scan_members f (json.skip_ws tl2) with
                        | Some (kvs, r2) => Some ((k, v) :: kvs, r2)
                        | None => None
                        end
                      else None
                  end
              end
            else None
        end
    end
  else None.
Proof. reflexivity. Qed.

Lemma opens_value_facts c :
  opens_value c = true ->
  json.is_ws c = false
  /\ (c =? json.RBRACKET) = false
  /\ (c =? json.RBRACE) = false.
Proof.
  unfold opens_value, json.is_ws, json.is_digit, json.MINUS, json.QUOTE,
    json.LBRACKET, json.LBRACE, json.RBRACKET, json.RBRACE.
  rewrite !orb_true_iff, !andb_true_iff, !Z.eqb_eq, !Z.leb_le.
  intros H. rewrite !orb_false_iff. repeat split; apply Z.eqb_neq; lia.
Qed.

Lemma str_int_head n :
  exists c ds,
    json.str_int n = c :: ds
    /\ (json.is_digit c = true \/ c = json.MINUS).
Proof.
  unfold json.str_int. pose proof (to_int_normal n) as Hn.
  destruct (Z.to_int n) as [d | d].
  - destruct (digits_of_normal d Hn) as (c & ds & E & Hc & _).
    exists c, ds. auto.
  - eexists _, _. split; [reflexivity | right; reflexivity].
Qed.

Lemma dumps_head v :
  exists c tl, json.dumps v = c :: tl /\ opens_value c = true.
Proof.
  destruct v as [| [|] | n | s | l | l | d];
    try (eexists _, _; split; reflexivity).
  destruct (str_int_head n) as (c & ds & E & Hc).
  exists c, ds. split; [exact E |].
  unfold opens_value. destruct Hc as [-> | ->].
  - rewrite !orb_true_r. reflexivity.
  - unfold json.MINUS. reflexivity.
Qed.

Lemma scan_once_number f c tl :
  json.is_digit c = true \/ c = json.MINUS ->
  json.scan_once (S f) (c :: tl)
  = match json.scan_int (c :: tl) with
    | Some (n, r) => Some (PInt n, r)
    | None => None
    end.
Proof.
  intros H.
  assert (Hc : 48 <= c <= 57 \/ c = 45).
  { destruct H as [H | ->]; [| right; reflexivity].
    unfold json.is_digit in H. apply andb_true_iff in H.
    rewrite !Z.leb_le in H. left. lia. }
  cbn [json.scan_once].
  replace (c =? json.QUOTE) with false
    by (symmetry; apply Z.eqb_neq; unfold json.QUOTE; lia).
  replace (c =? json.LBRACE) with false
    by (symmetry; apply Z.eqb_neq; unfold json.LBRACE; lia).
  replace (c =? json.LBRACKET) with false
    by (symmetry; apply Z.eqb_neq; unfold json.LBRACKET; lia).
  change (u "null") with [110; 117; 108; 108].
  change (u "true") with [116; 114; 117; 101].
  change (u "false") with [102; 97; 108; 115; 101].
  cbn [json.strip_prefix].
  replace (110 =? c) with false by (symmetry; apply Z.eqb_neq; lia).
  replace (116 =? c) with false by (symmetry; apply Z.eqb_neq; lia).
  replace (102 =? c) with false by (symmetry; apply Z.eqb_neq; lia).
  reflexivity.
Qed.

Lemma skip_ws_dumps v r :
  json.skip_ws (json.dumps v ++ r) = json.dumps v ++ r.
Proof.
  destruct (dumps_head v) as (c & tl & E & Hc). rewrite E. cbn [app].
  apply skip_ws_head. apply opens_value_facts. exact Hc.
Qed.

Lemma join_cons2 sep (p q : ustring) tl :
  json.join sep (p :: q :: tl) = p ++ sep ++ json.join sep (q :: tl).
Proof. reflexivity. Qed.

Lemma skip_ws_join x l r :
  json.skip_ws (json.join [json.COMMA] (map json.dumps (x :: l)) ++ r)
  = json.join [json.COMMA] (map json.dumps (x :: l)) ++ r.
Proof.
  destruct l as [|y l].
  - apply skip_ws_dumps.
  - cbn [map]. rewrite join_cons2, <- app_assoc. apply skip_ws_dumps.
Qed.

Lemma scan_elements_dumps l :
  Forall reads_back l -> l <> [] ->
  forall fuel rest,
    forallb wf_value l = true ->
    (list_sum (map (fun x => S (size x)) l) <= fuel)%nat ->
    json.scan_elements fuel
      (json.join [json.COMMA] (map json.dumps l) ++ json.RBRACKET :: rest)
    = Some (l, rest).
Proof.
  induction 1 as [|x l Hx Hl IH]; intros Hne fuel rest Hwf Hfuel;
    [contradiction |].
  cbn [forallb] in Hwf. apply andb_true_iff in Hwf. destruct Hwf as [Hwx Hwl].
  cbn [map list_sum fold_right] in Hfuel.
  destruct fuel as [|f]; [lia |].
  rewrite scan_elements_eq.
  destruct l as [|y l'].
  - cbn [map json.join].
    rewrite (Hx f (json.RBRACKET :: rest) Hwx) by (try reflexivity; lia).
    reflexivity.
  - cbn [map]. rewrite join_cons2, <- !app_assoc. cbn [app].
    rewrite (Hx f _ Hwx) by (try reflexivity; lia).
    rewrite skip_ws_head by reflexivity.
    change (json.COMMA =? json.RBRACKET) with false.
    change (json.COMMA =? json.COMMA) with true. cbv iota.
    change (json.dumps y :: map json.dumps l')
      with (map json.dumps (y :: l')).
    rewrite skip_ws_join.
    rewrite IH; [reflexivity | discriminate | exact Hwl |].
    cbn [map list_sum fold_right] in *. lia.
Qed.

Lemma dumps_item_eq k x :
  json.dumps_item (k, x)
  = json.QUOTE :: escaped k ++ json.QUOTE :: json.COLON :: json.dumps x.
Proof.
  unfold json.dumps_item. rewrite encode_basestring_eq.
  cbn [app]. rewrite <- app_assoc. reflexivity.
Qed.

Lemma scan_members_dumps d :
  Forall (fun kv : ustring * value => reads_back (snd kv)) d -> d <> [] ->
  forall fuel rest,
    forallb (fun kv : ustring * value =>
               let (k, x) := kv in valid_text k && wf_value x) d = true ->
    (list_sum (map (fun kv : ustring * value =>
                      let (_, x) := kv in S (size x)) d) <= fuel)%nat ->
    json.scan_members fuel
      (json.join [json.COMMA] (map json.dumps_item d) ++ json.RBRACE :: rest)
    = Some (d, rest).
Proof.
  induction 1 as [|[k x] d Hx Hd IH]; intros Hne fuel rest Hwf Hfuel;
    [contradiction |].
  cbn [forallb] in Hwf. apply andb_true_iff in Hwf. destruct Hwf as [Hwx Hwd].
  apply andb_true_iff in Hwx. destruct Hwx as [Hk Hwx].
  cbn [map list_sum fold_right] in Hfuel. cbn [snd] in Hx.
  destruct fuel as [|f]; [lia |].
  destruct d as [|[k' y] d'].
  - cbn [map json.join]. rewrite dumps_item_eq. cbn [app].
    rewrite scan_members_eq.
    change (json.QUOTE =? json.QUOTE) with true. cbv iota.
    rewrite <- app_assoc. cbn [app].
    rewrite (scanstring_escaped k _ Hk).
    rewrite skip_ws_head by reflexivity.
    change (json.COLON =? json.COLON) with true. cbv iota.
    rewrite skip_ws_dumps.
    rewrite (Hx f (json.RBRACE :: rest) Hwx) by (try reflexivity; lia).
    reflexivity.
  - cbn [map]. rewrite join_cons2, dumps_item_eq. cbn [app].
    rewrite scan_members_eq.
    change (json.QUOTE =? json.QUOTE) with true. cbv iota.
    rewrite <- !app_assoc. cbn [app].
    rewrite (scanstring_escaped k _ Hk).
    rewrite skip_ws_head by reflexivity.
    change (json.COLON =? json.COLON) with true. cbv iota.
    rewrite skip_ws_dumps.
    rewrite (Hx f _ Hwx) by (try reflexivity; lia).
    rewrite skip_ws_head by reflexivity.
    change (json.COMMA =? json.RBRACE) with false.
    change (json.COMMA =? json.COMMA) with true. cbv iota.
    assert (Hskip : forall r,
      json.skip_ws (json.join [json.COMMA]
                      (json.dumps_item (k', y) :: map json.dumps_item d') ++ r)
      = json.join [json.COMMA]
          (json.dumps_item (k', y) :: map json.dumps_item d') ++ r).
    { intros r. destruct d' as [|kv d'']; cbn [map]; rewrite ?join_cons2;
        rewrite dumps_item_eq; reflexivity. }
    rewrite Hskip.
    change (json.dumps_item (k', y) :: map json.dumps_item d')
      with (map json.dumps_item ((k', y) :: d')).
    rewrite IH; [reflexivity | discriminate | exact Hwd |].
    cbn [map list_sum fold_right] in *. lia.
Qed.

Lemma existsb_false_in {A} (f : A -> bool) l x :
  existsb f l = false -> In x l -> f x = false.
Proof.
  intros H Hin. destruct (f x) eqn:E; [| reflexivity].
  assert (existsb f l = true) by (apply existsb_exists; exists x; auto).
  congruence.
Qed.

Lemma dict_set_fresh acc k v :
  existsb (ustring_eqb k) (map fst acc) = false ->
  dict_set acc k v = acc ++ [(k, v)].
Proof.
  induction acc as [|[k0 v0] acc IH]; simpl; intros H; [reflexivity |].
  apply orb_false_iff in H. destruct H as [H1 H2].
  rewrite H1, (IH H2). reflexivity.
Qed.

Lemma dict_update_fresh d : forall acc,
  (forall k, In k (map fst d) ->
             existsb (ustring_eqb k) (map fst acc) = false) ->
  distinct (map fst d) = true ->
  dict_update acc d = acc ++ d.
Proof.
  induction d as [|[k v] d IH]; intros acc Hfresh Hd.
  - simpl. rewrite List.app_nil_r. reflexivity.
  - simpl in Hd. apply andb_true_iff in Hd. destruct Hd as [Hk Hd].
    apply negb_true_iff in Hk.
    change (dict_update acc ((k, v) :: d))
      with (dict_update (dict_set acc k v) d).
    rewrite dict_set_fresh by (apply Hfresh; left; reflexivity).
    rewrite IH.
    + rewrite <- app_assoc. reflexivity.
    + intros k' Hin. rewrite map_app, existsb_app.
      rewrite (Hfresh k') by (right; exact Hin). simpl.
      rewrite orb_false_r, ustring_eqb_sym.
      apply (existsb_false_in _ _ _ Hk Hin).
    + exact Hd.
Qed.

Lemma dict_of_pairs_distinct d :
  distinct (map fst d) = true -> dict_of_pairs d = d.
Proof.
  intros H. unfold dict_of_pairs. rewrite dict_update_fresh; auto.
Qed.

Lemma scan_once_string f tl :
  json.scan_once (S f) (json.QUOTE :: tl)
  = match json.scanstring tl with
    | Some (str, r) => Some (PStr str, r)
    | None => None
    end.
Proof. reflexivity. Qed.

Lemma scan_once_list f tl :
  json.scan_once (S f) (json.LBRACKET :: tl)
  = match json.skip_ws tl with
    | [] => None
    | c' :: tl' =>
        if c' =? json.RBRACKET then Some (PList [], tl')
        else
          match json.scan_elements f (c' :: tl') with
          | Some (vs, r) => Some (PList vs, r)
          | None => None
          end
    end.
Proof. reflexivity. Qed.

Lemma scan_once_dict f tl :
  json.scan_once (S f) (json.LBRACE :: tl)
  = match json.skip_ws tl with
    | [] => None
    | c' :: tl' =>
        if c' =? json.RBRACE then Some (PDict [], tl')
        else
          match json.scan_members f (c' :: tl') with
          | Some (pairs, r) => Some (PDict (dict_of_pairs pairs), r)
          | None => None
          end
    end.
Proof. reflexivity. Qed.

Lemma join_dumps_head x l r :
  exists c tl,
    json.join [json.COMMA] (map json.dumps (x :: l)) ++ r = c :: tl
    /\ opens_value c = true.
Proof.
  destruct (dumps_head x) as (c & tl & E & Hc).
  destruct l as [|y l]; cbn [map]; rewrite ?join_cons2; cbn [json.join];
    rewrite E; eexists _, _; (split; [reflexivity | exact Hc]).
Qed.

Lemma join_items_head k x d r :
  exists tl,
    json.join [json.COMMA] (map json.dumps_item ((k, x) :: d)) ++ r
    = json.QUOTE :: tl.
Proof.
  destruct d as [|kv d]; cbn [map]; rewrite ?join_cons2; cbn [json.join];
    rewrite dumps_item_eq; eexists; reflexivity.
Qed.

(** Scanning what [dumps] wrote gives the object back. *)
Lemma scan_once_dumps v : reads_back v.
Proof.
  induction v as [| b | n | s | l IHl | l | d IHd] using value_ind;
    intros fuel rest Hwf Hsize Hdel;
    (destruct fuel as [|f]; [simpl in Hsize; lia |]).
  - reflexivity.
  - destruct b; reflexivity.
  - destruct (str_int_head n) as (c & ds & E & Hc).
    cbn [json.dumps]. rewrite E. cbn [app].
    rewrite scan_once_number by exact Hc.
    change (c :: ds ++ rest) with ((c :: ds) ++ rest). rewrite <- E.
    rewrite scan_int_str_int by exact Hdel. reflexivity.
  - cbn [json.dumps]. rewrite encode_basestring_eq. cbn [app].
    rewrite scan_once_string, <- app_assoc. cbn [app].
    rewrite scanstring_escaped by exact Hwf. reflexivity.
  - cbn [json.dumps app]. rewrite scan_once_list, <- app_assoc. cbn [app].
    destruct l as [|x l]; [reflexivity |].
    rewrite skip_ws_join.
    destruct (join_dumps_head x l (json.RBRACKET :: rest))
      as (c & tl & E & Hc).
    rewrite E.
    destruct (opens_value_facts c Hc) as (_ & Hrb & _). rewrite Hrb.
    rewrite <- E.
    rewrite scan_elements_dumps;
      [reflexivity | exact IHl | discriminate | exact Hwf |].
    cbn [size] in Hsize. lia.
  - discriminate Hwf.
  - change (json.dumps (PDict d))
      with (json.LBRACE :: json.join [json.COMMA] (map json.dumps_item d)
                             ++ [json.RBRACE]).
    cbn [app]. rewrite scan_once_dict, <- app_assoc. cbn [app].
    cbn [wf_value] in Hwf. apply andb_true_iff in Hwf.
    destruct Hwf as [Hdist Hwf].
    destruct d as [|[k x] d]; [reflexivity |].
    destruct (join_items_head k x d (json.RBRACE :: rest)) as (tl & E).
    rewrite E. rewrite skip_ws_head by reflexivity.
    change (json.QUOTE =? json.RBRACE) with false. cbv iota.
    rewrite <- E.
    rewrite scan_members_dumps;
      [| exact IHd | discriminate | exact Hwf |].
    + rewrite dict_of_pairs_distinct by exact Hdist. reflexivity.
    + cbn [size] in Hsize. lia.
Qed.

(** ** UTF-8 *)

Lemma byte_value z : 0 <= z < 256 -> Z_of_byte (byte_of_Z z) = z.
Proof. intros H. rewrite Z_of_byte_of_Z. apply Z.mod_small. exact H. Qed.

Lemma land_63 x : 0 <= x -> Z.land x 63 = x mod 64.
Proof.
  intros H. change 63 with (Z.ones 6). rewrite Z.land_ones by lia.
  reflexivity.
Qed.

Lemma lor_128 m : 0 <= m < 64 -> Z.lor 128 m = 128 + m.
Proof.
  intros H. change 128 with (2 * 2 ^ 6) at 1.
  rewrite lor_small_add by (change (2 ^ 6) with 64; lia). reflexivity.
Qed.

Lemma lor_192 m : 0 <= m < 32 -> Z.lor 192 m = 192 + m.
Proof.
  intros H. change 192 with (3 * 2 ^ 6) at 1.
  rewrite lor_small_add by (change (2 ^ 6) with 64; lia). reflexivity.
Qed.

Lemma lor_224 m : 0 <= m < 16 -> Z.lor 224 m = 224 + m.
Proof.
  intros H. change 224 with (7 * 2 ^ 5) at 1.
  rewrite lor_small_add by (change (2 ^ 5) with 32; lia). reflexivity.
Qed.

Lemma lor_240 m : 0 <= m < 8 -> Z.lor 240 m = 240 + m.
Proof.
  intros H. change 240 with (15 * 2 ^ 4) at 1.
  rewrite lor_small_add by (change (2 ^ 4) with 16; lia). reflexivity.
Qed.

(** The value of a continuation byte built by the encoder. *)
Lemma cont_byte x :
  0 <= x ->
  utf8.cont (byte_of_Z (Z.lor 128 (Z.land x 63))) = Some (x mod 64).
Proof.
  intros H. rewrite land_63 by exact H.
  assert (Hm : 0 <= x mod 64 < 64) by (apply Z.mod_pos_bound; lia).
  rewrite lor_128 by exact Hm.
  unfold utf8.cont. rewrite byte_value by lia.
  replace ((128 <=? 128 + x mod 64) && (128 + x mod 64 <? 192)) with true
    by (symmetry; apply andb_true_intro; split;
        [apply Z.leb_le | apply Z.ltb_lt]; lia).
  f_equal. lia.
Qed.

Lemma decode_1 b tl :
  Z_of_byte b < 128 ->
  utf8.decode (b :: tl) = option_map (cons (Z_of_byte b)) (utf8.decode tl).
Proof.
  intros H. cbn [utf8.decode].
  replace (Z_of_byte b <? 128) with true by (symmetry; apply Z.ltb_lt; lia).
  reflexivity.
Qed.

Lemma decode_2 b0 b1 tl c1 :
  192 <= Z_of_byte b0 < 224 ->
  utf8.cont b1 = Some c1 ->
  128 <= (Z_of_byte b0 - 192) * 64 + c1 ->
  utf8.decode (b0 :: b1 :: tl)
  = option_map (cons ((Z_of_byte b0 - 192) * 64 + c1)) (utf8.decode tl).
Proof.
  intros H Hc Hmin. cbn [utf8.decode]. rewrite Hc.
  replace (Z_of_byte b0 <? 128) with false by (symmetry; apply Z.ltb_ge; lia).
  replace (Z_of_byte b0 <? 192) with false by (symmetry; apply Z.ltb_ge; lia).
  replace (Z_of_byte b0 <? 224) with true by (symmetry; apply Z.ltb_lt; lia).
  replace (128 <=? (Z_of_byte b0 - 192) * 64 + c1) with true
    by (symmetry; apply Z.leb_le; lia).
  reflexivity.
Qed.

Lemma decode_3 b0 b1 b2 tl c1 c2 :
  224 <= Z_of_byte b0 < 240 ->
  utf8.cont b1 = Some c1 ->
  utf8.cont b2 = Some c2 ->
  2048 <= ((Z_of_byte b0 - 224) * 64 + c1) * 64 + c2 ->
  utf8.decode (b0 :: b1 :: b2 :: tl)
  = option_map (cons (((Z_of_byte b0 - 224) * 64 + c1) * 64 + c2))
      (utf8.decode tl).
Proof.
  intros H Hc1 Hc2 Hmin. cbn [utf8.decode]. rewrite Hc1, Hc2.
  replace (Z_of_byte b0 <? 128) with false by (symmetry; apply Z.ltb_ge; lia).
  replace (Z_of_byte b0 <? 192) with false by (symmetry; apply Z.ltb_ge; lia).
  replace (Z_of_byte b0 <? 224) with false by (symmetry; apply Z.ltb_ge; lia).
  replace (Z_of_byte b0 <? 240) with true by (symmetry; apply Z.ltb_lt; lia).
  replace (2048 <=? ((Z_of_byte b0 - 224) * 64 + c1) * 64 + c2) with true
    by (symmetry; apply Z.leb_le; lia).
  reflexivity.
Qed.

Lemma decode_4 b0 b1 b2 b3 tl c1 c2 c3 :
  240 <= Z_of_byte b0 < 248 ->
  utf8.cont b1 = Some c1 ->
  utf8.cont b2 = Some c2 ->
  utf8.cont b3 = Some c3 ->
  65536 <= (((Z_of_byte b0 - 240) * 64 + c1) * 64 + c2) * 64 + c3 <= 1114111 ->
  utf8.decode (b0 :: b1 :: b2 :: b3 :: tl)
  = option_map (cons ((((Z_of_byte b0 - 240) * 64 + c1) * 64 + c2) * 64 + c3))
      (utf8.decode tl).
Proof.
  intros H Hc1 Hc2 Hc3 Hr. cbn [utf8.decode]. rewrite Hc1, Hc2, Hc3.
  replace (Z_of_byte b0 <? 128) with false by (symmetry; apply Z.ltb_ge; lia).
  replace (Z_of_byte b0 <? 192) with false by (symmetry; apply Z.ltb_ge; lia).
  replace (Z_of_byte b0 <? 224) with false by (symmetry; apply Z.ltb_ge; lia).
  replace (Z_of_byte b0 <? 240) with false by (symmetry; apply Z.ltb_ge; lia).
  replace (Z_of_byte b0 <? 248) with true by (symmetry; apply Z.ltb_lt; lia).
  match goal with
  | |- context [(65536 <=? ?x) && (?x <=? 1114111)] =>
      replace ((65536 <=? x) && (x <=? 1114111)) with true
        by (symmetry; apply andb_true_intro; split; apply Z.leb_le; lia)
  end.
  reflexivity.
Qed.

Lemma decode_encode_codepoint c tl :
  0 <= c <= 1114111 ->
  utf8.decode (utf8.encode_codepoint c ++ tl)
  = option_map (cons c) (utf8.decode tl).
Proof.
  intros Hc. unfold utf8.encode_codepoint.
  destruct (Z.ltb_spec c 128) as [H1 | H1].
  { cbn [app]. rewrite decode_1; rewrite byte_value by lia;
      [reflexivity | lia]. }
  destruct (Z.ltb_spec c 2048) as [H2 | H2].
  { cbn [app]. rewrite Z.shiftr_div_pow2 by lia. change (2 ^ 6) with 64.
    assert (Hq : 2 <= c / 64 < 32) by (Z.to_euclidean_division_equations; lia).
    rewrite (decode_2 _ _ tl (c mod 64)).
    - rewrite lor_192, byte_value by lia. f_equal. f_equal.
      Z.to_euclidean_division_equations; lia.
    - rewrite lor_192, byte_value by lia. lia.
    - apply cont_byte. lia.
    - rewrite lor_192, byte_value by lia.
      Z.to_euclidean_division_equations; lia. }
  destruct (Z.ltb_spec c 65536) as [H3 | H3].
  { cbn [app]. rewrite !Z.shiftr_div_pow2 by lia.
    change (2 ^ 6) with 64. change (2 ^ 12) with 4096.
    assert (Hq : 0 <= c / 4096 < 16) by (Z.to_euclidean_division_equations; lia).
    assert (H64 : 0 <= c / 64) by (Z.to_euclidean_division_equations; lia).
    rewrite (decode_3 _ _ _ tl ((c / 64) mod 64) (c mod 64)).
    - rewrite lor_224, byte_value by lia. f_equal. f_equal.
      Z.to_euclidean_division_equations; lia.
    - rewrite lor_224, byte_value by lia. lia.
    - apply cont_byte. lia.
    - apply cont_byte. lia.
    - rewrite lor_224, byte_value by lia.
      Z.to_euclidean_division_equations; lia. }
  cbn [app]. rewrite !Z.shiftr_div_pow2 by lia.
  change (2 ^ 6) with 64. change (2 ^ 12) with 4096.
  change (2 ^ 18) with 262144.
  assert (Hq : 0 <= c / 262144 < 8) by (Z.to_euclidean_division_equations; lia).
  assert (H64 : 0 <= c / 64) by (Z.to_euclidean_division_equations; lia).
  assert (H4096 : 0 <= c / 4096) by (Z.to_euclidean_division_equations; lia).
  rewrite (decode_4 _ _ _ _ tl ((c / 4096) mod 64) ((c / 64) mod 64) (c mod 64)).
  - rewrite lor_240, byte_value by lia. f_equal. f_equal.
    Z.to_euclidean_division_equations; lia.
  - rewrite lor_240, byte_value by lia. lia.
  - apply cont_byte. lia.
  - apply cont_byte. lia.
  - apply cont_byte. lia.
  - rewrite lor_240, byte_value by lia.
    Z.to_euclidean_division_equations; lia.
Qed.

Lemma utf8_roundtrip s :
  valid_text s = true -> utf8.decode (utf8.encode s) = Some s.
Proof.
  induction s as [|c s IH]; intros Hv; [reflexivity |].
  apply valid_text_cons in Hv. destruct Hv as [Hc Hv].
  unfold utf8.encode. cbn [flat_map]. fold (utf8.encode s).
  rewrite decode_encode_codepoint by exact Hc.
  rewrite (IH Hv). reflexivity.
Qed.

(** ** What [dumps] writes *)

Lemma valid_text_app a b :
  valid_text (a ++ b) = valid_text a && valid_text b.
Proof. unfold valid_text. apply forallb_app. Qed.

Lemma escape_valid c :
  0 <= c -> json.needs_escape c = true -> valid_text (json.escape c) = true.
Proof.
  intros H0 Hn. unfold json.needs_escape, json.QUOTE, json.BACKSLASH in Hn.
  rewrite !orb_true_iff, Z.ltb_lt, !Z.eqb_eq in Hn.
  assert (Hc : c = 0 \/ c = 1 \/ c = 2 \/ c = 3 \/ c = 4 \/ c = 5 \/ c = 6
               \/ c = 7 \/ c = 8 \/ c = 9 \/ c = 10 \/ c = 11 \/ c = 12
               \/ c = 13 \/ c = 14 \/ c = 15 \/ c = 16 \/ c = 17 \/ c = 18
               \/ c = 19 \/ c = 20 \/ c = 21 \/ c = 22 \/ c = 23 \/ c = 24
               \/ c = 25 \/ c = 26 \/ c = 27 \/ c = 28 \/ c = 29 \/ c = 30
               \/ c = 31 \/ c = 34 \/ c = 92) by lia.
  repeat (destruct Hc as [-> | Hc]; [reflexivity |]).
  subst c. reflexivity.
Qed.

Lemma escaped_valid s : valid_text s = true -> valid_text (escaped s) = true.
Proof.
  induction s as [|c s IH]; intros Hv; [reflexivity |].
  apply valid_text_cons in Hv. destruct Hv as [Hc Hv].
  unfold escaped. cbn [flat_map]. fold (escaped s).
  rewrite valid_text_app, (IH Hv), andb_true_r.
  destruct (json.needs_escape c) eqn:E.
  - apply escape_valid; [lia | exact E].
  - apply valid_text_cons. split; [exact Hc | reflexivity].
Qed.

Lemma encode_basestring_valid s :
  valid_text s = true -> valid_text (json.encode_basestring s) = true.
Proof.
  intros Hv. rewrite encode_basestring_eq.
  apply valid_text_cons. split; [unfold json.QUOTE; lia |].
  rewrite valid_text_app, escaped_valid by exact Hv. reflexivity.
Qed.

Lemma digits_valid d : valid_text (json.digits_of_uint d) = true.
Proof. induction d; simpl; auto. Qed.

Lemma str_int_valid n : valid_text (json.str_int n) = true.
Proof.
  unfold json.str_int. destruct (Z.to_int n).
  - apply digits_valid.
  - apply valid_text_cons. split; [unfold json.MINUS; lia | apply digits_valid].
Qed.

Lemma join_valid parts :
  Forall (fun p => valid_text p = true) parts ->
  valid_text (json.join [json.COMMA] parts) = true.
Proof.
  induction 1 as [|p parts Hp Hps IH]; [reflexivity |].
  destruct parts as [|q parts]; [exact Hp |].
  rewrite join_cons2, !valid_text_app, Hp, IH. reflexivity.
Qed.

Lemma dumps_valid v : wf_value v = true -> valid_text (json.dumps v) = true.
Proof.
  induction v as [| b | n | s | l IHl | l | d IHd] using value_ind; intros Hwf.
  - reflexivity.
  - destruct b; reflexivity.
  - apply str_int_valid.
  - apply encode_basestring_valid. exact Hwf.
  - cbn [json.dumps]. apply valid_text_cons.
    split; [unfold json.LBRACKET; lia |].
    rewrite valid_text_app, andb_true_r.
    apply join_valid. cbn [wf_value] in Hwf.
    induction IHl as [|x l Hx Hl IH]; [constructor |].
    cbn [forallb] in Hwf. apply andb_true_iff in Hwf.
    destruct Hwf as [Hwx Hwl].
    cbn [map]. constructor; [apply Hx; exact Hwx | apply IH; exact Hwl].
  - discriminate Hwf.
  - change (json.dumps (PDict d))
      with (json.LBRACE :: json.join [json.COMMA] (map json.dumps_item d)
                             ++ [json.RBRACE]).
    apply valid_text_cons. split; [unfold json.LBRACE; lia |].
    rewrite valid_text_app, andb_true_r.
    apply join_valid. cbn [wf_value] in Hwf.
    apply andb_true_iff in Hwf. destruct Hwf as [_ Hwf].
    induction IHd as [|[k x] d Hx Hd IH]; [constructor |].
    cbn [forallb] in Hwf. apply andb_true_iff in Hwf.
    destruct Hwf as [Hwx Hwd].
    apply andb_true_iff in Hwx. destruct Hwx as [Hk Hwx].
    cbn [map]. constructor; [| apply IH; exact Hwd].
    unfold json.dumps_item.
    rewrite valid_text_app, encode_basestring_valid by exact Hk.
    apply valid_text_cons. split; [unfold json.COLON; lia |].
    apply Hx. exact Hwx.
Qed.

Lemma join_length_bound (parts : list ustring) (weights : list nat) :
  Forall2 (fun p w => (w <= List.length p)%nat) parts weights ->
  (list_sum (map S weights)
   <= List.length (json.join [json.COMMA] parts) + 1)%nat.
Proof.
  induction 1 as [|p w parts weights Hp Hps IH]; [simpl; lia |].
  destruct parts as [|q parts].
  - inversion Hps; subst. simpl. lia.
  - rewrite join_cons2, !length_app.
    cbn [map list_sum fold_right List.length].
    change (fold_right Init.Nat.add 0%nat (map S weights))
      with (list_sum (map S weights)).
    unfold ustring in *. lia.
Qed.

(** The text of an object is at least as long as the fuel that reading it
    back needs. *)
Lemma size_le_length v : (size v <= List.length (json.dumps v))%nat.
Proof.
  induction v as [| b | n | s | l IHl | l | d IHd] using value_ind.
  - simpl. lia.
  - destruct b; simpl; lia.
  - destruct (str_int_head n) as (c & ds & E & _).
    cbn [json.dumps size]. rewrite E. simpl. lia.
  - cbn [json.dumps size]. rewrite encode_basestring_eq. simpl. lia.
  - cbn [json.dumps size List.length]. rewrite length_app. cbn [List.length].
    assert (H : (list_sum (map (fun x => S (size x)) l)
                 <= List.length (json.join [json.COMMA] (map json.dumps l)) + 1)%nat).
    { rewrite <- (map_map size S).
      apply join_length_bound.
      induction IHl as [|x l Hx Hl IH]; constructor; assumption. }
    lia.
  - cbn [json.dumps size List.length]. lia.
  - change (json.dumps (PDict d))
      with (json.LBRACE :: json.join [json.COMMA] (map json.dumps_item d)
                             ++ [json.RBRACE]).
    cbn [size List.length]. rewrite length_app. cbn [List.length].
    assert (H : (list_sum (map (fun kv : ustring * value =>
                                  let (_, x) := kv in S (size x)) d)
                 <= List.length
                      (json.join [json.COMMA] (map json.dumps_item d)) + 1)%nat).
    { replace (map (fun kv : ustring * value => let (_, x) := kv in S (size x)) d)
        with (map S (map (fun kv : ustring * value => size (snd kv)) d))
        by (rewrite map_map; apply map_ext; intros [k x]; reflexivity).
      apply join_length_bound.
      induction IHd as [|[k x] d Hx Hd IH]; constructor; [| exact IH].
      cbn [snd] in *. rewrite dumps_item_eq. cbn [List.length].
      rewrite length_app. cbn [List.length]. lia. }
    lia.
Qed.

(** Parsing the bytes of a serialized object gives the object back. *)
Lemma loads_dumps v :
  wf_value v = true ->
  json.loads (utf8.encode (json.dumps v)) = Some v.
Proof.
  intros Hwf. unfold json.loads.
  rewrite utf8_roundtrip by (apply dumps_valid; exact Hwf).
  assert (Hs : json.skip_ws (json.dumps v) = json.dumps v).
  { pose proof (skip_ws_dumps v []) as H.
    rewrite List.app_nil_r in H. exact H. }
  assert (Hscan : json.scan_once (List.length (json.dumps v)) (json.dumps v)
                  = Some (v, [])).
  { pose proof (scan_once_dumps v (List.length (json.dumps v)) [] Hwf
                  (size_le_length v) eq_refl) as H.
    rewrite List.app_nil_r in H. exact H. }
  rewrite Hs, Hscan. reflexivity.
Qed.

(** ** The dictionary of a payload is well formed *)

Lemma existsb_keys_dict_set a d k v :
  existsb (ustring_eqb a) (map fst (dict_set d k v))
  = existsb (ustring_eqb a) (map fst d) || ustring_eqb a k.
Proof.
  induction d as [|[k0 v0] d IH]; simpl.
  - rewrite orb_false_r. reflexivity.
  - destruct (ustring_eqb k k0) eqn:E; simpl.
    + apply ustring_eqb_eq in E. subst k0.
      destruct (ustring_eqb a k), (existsb (ustring_eqb a) (map fst d));
        reflexivity.
    + rewrite IH. rewrite orb_assoc. reflexivity.
Qed.

Lemma wf_dict_set d k v :
  wf_value (PDict d) = true -> valid_text k = true -> wf_value v = true ->
  wf_value (PDict (dict_set d k v)) = true.
Proof.
  intros Hd Hk Hv. induction d as [|[k0 v0] d IH].
  - simpl. rewrite Hk, Hv. reflexivity.
  - cbn [wf_value map fst distinct forallb] in Hd.
    rewrite !andb_true_iff in Hd.
    destruct Hd as [[Hfresh Hdist] [[Hk0 Hv0] Hrest]].
    assert (Htl : wf_value (PDict d) = true).
    { cbn [wf_value]. rewrite Hdist, Hrest. reflexivity. }
    specialize (IH Htl). cbn [wf_value] in IH.
    apply andb_true_iff in IH. destruct IH as [IH1 IH2].
    cbn [dict_set]. destruct (ustring_eqb k k0) eqn:E.
    + apply ustring_eqb_eq in E. subst k0.
      cbn [wf_value map fst distinct forallb].
      rewrite Hfresh, Hdist, Hk, Hv, Hrest. reflexivity.
    + cbn [wf_value map fst distinct forallb].
      rewrite existsb_keys_dict_set.
      apply negb_true_iff in Hfresh. rewrite Hfresh.
      rewrite ustring_eqb_sym, E. cbn [orb negb andb].
      rewrite IH1, Hk0, Hv0, IH2. reflexivity.
Qed.

Lemma wf_cond_set d k x (c : bool) :
  wf_value (PDict d) = true -> valid_text k = true -> wf_value x = true ->
  wf_value (PDict (if c then dict_set d k x else d)) = true.
Proof.
  intros Hd Hk Hx. destruct c; [apply wf_dict_set; assumption | exact Hd].
Qed.

Lemma wf_dict_update other : forall d,
  wf_value (PDict d) = true ->
  forallb (fun kv : ustring * value =>
             let (k, x) := kv in valid_text k && wf_value x) other = true ->
  wf_value (PDict (dict_update d other)) = true.
Proof.
  induction other as [|[k v] other IH]; intros d Hd Ho; [exact Hd |].
  cbn [forallb] in Ho. rewrite !andb_true_iff in Ho.
  destruct Ho as [[Hk Hv] Ho].
  change (dict_update d ((k, v) :: other))
    with (dict_update (dict_set d k v) other).
  apply IH; [apply wf_dict_set; assumption | exact Ho].
Qed.

Lemma wf_obj_of_text o :
  wf_opt_text o = true -> wf_value (obj_of_text o) = true.
Proof. destruct o; auto. Qed.

Lemma wf_obj_of_texts o :
  match o with None => true | Some l => forallb valid_text l end = true ->
  wf_value (obj_of_texts o) = true.
Proof.
  destruct o as [l|]; [| auto]. intros H. cbn [obj_of_texts wf_value].
  induction l as [|x l IH]; [reflexivity |].
  cbn [forallb map] in *. apply andb_true_iff in H. destruct H as [Hx Hl].
  cbn [wf_value]. rewrite Hx, (IH Hl). reflexivity.
Qed.

Lemma wf_alert_dict a :
  wf_alert a = true -> wf_value (PDict (PayloadAlert.dict a)) = true.
Proof.
  unfold wf_alert. rewrite !andb_true_iff.
  intros [[[[Hb Hak] Hlk] Hla] Hli].
  unfold PayloadAlert.dict. cbv zeta.
  apply wf_cond_set; [| reflexivity | apply wf_obj_of_text; exact Hli].
  apply wf_cond_set; [| reflexivity | apply wf_obj_of_texts; exact Hla].
  apply wf_cond_set; [| reflexivity | apply wf_obj_of_text; exact Hlk].
  apply wf_cond_set; [| reflexivity | apply wf_obj_of_text; exact Hak].
  cbn [wf_value map fst distinct forallb existsb].
  rewrite Hb. reflexivity.
Qed.

Lemma wf_payload_dict p :
  wf_payload p = true -> wf_value (PDict (Payload.dict p)) = true.
Proof.
  unfold wf_payload. rewrite !andb_true_iff.
  intros [[Ha Hs] Hc].
  cbn [wf_value] in Hc. apply andb_true_iff in Hc. destruct Hc as [_ Hc].
  unfold Payload.dict. cbv zeta.
  apply wf_dict_update; [| exact Hc].
  assert (Haps : forall d, wf_value (PDict d) = true ->
                           wf_value (PDict [(u "aps", PDict d)]) = true).
  { intros d Hd.
    change [(u "aps", PDict d)] with (dict_set [] (u "aps") (PDict d)).
    apply wf_dict_set; [reflexivity | reflexivity | exact Hd]. }
  apply Haps.
  assert (Hsound : forall d, wf_value (PDict d) = true ->
            wf_value (PDict (if truthy (obj_of_text (Payload.sound p))
                             then dict_set d (u "sound")
                                    (obj_of_text (Payload.sound p))
                             else d)) = true).
  { intros d Hd. apply wf_cond_set;
      [exact Hd | reflexivity | apply wf_obj_of_text; exact Hs]. }
  destruct (Payload.badge p) as [n|].
  - apply wf_dict_set; [| reflexivity | reflexivity].
    apply Hsound.
    destruct (Payload.alert p) as [[s | a]|]; cbn [Payload.alert_truthy].
    + apply wf_cond_set; [reflexivity | reflexivity | exact Ha].
    + apply wf_dict_set; [reflexivity | reflexivity |].
      apply wf_alert_dict. exact Ha.
    + reflexivity.
  - apply Hsound.
    destruct (Payload.alert p) as [[s | a]|]; cbn [Payload.alert_truthy].
    + apply wf_cond_set; [reflexivity | reflexivity | exact Ha].
    + apply wf_dict_set; [reflexivity | reflexivity |].
      apply wf_alert_dict. exact Ha.
    + reflexivity.
Qed.

Lemma payload_dict_lookup alert badge sound custom :
  let p := {| Payload.alert := alert; Payload.badge := badge;
              Payload.sound := sound; Payload.custom := custom |} in
  distinct (map fst custom) = true ->
  (forall k, ustring_eqb k (u "aps") = false ->
             dict_get (Payload.dict p) k = dict_get custom k)
  /\ (forall v, dict_get custom (u "aps") = Some v ->
                dict_get (Payload.dict p) (u "aps") = Some v)
  /\ (dict_get custom (u "aps") = None ->
      exists aps,
        dict_get (Payload.dict p) (u "aps") = Some (PDict aps)
        /\ dict_get aps (u "alert") =
             match alert with
             | Some (Payload.AlertText (c :: s)) => Some (PStr (c :: s))
             | Some (Payload.AlertObject o) =>
                 Some (PDict (PayloadAlert.dict o))
             | Some (Payload.AlertText []) => None
             | None => None
             end
        /\ dict_get aps (u "sound") =
             match sound with
             | Some (c :: s) => Some (PStr (c :: s))
             | Some [] => None
             | None => None
             end
        /\ dict_get aps (u "badge") = option_map PInt badge
        /\ forall k,
             ustring_eqb k (u "alert") = false ->
             ustring_eqb k (u "sound") = false ->
             ustring_eqb k (u "badge") = false ->
             dict_get aps k = None).
Proof.
  intros p Hd. split; [| split].
  - intros k Hk. unfold Payload.dict.
    destruct (dict_get custom k) as [x|] eqn:E.
    + apply dict_get_update_present; assumption.
    + rewrite dict_get_update_absent by exact E.
      cbn [dict_get]. rewrite Hk. reflexivity.
  - intros v Hv. unfold Payload.dict.
    apply dict_get_update_present; assumption.
  - intros Hc. eexists. split.
    + unfold Payload.dict. rewrite dict_get_update_absent by exact Hc.
      reflexivity.
    + subst p. cbn [Payload.alert Payload.badge Payload.sound].
      destruct alert as [[[|c s]|o]|], sound as [[|c' s']|], badge as [n|];
        (split; [reflexivity |]); (split; [reflexivity |]);
        (split; [reflexivity |]);
        intros k H1 H2 H3; cbn -[dict_set dict_get u];
        rewrite ?dict_get_set_other by assumption; reflexivity.
Qed.






(** * Further properties *)

(** ** The feedback generator on any input *)

Lemma drain_total n : forall buff,
  (List.length buff <= n)%nat ->
  exists ys buff', FeedbackConnection.drain buff = (ys, Ok buff').
Proof.
  induction n as [|n IH]; intros buff Hn.
  - exists [], buff. apply drain_short. lia.
  - destruct (Nat.le_gt_cases (List.length buff) 6) as [Hs | Hl].
    { exists [], buff. apply drain_short. exact Hs. }
    destruct buff as [|x1 [|x2 [|x3 [|x4 [|x5 [|x6 [|x7 body]]]]]]];
      simpl in Hl; try lia.
    rewrite drain_eq.
    replace (6 <? List.length
               (x1 :: x2 :: x3 :: x4 :: x5 :: x6 :: x7 :: body))%nat
      with true by (symmetry; apply Nat.ltb_lt; simpl; lia).
    unfold slice. cbn [skipn firstn Nat.sub].
    unfold APNs.unpacked_ushort_big_endian, APNs.unpacked_uint_big_endian,
      struct.unpack_H, struct.unpack_I.
    destruct (_ <=? _)%nat; [| eexists _, _; reflexivity].
    cbv zeta.
    match goal with
    | |- context [FeedbackConnection.drain (skipn ?k ?l)] =>
        destruct (IH (skipn k l)) as (ys & b' & E)
    end.
    + rewrite length_skipn. cbn [List.length] in *. lia.
    + rewrite E. eexists _, _. reflexivity.
Qed.

Lemma items_from_raises chunks stop : forall buff,
  (raised (FeedbackConnection.items_from buff chunks stop) = None
   \/ raised (FeedbackConnection.items_from buff chunks stop) = stop)
  /\ yielded (FeedbackConnection.items_from buff chunks stop)
     = yielded (FeedbackConnection.items_from buff chunks None).
Proof.
  induction chunks as [|c cs IH]; intros buff;
    [split; [right |]; reflexivity |].
  cbn [FeedbackConnection.items_from].
  destruct (buff ++ c) as [|x l] eqn:E; [split; [left |]; reflexivity |].
  destruct (_ <? 6)%nat; [split; [left |]; reflexivity |].
  destruct (drain_total _ (x :: l) (Nat.le_refl _)) as (ys & b' & Hd).
  rewrite Hd. cbn [raised yielded].
  destruct (IH b') as [Hr Hy]. split; [exact Hr | rewrite Hy; reflexivity].
Qed.

(** X1: the loop of [items] raises nothing of its own. Run from any buffer
    over any chunks of any bytes, it returns, or it ends with the exception
    with which its chunk generator ended: no read of a length or a time
    stamp in the loop can fail. What it yields does not depend on how the
    generator ends. (In this file the generator is [_chunks], which raises
    before its first chunk.) *)
Theorem items_loop_raises_nothing (buff : bytes) (chunks : list bytes)
    (stop : option exn) :
  (raised (FeedbackConnection.items_from buff chunks stop) = None
   \/ raised (FeedbackConnection.items_from buff chunks stop) = stop)
  /\ yielded (FeedbackConnection.items_from buff chunks stop)
     = yielded (FeedbackConnection.items_from buff chunks None).
Proof. apply items_from_raises. Qed.

Lemma items_from_prefix chunks : forall recs buff rest,
  forallb wf_record recs = true ->
  buff ++ List.concat chunks ++ rest = flat_map wire_record recs ->
  exists consumed remaining,
    recs = consumed ++ remaining
    /\ FeedbackConnection.items_from buff chunks None
       = {| yielded := map item_of_record consumed; raised := None |}.
Proof.
  induction chunks as [|c cs IH]; intros recs buff rest Hwf Heq.
  - exists [], recs. split; reflexivity.
  - cbn [FeedbackConnection.items_from].
    destruct (buff ++ c) as [|x l] eqn:E;
      [exists [], recs; split; reflexivity |].
    destruct (_ <? 6)%nat; [exists [], recs; split; reflexivity |].
    cbn [List.concat] in Heq.
    rewrite <- app_assoc, app_assoc, E in Heq.
    destruct (drain_prefix recs (x :: l) (List.concat cs ++ rest) Hwf Heq)
      as (consumed & remaining & residual & Hrecs & Hdrain & _ & Htail).
    rewrite Hdrain.
    subst recs. rewrite forallb_app in Hwf.
    apply andb_true_iff in Hwf. destruct Hwf as [_ Hwf].
    destruct (IH remaining residual rest Hwf Htail)
      as (consumed' & remaining' & Hrem & Hitems).
    exists (consumed ++ consumed'), remaining'.
    split; [rewrite Hrem, app_assoc; reflexivity |].
    rewrite Hitems. cbn [yielded raised]. rewrite map_app. reflexivity.
Qed.

(** X2: the loop of [items], given chunks that concatenate to a stream of
    well-formed records, however the stream is cut into them, yields the
    items of a front part of the records, in stream order: it may stop
    early, but it never yields a wrong item, never skips one and never
    yields one twice. *)
Theorem items_yield_prefix (recs : list feedback_record)
    (chunks : list bytes) (stop : option exn)
    (Hwf : forallb wf_record recs = true)
    (Hstream : List.concat chunks = flat_map wire_record recs) :
  exists consumed remaining,
    recs = consumed ++ remaining
    /\ yielded (FeedbackConnection.items_from [] chunks stop)
       = map item_of_record consumed.
Proof.
  destruct (items_from_prefix chunks recs [] [] Hwf)
    as (consumed & remaining & Hrecs & Hitems).
  { cbn [app]. rewrite List.app_nil_r. exact Hstream. }
  exists consumed, remaining. split; [exact Hrecs |].
  rewrite (proj2 (items_from_raises chunks stop [])), Hitems. reflexivity.
Qed.

Lemma items_yield_prefix_witness :
  let recs := [ {| fail_time := 10; token := [xab; xcd] |};
                {| fail_time := 11; token := [x01] |} ] in
  let chunks := [ [x00; x00; x00; x0a; x00; x02; xab; xcd; x00];
                  [x00; x00];
                  [x0b; x00; x01; x01] ] in
  forallb wf_record recs = true
  /\ List.concat chunks = flat_map wire_record recs
  /\ yielded (FeedbackConnection.items_from [] chunks None)
     = [("abcd"%string, datetime.utcfromtimestamp 10)]
  /\ exists consumed remaining,
       recs = consumed ++ remaining
       /\ yielded (FeedbackConnection.items_from [] chunks None)
          = map item_of_record consumed.
Proof.
  intros recs chunks.
  split; [reflexivity | split; [reflexivity | split; [reflexivity |]]].
  exact (items_yield_prefix recs chunks None eq_refl eq_refl).
Defined.



(** ** Tokens *)

(** A property of the sixteen digit values is checked on each of them. *)
Lemma below_16 (P : Z -> Prop) :
  (forall k, (k < 16)%nat -> P (Z.of_nat k)) ->
  forall n, 0 <= n < 16 -> P n.
Proof.
  intros H n Hn. rewrite <- (Z2Nat.id n) by lia. apply H. lia.
Qed.

Lemma to_int_hexdigit n :
  0 <= n < 16 -> binascii.to_int (binascii.hexdigit n) = Some n.
Proof.
  revert n. apply below_16. intros k Hk.
  do 16 (destruct k as [|k]; [reflexivity |]). lia.
Qed.

Lemma b2a_hex_length data :
  String.length (binascii.b2a_hex data) = (2 * List.length data)%nat.
Proof.
  induction data as [|b data IH]; [reflexivity |].
  cbn [binascii.b2a_hex String.length List.length]. rewrite IH. lia.
Qed.

Lemma odd_double n : Nat.odd (2 * n) = false.
Proof.
  rewrite odd_negb_even, Nat.even_mul. reflexivity.
Qed.

Lemma a2b_b2a_hex data :
  binascii.a2b_hex (binascii.b2a_hex data) = Ok data.
Proof.
  unfold binascii.a2b_hex. rewrite b2a_hex_length, odd_double.
  induction data as [|b data IH]; [reflexivity |].
  cbn [binascii.b2a_hex binascii.unhex_pairs].
  pose proof (Z_of_byte_range b) as Hb.
  assert (Hq : 0 <= Z_of_byte b / 16 < 16)
    by (Z.to_euclidean_division_equations; lia).
  assert (Hr : 0 <= Z_of_byte b mod 16 < 16)
    by (apply Z.mod_pos_bound; lia).
  rewrite !to_int_hexdigit by assumption. rewrite IH. cbn [bind].
  replace (16 * (Z_of_byte b / 16) + Z_of_byte b mod 16) with (Z_of_byte b)
    by (Z.to_euclidean_division_equations; lia).
  rewrite byte_of_Z_of_byte. reflexivity.
Qed.

(** The frame [_get_notification] builds once the token is decoded. *)
Lemma get_notification_frame identifier expiry token_hex payload token_bin :
  binascii.a2b_hex token_hex = Ok token_bin ->
  0 <= identifier < 2 ^ 32 ->
  0 <= expiry < 2 ^ 32 ->
  Z.of_nat (List.length token_bin) <= 65535 ->
  Z.of_nat (List.length (Payload.json payload)) <= 65535 ->
  GatewayConnection._get_notification identifier expiry token_hex payload
  = Ok (frame_of identifier expiry token_bin (Payload.json payload)).
Proof.
  intros Ha Hid Hex Ht Hp.
  change (2 ^ 32) with 4294967296 in *.
  unfold GatewayConnection._get_notification,
    APNs.packed_ushort_big_endian, APNs.packed_uint_big_endian.
  rewrite Ha. cbn [bind].
  rewrite (pack_H_big_endian (Z.of_nat (List.length token_bin))) by lia.
  cbn [bind]. rewrite (pack_I_big_endian identifier) by lia.
  cbn [bind]. rewrite (pack_I_big_endian expiry) by lia.
  cbn [bind].
  rewrite (pack_H_big_endian (Z.of_nat (List.length (Payload.json payload))))
    by lia.
  reflexivity.
Qed.

(** X4: a token that [items] reports (the hexadecimal text of the token
    bytes) is accepted by [_get_notification] and decodes to the same bytes:
    the frame built for it carries exactly the token of the feedback
    record. *)
Theorem feedback_token_is_sendable (identifier expiry : Z)
    (payload : Payload.t) (r : feedback_record)
    (Hr : wf_record r = true)
    (Hid : 0 <= identifier < 2 ^ 32)
    (Hex : 0 <= expiry < 2 ^ 32)
    (Hp : Z.of_nat (List.length (Payload.json payload)) <= 65535) :
  binascii.a2b_hex (fst (item_of_record r)) = Ok (token r)
  /\ GatewayConnection._get_notification identifier expiry
       (fst (item_of_record r)) payload
     = Ok (frame_of identifier expiry (token r) (Payload.json payload)).
Proof.
  destruct (wf_record_bounds r Hr) as [_ Hlen].
  split; [apply a2b_b2a_hex |].
  apply get_notification_frame; try assumption; try lia.
  apply a2b_b2a_hex.
Qed.

Lemma feedback_token_is_sendable_witness :
  let r := {| fail_time := 10; token := [xa1; xb2; xc3; xd4] |} in
  wf_record r = true
  /\ fst (item_of_record r) = "a1b2c3d4"%string
  /\ GatewayConnection._get_notification 1 0 (fst (item_of_record r))
       hi_payload
     = Ok (frame_of 1 0 [xa1; xb2; xc3; xd4] (Payload.json hi_payload)).
Proof.
  intros r. split; [reflexivity | split; [reflexivity |]].
  assert (H1 : 0 <= 1 < 2 ^ 32) by (change (2 ^ 32) with 4294967296; lia).
  assert (H0 : 0 <= 0 < 2 ^ 32) by (change (2 ^ 32) with 4294967296; lia).
  assert (Hp : Z.of_nat (List.length (Payload.json hi_payload)) <= 65535)
    by (change (Payload.json hi_payload) with hi_json; simpl; lia).
  exact (proj2 (feedback_token_is_sendable 1 0 hi_payload r eq_refl H1 H0 Hp)).
Defined.

Lemma to_int_lower c :
  binascii.to_int (ascii_lower c) = binascii.to_int c.
Proof. destruct c as [[] [] [] [] [] [] [] []]; reflexivity. Qed.

Lemma lower_length s : String.length (lower s) = String.length s.
Proof. induction s as [|c s IH]; simpl; [| rewrite IH]; reflexivity. Qed.

Lemma unhex_pairs_lower s :
  binascii.unhex_pairs (lower s) = binascii.unhex_pairs s.
Proof.
  induction s as [| c | c1 c2 s IH] using string_pairs_ind;
    try reflexivity.
  cbn [lower binascii.unhex_pairs]. rewrite !to_int_lower, IH. reflexivity.
Qed.

Lemma a2b_hex_lower s : binascii.a2b_hex (lower s) = binascii.a2b_hex s.
Proof.
  unfold binascii.a2b_hex. rewrite lower_length, unhex_pairs_lower.
  reflexivity.
Qed.



Lemma unhex_pairs_not_hex s :
  Nat.even (String.length s) = true ->
  hexadecimal s = false ->
  binascii.unhex_pairs s = Raise (TypeError "Non-hexadecimal digit found").
Proof.
  induction s as [| c | c1 c2 s IH] using string_pairs_ind; intros He Hh.
  - discriminate Hh.
  - discriminate He.
  - cbn [binascii.unhex_pairs]. cbn [hexadecimal] in Hh.
    destruct (binascii.to_int c1); [| reflexivity].
    destruct (binascii.to_int c2); [| reflexivity].
    rewrite (IH He Hh). reflexivity.
Qed.

(** X6: [_get_notification] raises [TokenLengthOddError] exactly when the
    token has an odd number of characters or a character that is not a
    hexadecimal digit, whatever the identifier, the expiry and the payload;
    and then [send_notification] raises it too and leaves the world as it
    was, whatever the state of the connection. *)
Theorem token_error_iff (identifier expiry : Z) (token_hex : string)
    (payload : Payload.t) (cb : callback) (io : io_outcome) (w : world) :
  (GatewayConnection._get_notification identifier expiry token_hex payload
   = Raise (TokenLengthOddError "Token Length is Odd")
   <-> Nat.odd (String.length token_hex) = true
       \/ hexadecimal token_hex = false)
  /\ (Nat.odd (String.length token_hex) = true
      \/ hexadecimal token_hex = false ->
      GatewayConnection.send_notification identifier expiry token_hex
        payload cb io w
      = (Raise (TokenLengthOddError "Token Length is Odd"), w)).
Proof.
  assert (Hbad : Nat.odd (String.length token_hex) = true
                 \/ hexadecimal token_hex = false ->
                 GatewayConnection._get_notification identifier expiry
                   token_hex payload
                 = Raise (TokenLengthOddError "Token Length is Odd")).
  { intros H. unfold GatewayConnection._get_notification, binascii.a2b_hex.
    destruct (Nat.odd (String.length token_hex)) eqn:Eo; [reflexivity |].
    destruct H as [H | H]; [discriminate |].
    rewrite unhex_pairs_not_hex; [reflexivity | | exact H].
    rewrite odd_negb_even in Eo. apply negb_false_iff in Eo. exact Eo. }
  split; [split; [| exact Hbad] |].
  - intros H.
    destruct (Nat.odd (String.length token_hex)) eqn:Eo; [left; reflexivity |].
    destruct (hexadecimal token_hex) eqn:Eh; [| right; reflexivity].
    exfalso.
    rewrite odd_negb_even in Eo. apply negb_false_iff in Eo.
    destruct (unhex_pairs_ok token_hex Eh Eo) as (tb & Htb & _ & _).
    unfold GatewayConnection._get_notification, binascii.a2b_hex in H.
    rewrite odd_negb_even, Eo in H. cbn [negb] in H. rewrite Htb in H.
    cbn [bind] in H.
    revert H.
    unfold APNs.packed_ushort_big_endian, APNs.packed_uint_big_endian,
      struct.pack_H, struct.pack_I.
    repeat match goal with
           | |- context [if ?c then _ else _] => destruct c; cbn [bind]
           end; discriminate.
  - intros H. unfold GatewayConnection.send_notification.
    rewrite (Hbad H). reflexivity.
Qed.

Lemma token_error_iff_witness :
  hexadecimal "zz" = false
  /\ GatewayConnection.send_notification (2 ^ 40) (-1) "zz" hi_payload 0%nat
       None (initial 0)
     = (Raise (TokenLengthOddError "Token Length is Odd"), initial 0).
Proof.
  split; [reflexivity |].
  apply (proj2 (token_error_iff (2 ^ 40) (-1) "zz" hi_payload 0%nat None
                  (initial 0))).
  right. reflexivity.
Defined.

(** ** Frames *)

Lemma pack_H_ok n bs :
  struct.pack_H n = Ok bs -> 0 <= n <= 65535 /\ bs = big_endian 2 n.
Proof.
  intros H.
  assert (Hr : 0 <= n <= 65535).
  { unfold struct.pack_H, struct.USHRT_MAX in H.
    destruct ((0 <=? n) && (n <=? 65535)) eqn:E; [| discriminate].
    apply andb_true_iff in E. rewrite !Z.leb_le in E. exact E. }
  split; [exact Hr |].
  rewrite pack_H_big_endian in H by lia. injection H as <-. reflexivity.
Qed.

Lemma pack_I_ok n bs :
  struct.pack_I n = Ok bs -> 0 <= n <= 4294967295 /\ bs = big_endian 4 n.
Proof.
  intros H.
  assert (Hr : 0 <= n <= 4294967295).
  { unfold struct.pack_I, struct.UINT_MAX in H.
    destruct ((0 <=? n) && (n <=? 4294967295)) eqn:E; [| discriminate].
    apply andb_true_iff in E. rewrite !Z.leb_le in E. exact E. }
  split; [exact Hr |].
  rewrite pack_I_big_endian in H by lia. injection H as <-. reflexivity.
Qed.

(** What a frame returned by [_get_notification] is made of. *)
Lemma get_notification_inv identifier expiry token_hex payload f :
  GatewayConnection._get_notification identifier expiry token_hex payload
  = Ok f ->
  exists token_bin,
    binascii.a2b_hex token_hex = Ok token_bin
    /\ 0 <= identifier <= 4294967295
    /\ 0 <= expiry <= 4294967295
    /\ Z.of_nat (List.length token_bin) <= 65535
    /\ Z.of_nat (List.length (Payload.json payload)) <= 65535
    /\ f = frame_of identifier expiry token_bin (Payload.json payload).
Proof.
  unfold GatewayConnection._get_notification,
    APNs.packed_ushort_big_endian, APNs.packed_uint_big_endian.
  destruct (binascii.a2b_hex token_hex) as [tb | e] eqn:Ea;
    [| destruct e; discriminate].
  cbn [bind].
  destruct (struct.pack_H (Z.of_nat (List.length tb))) as [b1 | e] eqn:E1;
    [| discriminate].
  cbn [bind].
  destruct (struct.pack_I identifier) as [b2 | e] eqn:E2; [| discriminate].
  cbn [bind].
  destruct (struct.pack_I expiry) as [b3 | e] eqn:E3; [| discriminate].
  cbn [bind].
  destruct (struct.pack_H (Z.of_nat (List.length (Payload.json payload))))
    as [b4 | e] eqn:E4; [| discriminate].
  cbn [bind]. intros H. injection H as <-.
  apply pack_H_ok in E1. apply pack_I_ok in E2.
  apply pack_I_ok in E3. apply pack_H_ok in E4.
  destruct E1 as [H1 ->], E2 as [H2 ->], E3 as [H3 ->], E4 as [H4 ->].
  exists tb. repeat split; try lia. 
Qed.

Lemma app_same_length {A} (a b x y : list A) :
  List.length a = List.length b -> a ++ x = b ++ y -> a = b /\ x = y.
Proof.
  revert b. induction a as [|h a IH]; intros [|h' b] Hl H;
    try discriminate Hl.
  - auto.
  - simpl in H. injection H as -> H. injection Hl as Hl.
    destruct (IH b Hl H) as [-> ->]. auto.
Qed.

Lemma big_endian_4_inj a b :
  0 <= a <= 4294967295 -> 0 <= b <= 4294967295 ->
  big_endian 4 a = big_endian 4 b -> a = b.
Proof.
  intros Ha Hb H. apply (f_equal struct.unpack_I) in H.
  rewrite !unpack_I_big_endian in H by lia. injection H as H. exact H.
Qed.

Lemma big_endian_2_inj a b :
  0 <= a <= 65535 -> 0 <= b <= 65535 ->
  big_endian 2 a = big_endian 2 b -> a = b.
Proof.
  intros Ha Hb H. apply (f_equal struct.unpack_H) in H.
  rewrite !unpack_H_big_endian in H by lia. injection H as H. exact H.
Qed.

Lemma frame_of_prefix_free i1 e1 tb1 pj1 r1 i2 e2 tb2 pj2 r2 :
  0 <= i1 <= 4294967295 -> 0 <= i2 <= 4294967295 ->
  0 <= e1 <= 4294967295 -> 0 <= e2 <= 4294967295 ->
  Z.of_nat (List.length tb1) <= 65535 ->
  Z.of_nat (List.length tb2) <= 65535 ->
  Z.of_nat (List.length pj1) <= 65535 ->
  Z.of_nat (List.length pj2) <= 65535 ->
  frame_of i1 e1 tb1 pj1 ++ r1 = frame_of i2 e2 tb2 pj2 ++ r2 ->
  i1 = i2 /\ e1 = e2 /\ tb1 = tb2 /\ pj1 = pj2 /\ r1 = r2.
Proof.
  intros Hi1 Hi2 He1 He2 Ht1 Ht2 Hp1 Hp2 H.
  unfold frame_of in H. rewrite <- !app_assoc in H.
  apply app_same_length in H; [| reflexivity].
  destruct H as [_ H].
  apply app_same_length in H; [| rewrite !big_endian_length; reflexivity].
  destruct H as [Hi H]. apply big_endian_4_inj in Hi; try assumption.
  apply app_same_length in H; [| rewrite !big_endian_length; reflexivity].
  destruct H as [He H]. apply big_endian_4_inj in He; try assumption.
  apply app_same_length in H; [| rewrite !big_endian_length; reflexivity].
  destruct H as [Hl H]. apply big_endian_2_inj in Hl; try lia.
  apply app_same_length in H; [| lia].
  destruct H as [Ht H].
  apply app_same_length in H; [| rewrite !big_endian_length; reflexivity].
  destruct H as [Hpl H]. apply big_endian_2_inj in Hpl; try lia.
  apply app_same_length in H; [| lia].
  destruct H as [Hp Hr]. auto.
Qed.

(** X7: frames are self-delimiting: when two frames built by
    [_get_notification], each followed by any bytes, give the same byte
    sequence, they have the same identifier, expiry, token bytes and payload
    bytes, and what follows them is the same. A stream of frames written one
    after the other can be cut into its frames in one way only. *)
Theorem frames_self_delimiting
    (i1 e1 i2 e2 : Z) (t1 t2 : string) (p1 p2 : Payload.t)
    (f1 f2 r1 r2 : bytes)
    (H1 : GatewayConnection._get_notification i1 e1 t1 p1 = Ok f1)
    (H2 : GatewayConnection._get_notification i2 e2 t2 p2 = Ok f2)
    (Hsame : f1 ++ r1 = f2 ++ r2) :
  i1 = i2 /\ e1 = e2
  /\ binascii.a2b_hex t1 = binascii.a2b_hex t2
  /\ Payload.json p1 = Payload.json p2
  /\ f1 = f2 /\ r1 = r2.
Proof.
  apply get_notification_inv in H1. apply get_notification_inv in H2.
  destruct H1 as (tb1 & Ha1 & Hi1 & He1 & Ht1 & Hp1 & ->).
  destruct H2 as (tb2 & Ha2 & Hi2 & He2 & Ht2 & Hp2 & ->).
  destruct (frame_of_prefix_free _ _ _ _ _ _ _ _ _ _
              Hi1 Hi2 He1 He2 Ht1 Ht2 Hp1 Hp2 Hsame)
    as (-> & -> & -> & Hp & ->).
  rewrite Ha1, Ha2, Hp. repeat split; reflexivity.
Qed.

Lemma frames_self_delimiting_witness :
  exists f1 f2,
    GatewayConnection._get_notification 1 0 "A1B2C3D4" hi_payload = Ok f1
    /\ GatewayConnection._get_notification 1 0 "a1b2c3d4" hi_payload = Ok f2
    /\ f1 ++ [x01] = f2 ++ [x01]
    /\ binascii.a2b_hex "A1B2C3D4" = binascii.a2b_hex "a1b2c3d4".
Proof.
  eexists _, _.
  assert (H1 : GatewayConnection._get_notification 1 0 "A1B2C3D4" hi_payload
               = Ok (frame_of 1 0 [xa1; xb2; xc3; xd4] hi_json))
    by reflexivity.
  assert (H2 : GatewayConnection._get_notification 1 0 "a1b2c3d4" hi_payload
               = Ok (frame_of 1 0 [xa1; xb2; xc3; xd4] hi_json))
    by reflexivity.
  split; [exact H1 | split; [exact H2 | split; [reflexivity |]]].
  exact (proj1 (proj2 (proj2
           (frames_self_delimiting _ _ _ _ _ _ _ _ _ _ [x01] [x01]
              H1 H2 eq_refl)))).
Defined.

(** X8: [send_notification_json] applies no size limit: for a valid token,
    identifier and expiry below 2^32, and any serialized payload of at most
    65535 bytes (so also beyond the 256 bytes a [Payload] may have), it
    hands to the stream the frame of that payload. Called with the text of
    a [Payload] it does what [send_notification] does with the payload,
    whatever the stream answers. *)
Theorem send_notification_json_frame
    (identifier expiry : Z) (token_hex : string) (token_bin payload : bytes)
    (cb : callback) (s : nat) (w : world)
    (Ha : binascii.a2b_hex token_hex = Ok token_bin)
    (Hid : 0 <= identifier < 2 ^ 32)
    (Hex : 0 <= expiry < 2 ^ 32)
    (Ht : Z.of_nat (List.length token_bin) <= 65535)
    (Hp : Z.of_nat (List.length payload) <= 65535)
    (Hs : _stream (self w) = Some s) :
  GatewayConnection.send_notification_json identifier expiry token_hex
    payload cb None w
  = (Ok tt, after_write s (frame_of identifier expiry token_bin payload) w)
  /\ forall (p : Payload.t) (io : io_outcome) (w' : world),
       GatewayConnection.send_notification_json identifier expiry token_hex
         (Payload.json p) cb io w'
       = GatewayConnection.send_notification identifier expiry token_hex
           p cb io w'.
Proof.
  split; [| reflexivity].
  change (2 ^ 32) with 4294967296 in *.
  unfold GatewayConnection.send_notification_json,
    APNs.packed_ushort_big_endian, APNs.packed_uint_big_endian.
  rewrite Ha. cbn [bind].
  rewrite (pack_H_big_endian (Z.of_nat (List.length token_bin))) by lia.
  cbn [bind]. rewrite (pack_I_big_endian identifier) by lia.
  cbn [bind]. rewrite (pack_I_big_endian expiry) by lia.
  cbn [bind].
  rewrite (pack_H_big_endian (Z.of_nat (List.length payload))) by lia.
  cbn [bind].
  unfold APNsConnection.write, APNsConnection.stream_write.
  rewrite Hs. reflexivity.
Qed.

Lemma send_notification_json_frame_witness :
  let w := APNsConnection.connect 0%nat (initial 0) in
  let payload := repeat x20 300 in
  (Z.of_nat MAX_PAYLOAD_LENGTH < Z.of_nat (List.length payload))
  /\ GatewayConnection.send_notification_json 7 0 "a1b2" payload 0%nat
       None w
     = (Ok tt, after_write 0 (frame_of 7 0 [xa1; xb2] payload) w).
Proof.
  intros w payload. split; [vm_compute; reflexivity |].
  refine (proj1 (send_notification_json_frame 7 0 "a1b2" [xa1; xb2] payload
                   0%nat 0%nat w eq_refl _ _ _ _ eq_refl)).
  - vm_compute. split; [discriminate | reflexivity].
  - vm_compute. split; [discriminate | reflexivity].
  - vm_compute. discriminate.
  - vm_compute. discriminate.
Defined.

(** ** The error response *)

Lemma slice_2_6 (c st : byte) (field rest : bytes) :
  List.length field = 4%nat ->
  slice (c :: st :: field ++ rest) 2 6 = field.
Proof.
  intros H. unfold slice. cbn [Nat.sub skipn].
  rewrite firstn_app, H. cbn [Nat.sub].
  rewrite firstn_O, List.app_nil_r, <- H. apply firstn_all.
Qed.

(** X9: [receive_response] reads the status from the second byte and the
    identifier from bytes 2 to 5, big-endian, whatever the command byte is
    and whatever follows; with fewer than 6 bytes it raises the error of
    [struct.unpack]. The identifier it reports for the four identifier
    bytes of a frame built by [_get_notification] is the identifier the
    frame was built with. *)
Theorem receive_response_decodes :
  (forall (c st : byte) (identifier : Z) (rest : bytes),
      0 <= identifier < 2 ^ 32 ->
      GatewayConnection.receive_response
        (c :: st :: big_endian 4 identifier ++ rest)
      = Ok (Z_of_byte st, identifier))
  /\ (forall data : bytes,
        (List.length data < 6)%nat ->
        exists m, GatewayConnection.receive_response data
                  = Raise (struct_error m))
  /\ (forall identifier expiry token_hex payload frame (c st : byte),
        GatewayConnection._get_notification identifier expiry token_hex
          payload = Ok frame ->
        GatewayConnection.receive_response (c :: st :: slice frame 1 5)
        = Ok (Z_of_byte st, identifier)).
Proof.
  assert (Hdec : forall (c st : byte) (identifier : Z) (rest : bytes),
      0 <= identifier < 2 ^ 32 ->
      GatewayConnection.receive_response
        (c :: st :: big_endian 4 identifier ++ rest)
      = Ok (Z_of_byte st, identifier)).
  { intros c st identifier rest Hid.
    change (2 ^ 32) with 4294967296 in Hid.
    unfold GatewayConnection.receive_response,
      APNs.unpacked_uint_big_endian.
    rewrite slice_2_6 by apply big_endian_length.
    rewrite unpack_I_big_endian by lia. reflexivity. }
  split; [exact Hdec | split].
  - intros data Hlen.
    destruct data as [|b0 [|b1 [|b2 [|b3 [|b4 [|b5 data]]]]]];
      cbn [List.length] in Hlen; try lia;
      eexists; reflexivity.
  - intros identifier expiry token_hex payload frame c st H.
    apply get_notification_inv in H.
    destruct H as (tb & _ & Hid & _ & _ & _ & ->).
    unfold frame_of.
    replace (slice ([x01] ++ big_endian 4 identifier ++ big_endian 4 expiry
                    ++ big_endian 2 (Z.of_nat (List.length tb)) ++ tb
                    ++ big_endian 2
                         (Z.of_nat (List.length (Payload.json payload)))
                    ++ Payload.json payload) 1 5)
      with (big_endian 4 identifier).
    + rewrite <- (List.app_nil_r (big_endian 4 identifier)).
      apply Hdec. change (2 ^ 32) with 4294967296. lia.
    + unfold slice. cbn [app skipn Nat.sub].
      rewrite firstn_app, big_endian_length. cbn [Nat.sub].
      rewrite firstn_O, List.app_nil_r.
      rewrite <- (big_endian_length 4 identifier) at 2.
      symmetry. apply firstn_all.
Qed.

Lemma receive_response_decodes_witness :
  GatewayConnection.receive_response [x08; x08; x00; x00; x00; x07]
  = Ok (8, 7)
  /\ (exists m, GatewayConnection.receive_response [x08; x08; x00]
                = Raise (struct_error m))
  /\ GatewayConnection.receive_response
       (x08 :: x08 :: slice (frame_of 7 0 [xa1; xb2] hi_json) 1 5)
     = Ok (8, 7).
Proof.
  destruct receive_response_decodes as (H1 & H2 & H3).
  split; [| split].
  - apply (H1 x08 x08 7 []). vm_compute. split; [discriminate | reflexivity].
  - apply (H2 [x08; x08; x00]). cbn [List.length]. lia.
  - apply (H3 7 0 "a1b2"%string hi_payload _ x08 x08). reflexivity.
Defined.

(** ** The connection over any run *)

(** What a step does to the pending timers and the clock: a connect that
    goes ahead registers one timer, due [TIME_OUT] from now; any other step
    registers none and does not turn the clock back. *)
Lemma step_timeouts e w w' :
  step e w = Some w' ->
  (_connecting (self w) = false
   /\ timeouts w' = (next_timeout w, now w + TIME_OUT) :: timeouts w
   /\ now w' = now w)
  \/ ((List.length (timeouts w') <= List.length (timeouts w))%nat
      /\ incl (timeouts w') (timeouts w)
      /\ now w <= now w').
Proof.
  destruct e as [cb | n cb io | data cb io | | d | h | s cb];
    cbn [step]; intros H.
  - injection H as <-. unfold APNsConnection.connect.
    destruct (_connecting (self w)) eqn:Ec; cbn [negb].
    + right. split; [lia | split; [apply incl_refl | lia]].
    + left. repeat split.
  - injection H as <-. right.
    unfold APNsConnection.read, APNsConnection.stream_read_bytes,
      APNsConnection._disconnect.
    destruct (_stream (self w)); [destruct io as [e|] |]; cbn;
      try destruct (APNsConnection.caught e); cbn;
      try destruct (_socket (self w)); cbn;
      (split; [lia | split; [apply incl_refl | lia]]).
  - injection H as <-. right.
    unfold APNsConnection.write, APNsConnection.stream_write,
      APNsConnection._disconnect.
    destruct (_stream (self w)); [destruct io as [e|] |]; cbn;
      try destruct (APNsConnection.caught e); cbn;
      try destruct (_socket (self w)); cbn;
      (split; [lia | split; [apply incl_refl | lia]]).
  - injection H as <-. right. unfold APNsConnection._disconnect.
    destruct (_socket (self w)); cbn;
      (split; [lia | split; [apply incl_refl | lia]]).
  - destruct (0 <=? d) eqn:Ed; [| discriminate]. injection H as <-.
    apply Z.leb_le in Ed. right. cbn.
    split; [lia | split; [apply incl_refl | lia]].
  - destruct (due h w); [| discriminate]. injection H as <-. right.
    unfold APNsConnection._connecting_timeout_callback,
      APNsConnection._disconnect.
    cbn. destruct (_alive (self w)); cbn;
      try destruct (_socket (self w)); cbn;
      (split; [apply filter_length_le | split; [apply incl_filter | lia]]).
  - destruct (pending_connect s cb w);
      [| discriminate].
    injection H as <-. right. cbn.
    destruct (_connect_timeout (self w)); cbn;
      (split; [try apply filter_length_le; lia
              | split; [try apply incl_filter; apply incl_refl | lia]]).
Qed.

Lemma no_timer_when_idle w :
  invariant w -> _connecting (self w) = false -> timeouts w = [].
Proof.
  intros (_ & I1 & _) Hc.
  destruct (timeouts w) as [|[h d] tl] eqn:E; [reflexivity |].
  destruct (I1 h d) as [Hc' _]; [left; reflexivity | congruence].
Qed.

Lemma timed_step e w w' :
  invariant w -> timed w -> step e w = Some w' -> timed w'.
Proof.
  intros I [Tl Td] H.
  destruct (step_timeouts e w w' H)
    as [(Hc & Ht & Hn) | (Hl & Hi & Hn)]; unfold timed.
  - rewrite Ht, Hn, (no_timer_when_idle w I Hc).
    split; [cbn [List.length]; lia |].
    intros h d [E | []]. injection E as _ <-. lia.
  - split; [lia |].
    intros h d Hin. apply Hi in Hin. apply Td in Hin. lia.
Qed.

Lemma timed_run evs : forall w w',
  invariant w -> timed w -> run evs w = Some w' -> timed w'.
Proof.
  induction evs as [|e evs IH]; intros w w' I T H; cbn [run] in H.
  - injection H as <-. exact T.
  - destruct (step e w) as [w1|] eqn:E; [| discriminate].
    apply (IH w1);
      [apply (invariant_step e w) | apply (timed_step e w) |]; assumption.
Qed.

(** X10: in every world a fresh connection can reach, at most one connect
    timer is pending; it is pending only while the connection is connecting,
    it is the timer the connection remembers, and it is due at most 20 time
    units from now. Outside a connect attempt no timer is pending. *)
Theorem one_timer (w : world) (Hreach : reachable w) :
  (List.length (timeouts w) <= 1)%nat
  /\ (forall h d, In (h, d) (timeouts w) ->
        _connecting (self w) = true
        /\ _connect_timeout (self w) = Some h
        /\ d <= now w + 20)
  /\ (_connecting (self w) = false -> timeouts w = []).
Proof.
  pose proof (invariant_reachable w Hreach) as I.
  destruct Hreach as (t0 & evs & Hrun).
  assert (T : timed w).
  { apply (timed_run evs (initial t0)); [apply invariant_initial | | exact Hrun].
    split; [cbn; lia | intros h d []]. }
  destruct T as [Tl Td].
  split; [exact Tl | split].
  - intros h d Hin. destruct I as (_ & I1 & _).
    destruct (I1 h d Hin) as (Hc & Hh & _).
    split; [exact Hc | split; [exact Hh |]].
    apply Td in Hin. exact Hin.
  - apply no_timer_when_idle. exact I.
Qed.

Lemma one_timer_witness :
  let w := advance 5 (APNsConnection.connect 1%nat (initial 0)) in
  reachable w
  /\ timeouts w = [(0%nat, 20)]
  /\ (List.length (timeouts w) <= 1)%nat.
Proof.
  intros w.
  assert (Hr : reachable w).
  { exists 0, [Call_connect 1%nat; Tick 5]. reflexivity. }
  split; [exact Hr | split; [reflexivity |]].
  exact (proj1 (one_timer w Hr)).
Defined.

Lemma on_connected_no_timer w :
  invariant w ->
  timeouts (remove_timeout (_connect_timeout (self w)) w) = [].
Proof.
  intros I. pose proof I as (_ & I1 & _).
  destruct (timeouts w) as [|[h d] tl] eqn:E.
  - cbn. rewrite E. destruct (_connect_timeout (self w)); reflexivity.
  - rewrite <- E in I1.
    destruct (I1 h d) as (_ & Hh & _); [rewrite E; left; reflexivity |].
    rewrite Hh. apply remove_timeout_current; [exact I |].
    exists d. rewrite E. left. reflexivity.
Qed.

(** X11: when a connect completes, in any reachable world, the connection
    becomes alive and stops connecting, the continuation of that attempt is
    called, and the connect timer is cancelled: no timer is pending and none
    can fire. *)
Theorem completion_cancels_timer (w w' : world) (s : nat) (cb : callback)
    (Hreach : reachable w)
    (Hstep : step (Connect_completes s cb) w = Some w') :
  _alive (self w') = true
  /\ _connecting (self w') = false
  /\ called w' = (s, cb) :: called w
  /\ timeouts w' = []
  /\ (forall h, step (Timeout_fires h) w' = None)
  /\ closed w' = closed w.
Proof.
  pose proof (on_connected_no_timer w (invariant_reachable w Hreach)) as Hno.
  cbn [step] in Hstep.
  destruct (pending_connect s cb w);
    [| discriminate].
  injection Hstep as <-.
  assert (Ht : timeouts (APNsConnection._on_connected s cb
                           (drop_connect s cb w)) = []).
  { cbn. cbn in Hno. exact Hno. }
  repeat split; try reflexivity; try exact Ht.
  intros h. cbn [step]. unfold due. rewrite Ht. reflexivity.
Qed.

Lemma completion_cancels_timer_witness :
  let w := advance 5 (APNsConnection.connect 1%nat (initial 0)) in
  exists w',
    step (Connect_completes 0%nat 1%nat) w = Some w'
    /\ timeouts w = [(0%nat, 20)]
    /\ timeouts w' = []
    /\ step (Timeout_fires 0%nat) (advance 20 w') = None.
Proof.
  intros w. eexists.
  assert (Hr : reachable w).
  { exists 0, [Call_connect 1%nat; Tick 5]. reflexivity. }
  split; [reflexivity | split; [reflexivity |]].
  split; [| reflexivity].
  exact (proj1 (proj2 (proj2 (proj2
           (completion_cancels_timer w _ 0%nat 1%nat Hr eq_refl))))).
Defined.

Lemma not_before_step t e w w' :
  not_before t w -> step e w = Some w' -> not_before t w'.
Proof.
  intros [Hn Hd] H.
  destruct (step_timeouts e w w' H)
    as [(Hc & Ht & Hn') | (Hl & Hi & Hn')]; unfold not_before.
  - rewrite Ht, Hn'. split; [exact Hn |].
    intros h d [E | Hin]; [injection E as _ <-; exact Hn |].
    apply (Hd h d Hin).
  - split; [lia |]. intros h d Hin. apply Hi in Hin. apply (Hd h d Hin).
Qed.

Lemma not_before_run t evs : forall w w',
  not_before t w -> run evs w = Some w' -> not_before t w'.
Proof.
  induction evs as [|e evs IH]; intros w w' N H; cbn [run] in H.
  - injection H as <-. exact N.
  - destruct (step e w) as [w1|] eqn:E; [| discriminate].
    apply (IH w1); [apply (not_before_step t e w) |]; assumption.
Qed.

(** X12: a connect attempt is given its 20 time units: after a call of
    [connect] that goes ahead in a reachable world, and whatever happens
    next (reads, writes, failures, completions, further connects), no
    connect timer can fire as long as the clock shows less than the time of
    that call plus 20. *)
Theorem timer_not_early (w w' : world) (cb : callback) (evs : list event)
    (h : nat)
    (Hreach : reachable w)
    (Hidle : _connecting (self w) = false)
    (Hrun : run evs (APNsConnection.connect cb w) = Some w')
    (Hnow : now w' < now w + 20) :
  step (Timeout_fires h) w' = None.
Proof.
  assert (N : not_before (now w + 20) (APNsConnection.connect cb w)).
  { unfold not_before.
    destruct (connect_registers_timeout cb w Hidle) as [Ht _].
    rewrite Ht, (no_timer_when_idle w (invariant_reachable w Hreach) Hidle).
    unfold APNsConnection.connect. rewrite Hidle. cbn.
    unfold TIME_OUT. split; [lia |].
    intros h' d [E | []]. injection E as _ <-. lia. }
  apply (not_before_run _ evs _ w') in N; [| exact Hrun].
  destruct N as [_ Hd]. cbn [step].
  destruct (due h w') eqn:E; [| reflexivity].
  apply due_pending in E. destruct E as (d & Hin & Hle).
  apply Hd in Hin. lia.
Qed.

Lemma timer_not_early_witness :
  exists w',
    run [Tick 19; Call_read 6%nat 2%nat (Some (IOError "reset")); Call_connect 3%nat]
      (APNsConnection.connect 1%nat (initial 0)) = Some w'
    /\ step (Timeout_fires 0%nat) w' = None
    /\ exists w'', step (Timeout_fires 0%nat) (advance 1 w') = Some w''.
Proof.
  eexists. split; [reflexivity |]. split.
  - refine (timer_not_early (initial 0) _ 1%nat
              [Tick 19; Call_read 6%nat 2%nat (Some (IOError "reset"));
               Call_connect 3%nat] 0%nat _ eq_refl eq_refl _).
    + exists 0, []. reflexivity.
    + cbn. lia.
  - eexists. reflexivity.
Defined.

Lemma stuck_step e w w' :
  _connecting (self w) = true -> timeouts w = [] ->
  no_completion [e] = true -> step e w = Some w' ->
  _connecting (self w') = true /\ timeouts w' = []
  /\ next_socket w' = next_socket w /\ connects w' = connects w
  /\ _socket (self w') = _socket (self w).
Proof.
  intros Hc Ht Hn.
  destruct e as [cb | n cb io | data cb io | | d | h | s cb];
    cbn [step]; intros H.
  - injection H as <-. unfold APNsConnection.connect. rewrite Hc. cbn.
    auto.
  - injection H as <-.
    unfold APNsConnection.read, APNsConnection.stream_read_bytes,
      APNsConnection._disconnect.
    destruct (_stream (self w)); [destruct io as [e|] |]; cbn;
      try destruct (APNsConnection.caught e); cbn;
      try destruct (_socket (self w)); cbn; auto.
  - injection H as <-.
    unfold APNsConnection.write, APNsConnection.stream_write,
      APNsConnection._disconnect.
    destruct (_stream (self w)); [destruct io as [e|] |]; cbn;
      try destruct (APNsConnection.caught e); cbn;
      try destruct (_socket (self w)); cbn; auto.
  - injection H as <-. unfold APNsConnection._disconnect.
    destruct (_socket (self w)); cbn; auto.
  - destruct (0 <=? d); [| discriminate]. injection H as <-. cbn. auto.
  - unfold due in H. rewrite Ht in H. discriminate.
  - discriminate Hn.
Qed.

Lemma no_completion_cons e evs :
  no_completion (e :: evs) = true ->
  no_completion [e] = true /\ no_completion evs = true.
Proof. destruct e; cbn; auto; discriminate. Qed.

(** X13: a connection that is connecting with no timer pending stays so
    until a connect completes: over any run without a completion the
    connecting flag stays set, every call of [connect] does nothing (no new
    socket, no new attempt, no new timer), and the socket is the same. In
    particular nothing but the completion of that very attempt lets the
    connection connect again. *)
Theorem connecting_without_timer_is_stuck (w w' : world) (evs : list event)
    (Hconn : _connecting (self w) = true)
    (Hnone : timeouts w = [])
    (Hevs : no_completion evs = true)
    (Hrun : run evs w = Some w') :
  _connecting (self w') = true
  /\ timeouts w' = []
  /\ next_socket w' = next_socket w
  /\ connects w' = connects w
  /\ _socket (self w') = _socket (self w).
Proof.
  revert w Hconn Hnone Hrun.
  induction evs as [|e evs IH]; intros w Hconn Hnone Hrun; cbn [run] in Hrun.
  - injection Hrun as <-. auto.
  - destruct (step e w) as [w1|] eqn:E; [| discriminate].
    apply no_completion_cons in Hevs. destruct Hevs as [He Hevs].
    destruct (stuck_step e w w1 Hconn Hnone He E)
      as (Hc1 & Ht1 & Hs1 & Hco1 & Hso1).
    destruct (IH Hevs w1 Hc1 Ht1 Hrun) as (Hc & Ht & Hs & Hco & Hso).
    rewrite Hs, Hco, Hso. auto.
Qed.

Lemma connecting_without_timer_is_stuck_witness :
  reachable stuck_world
  /\ exists w',
       run [Call_disconnect; Call_connect 3%nat; Tick 100;
            Call_connect 4%nat] stuck_world = Some w'
       /\ _connecting (self w') = true
       /\ next_socket w' = next_socket stuck_world.
Proof.
  split.
  - exists 0, [Call_connect 1%nat; Connect_completes 0%nat 1%nat;
               Call_connect 2%nat; Tick 20; Timeout_fires 1%nat].
    vm_compute. reflexivity.
  - eexists. split; [vm_compute; reflexivity |].
    destruct (connecting_without_timer_is_stuck stuck_world _
                [Call_disconnect; Call_connect 3%nat; Tick 100;
                 Call_connect 4%nat] eq_refl eq_refl eq_refl eq_refl)
      as (Hc & _ & Hs & _).
    split; [exact Hc | exact Hs].
Defined.

(** ** Errors of the calls *)

Lemma pack_H_raises n :
  ~ (0 <= n <= 65535) ->
  struct.pack_H n
  = Raise (struct_error "ushort format requires 0 <= number <= USHRT_MAX").
Proof.
  intros H. unfold struct.pack_H, struct.USHRT_MAX.
  destruct ((0 <=? n) && (n <=? 65535)) eqn:E; [| reflexivity].
  apply andb_true_iff in E. rewrite !Z.leb_le in E. lia.
Qed.

Lemma pack_I_raises n :
  ~ (0 <= n <= 4294967295) ->
  struct.pack_I n
  = Raise (struct_error "integer out of range for 'I' format code").
Proof.
  intros H. unfold struct.pack_I, struct.UINT_MAX.
  destruct ((0 <=? n) && (n <=? 4294967295)) eqn:E; [| reflexivity].
  apply andb_true_iff in E. rewrite !Z.leb_le in E. lia.
Qed.

(** X14: with a token that is valid hexadecimal, [_get_notification] raises
    the error of [struct.pack] exactly when the identifier or the expiry is
    outside [0, 2^32) or the token or the payload is longer than 65535
    bytes; [send_notification] then raises it too and leaves the connection
    as it is: nothing is written and nothing is torn down. *)
Theorem notification_out_of_range (identifier expiry : Z)
    (token_hex : string) (token_bin : bytes) (payload : Payload.t)
    (cb : callback) (io : io_outcome) (w : world)
    (Ha : binascii.a2b_hex token_hex = Ok token_bin) :
  ((exists m,
       GatewayConnection._get_notification identifier expiry token_hex payload
       = Raise (struct_error m))
   <-> ~ fits identifier expiry token_bin (Payload.json payload))
  /\ (~ fits identifier expiry token_bin (Payload.json payload) ->
      exists m,
        GatewayConnection.send_notification identifier expiry token_hex
          payload cb io w
        = (Raise (struct_error m), w)).
Proof.
  assert (Hout : ~ fits identifier expiry token_bin (Payload.json payload) ->
                 exists m,
                   GatewayConnection._get_notification identifier expiry
                     token_hex payload = Raise (struct_error m)).
  { intros Hn. unfold fits in Hn. change (2 ^ 32) with 4294967296 in Hn.
    unfold GatewayConnection._get_notification,
      APNs.packed_ushort_big_endian, APNs.packed_uint_big_endian.
    rewrite Ha. cbn [bind].
    destruct (Z_le_gt_dec (Z.of_nat (List.length token_bin)) 65535) as [Ht|Ht];
      [| rewrite pack_H_raises by lia; eexists; reflexivity].
    rewrite pack_H_big_endian by lia. cbn [bind].
    destruct (Z_lt_ge_dec identifier 0) as [Hi|Hi];
      [rewrite pack_I_raises by lia; eexists; reflexivity |].
    destruct (Z_le_gt_dec identifier 4294967295) as [Hi'|Hi'];
      [| rewrite pack_I_raises by lia; eexists; reflexivity].
    rewrite (pack_I_big_endian identifier) by lia. cbn [bind].
    destruct (Z_lt_ge_dec expiry 0) as [He|He];
      [rewrite pack_I_raises by lia; eexists; reflexivity |].
    destruct (Z_le_gt_dec expiry 4294967295) as [He'|He'];
      [| rewrite pack_I_raises by lia; eexists; reflexivity].
    rewrite (pack_I_big_endian expiry) by lia. cbn [bind].
    rewrite pack_H_raises by lia. eexists; reflexivity. }
  split; [split |].
  - intros [m Hm] (Hi & He & Ht & Hp).
    rewrite (get_notification_frame _ _ _ _ token_bin Ha Hi He Ht Hp) in Hm.
    discriminate.
  - exact Hout.
  - intros Hn. destruct (Hout Hn) as [m Hm]. exists m.
    unfold GatewayConnection.send_notification. rewrite Hm. reflexivity.
Qed.

Lemma notification_out_of_range_witness :
  binascii.a2b_hex "a1b2" = Ok [xa1; xb2]
  /\ exists m,
       GatewayConnection.send_notification (-1) 0 "a1b2" hi_payload 0%nat
         None (APNsConnection.connect 0%nat (initial 0))
       = (Raise (struct_error m), APNsConnection.connect 0%nat (initial 0)).
Proof.
  split; [reflexivity |].
  apply (proj2 (notification_out_of_range (-1) 0 "a1b2" [xa1; xb2]
                  hi_payload 0%nat None
                  (APNsConnection.connect 0%nat (initial 0)) eq_refl)).
  unfold fits. lia.
Defined.

(** X15: [read] and [write] never let an [AttributeError] or an [IOError]
    out: what they raise is a [ConnectionError], after the teardown, or an
    exception of another kind that the stream raised, and then the
    connection is left as it was. When they return, the request is recorded
    and the connection object is untouched. *)
Theorem io_raises_no_caught_error (n : nat) (data : bytes) (cb : callback)
    (io : io_outcome) (w : world) :
  (forall e w',
      APNsConnection.read n cb io w = (Raise e, w') ->
      APNsConnection.caught e = false
      /\ ((exists m, e = ConnectionError m)
            /\ w' = APNsConnection._disconnect w
          \/ io = Some e /\ w' = w))
  /\ (forall e w',
      APNsConnection.write data cb io w = (Raise e, w') ->
      APNsConnection.caught e = false
      /\ ((exists m, e = ConnectionError m)
            /\ w' = APNsConnection._disconnect w
          \/ io = Some e /\ w' = w))
  /\ (forall w',
      APNsConnection.write data cb io w = (Ok tt, w') ->
      exists s, _stream (self w) = Some s /\ io = None
                /\ w' = after_write s data w).
Proof.
  split; [| split].
  - intros e w'.
    unfold APNsConnection.read, APNsConnection.stream_read_bytes.
    destruct (_stream (self w)); [destruct io as [e0|] |]; cbn.
    + destruct (APNsConnection.caught e0) eqn:Ec; intros H;
        injection H as <- <-.
      * split; [reflexivity |]. left. split; [eexists |]; reflexivity.
      * split; [exact Ec |]. right. split; reflexivity.
    + discriminate.
    + intros H; injection H as <- <-.
      split; [reflexivity |]. left. split; [eexists |]; reflexivity.
  - intros e w'.
    unfold APNsConnection.write, APNsConnection.stream_write.
    destruct (_stream (self w)); [destruct io as [e0|] |]; cbn.
    + destruct (APNsConnection.caught e0) eqn:Ec; intros H;
        injection H as <- <-.
      * split; [reflexivity |]. left. split; [eexists |]; reflexivity.
      * split; [exact Ec |]. right. split; reflexivity.
    + discriminate.
    + intros H; injection H as <- <-.
      split; [reflexivity |]. left. split; [eexists |]; reflexivity.
  - intros w'.
    unfold APNsConnection.write, APNsConnection.stream_write.
    destruct (_stream (self w)) as [s|]; [destruct io as [e0|] |]; cbn.
    + destruct (APNsConnection.caught e0); discriminate.
    + intros H; injection H as <-. exists s. repeat split.
    + discriminate.
Qed.

Lemma io_raises_no_caught_error_witness :
  let w := APNsConnection.connect 0%nat (initial 0) in
  APNsConnection.write [x01] 0%nat (Some (TypeError "bad")) w
  = (Raise (TypeError "bad"), w)
  /\ APNsConnection.caught (TypeError "bad") = false.
Proof.
  intros w. split; [reflexivity |].
  exact (proj1 (proj1 (proj2 (io_raises_no_caught_error 0%nat [x01] 0%nat
                                (Some (TypeError "bad")) w))
                  (TypeError "bad") w eq_refl)).
Defined.

(** X16: [_disconnect] may be repeated: a second call, as [__del__] makes
    after a failed read or write, leaves the connection object as the first
    did and closes no socket that was not closed already; the sockets
    reported closed are the same. *)
Theorem disconnect_twice (w : world) :
  let w1 := APNsConnection._disconnect w in
  let w2 := APNsConnection._disconnect w1 in
  self w2 = self w1
  /\ (forall s, is_closed s w2 = is_closed s w1)
  /\ timeouts w2 = timeouts w1 /\ connects w2 = connects w1
  /\ reads w2 = reads w1 /\ written w2 = written w1
  /\ called w2 = called w1 /\ now w2 = now w1.
Proof.
  unfold APNsConnection._disconnect. cbn.
  destruct (_socket (self w)) as [s0|] eqn:E; cbn; rewrite ?E; cbn.
  - repeat split. intros s. unfold is_closed. cbn.
    destruct (s =? s0)%nat; reflexivity.
  - repeat split.
Qed.

(** ** The size of a payload *)

Lemma utf8_encode_app a b :
  utf8.encode (a ++ b) = utf8.encode a ++ utf8.encode b.
Proof. unfold utf8.encode. apply flat_map_app. Qed.

Lemma alert_only_json c s :
  Payload.json (alert_only (c :: s))
  = alert_prefix ++ utf8.encode (escaped (c :: s)) ++ alert_suffix.
Proof.
  unfold Payload.json, Payload.dict, alert_only.
  cbn -[utf8.encode escaped json.encode_basestring].
  change (json.encode_basestring (c :: s))
    with (json.QUOTE :: escaped (c :: s) ++ [json.QUOTE]).
  generalize (escaped (c :: s)). intros E.
  transitivity
    (utf8.encode
       ([123; 34; 97; 112; 115; 34; 58; 123; 34; 97; 108; 101; 114; 116;
         34; 58; 34] ++ ((E ++ [34]) ++ [125]) ++ [125]));
    [reflexivity |].
  rewrite <- !app_assoc, !utf8_encode_app. reflexivity.
Qed.

Lemma escaped_plain s :
  Forall plain s ->
  List.length (utf8.encode (escaped s)) = List.length s.
Proof.
  induction 1 as [|c s (Hr & Hq & Hb) _ IH]; [reflexivity |].
  unfold escaped in *. cbn [flat_map].
  replace (json.needs_escape c) with false.
  - cbn [app]. unfold utf8.encode in *. cbn [flat_map].
    unfold utf8.encode_codepoint at 1.
    replace (c <? 128) with true by (symmetry; apply Z.ltb_lt; lia).
    cbn [app List.length]. rewrite IH. reflexivity.
  - symmetry. unfold json.needs_escape, json.QUOTE, json.BACKSLASH.
    apply orb_false_iff. split; [apply orb_false_iff; split |].
    + apply Z.ltb_ge. lia.
    + apply Z.eqb_neq. exact Hq.
    + apply Z.eqb_neq. exact Hb.
Qed.

Lemma escaped_three_bytes s :
  Forall three_bytes s ->
  List.length (utf8.encode (escaped s)) = (3 * List.length s)%nat.
Proof.
  induction 1 as [|c s Hr _ IH]; [reflexivity |].
  unfold three_bytes in Hr.
  unfold escaped in *. cbn [flat_map].
  replace (json.needs_escape c) with false.
  - cbn [app]. unfold utf8.encode in *. cbn [flat_map].
    unfold utf8.encode_codepoint at 1.
    replace (c <? 128) with false by (symmetry; apply Z.ltb_ge; lia).
    replace (c <? 2048) with false by (symmetry; apply Z.ltb_ge; lia).
    replace (c <? 65536) with true by (symmetry; apply Z.ltb_lt; lia).
    cbn [app List.length]. rewrite IH. lia.
  - symmetry. unfold json.needs_escape, json.QUOTE, json.BACKSLASH.
    apply orb_false_iff. split; [apply orb_false_iff; split |].
    + apply Z.ltb_ge. lia.
    + apply Z.eqb_neq. lia.
    + apply Z.eqb_neq. lia.
Qed.



(** ** The facade *)

Lemma facade_get a self store c self' store' :
  facade_ok self store ->
  Facade.get a self store = (c, self', store') ->
  facade_ok self' store'
  /\ Facade.use_sandbox self' = Facade.use_sandbox self
  /\ Facade.cert_file self' = Facade.cert_file self
  /\ Facade.key_file self' = Facade.key_file self
  /\ memo a self' = Some c
  /\ (forall b c', memo b self = Some c' -> memo b self' = Some c')
  /\ exists new,
       store' = store ++ new
       /\ (List.length new + remembered self = remembered self')%nat.
Proof.
  intros Hok H.
  assert (Hgrow : forall (c' : nat) (o x : connection_object),
             nth_error store c' = Some o ->
             nth_error (store ++ [x]) c' = Some o).
  { intros c' o x Hn. rewrite nth_error_app1; [exact Hn |].
    apply nth_error_Some. congruence. }
  destruct a; cbn [Facade.get] in H;
    unfold Facade.feedback_server, Facade.gateway_server in H.
  - destruct (Facade._feedback_connection self) as [c0|] eqn:E.
    + injection H as <- <- <-.
      split; [exact Hok |]. repeat split; try assumption; auto.
      exists []. rewrite List.app_nil_r. split; reflexivity.
    + injection H as <- <- <-. cbn.
      split.
      { intros b c' Hm. destruct b; cbn in Hm |- *.
        - injection Hm as <-. rewrite nth_error_app2 by lia.
          rewrite Nat.sub_diag. reflexivity.
        - apply Hgrow.
          apply (Hok Facade.Get_gateway_server). exact Hm. }
      repeat split.
      { intros b c' Hm. destruct b; cbn in Hm |- *; congruence. }
      eexists. split; [reflexivity |].
      unfold remembered. cbn. rewrite E. reflexivity.
  - destruct (Facade._gateway_connection self) as [c0|] eqn:E.
    + injection H as <- <- <-.
      split; [exact Hok |]. repeat split; try assumption; auto.
      exists []. rewrite List.app_nil_r. split; reflexivity.
    + injection H as <- <- <-. cbn.
      split.
      { intros b c' Hm. destruct b; cbn in Hm |- *.
        - apply Hgrow.
          apply (Hok Facade.Get_feedback_server). exact Hm.
        - injection Hm as <-. rewrite nth_error_app2 by lia.
          rewrite Nat.sub_diag. reflexivity. }
      repeat split.
      { intros b c' Hm. destruct b; cbn in Hm |- *; congruence. }
      eexists. split; [reflexivity |].
      unfold remembered. cbn. rewrite E.
      destruct (Facade._feedback_connection self); reflexivity.
Qed.

Lemma facade_gets accesses : forall self store cs self' store',
  facade_ok self store ->
  Facade.gets accesses self store = (cs, self', store') ->
  facade_ok self' store'
  /\ Facade.use_sandbox self' = Facade.use_sandbox self
  /\ Facade.cert_file self' = Facade.cert_file self
  /\ Facade.key_file self' = Facade.key_file self
  /\ (forall a c, In (a, c) cs -> memo a self' = Some c)
  /\ (forall b c', memo b self = Some c' -> memo b self' = Some c')
  /\ exists new,
       store' = store ++ new
       /\ (List.length new + remembered self = remembered self')%nat.
Proof.
  induction accesses as [|a rest IH]; intros self store cs self' store' Hok H;
    cbn [Facade.gets] in H.
  - injection H as <- <- <-.
    split; [exact Hok |]. repeat split; auto.
    + intros a c [].
    + exists []. rewrite List.app_nil_r. split; reflexivity.
  - destruct (Facade.get a self store) as [[c self1] store1] eqn:E1.
    destruct (Facade.gets rest self1 store1) as [[cs2 self2] store2] eqn:E2.
    injection H as <- <- <-.
    destruct (facade_get a self store c self1 store1 Hok E1)
      as (Hok1 & Hu1 & Hc1 & Hk1 & Hm1 & Hkeep1 & new1 & Hs1 & Hl1).
    destruct (IH self1 store1 cs2 self2 store2 Hok1 E2)
      as (Hok2 & Hu2 & Hc2 & Hk2 & Hm2 & Hkeep2 & new2 & Hs2 & Hl2).
    split; [exact Hok2 |].
    split; [congruence |]. split; [congruence |]. split; [congruence |].
    split.
    { intros b c' [Hin | Hin].
      - injection Hin as <- <-. apply Hkeep2. exact Hm1.
      - apply Hm2. exact Hin. }
    split.
    { intros b c' Hm. apply Hkeep2, Hkeep1. exact Hm. }
    exists (new1 ++ new2). rewrite Hs2, Hs1, <- app_assoc.
    split; [reflexivity |]. rewrite length_app. lia.
Qed.

(** X18: the facade makes each connection once. Whatever the sequence of
    reads of [feedback_server] and [gateway_server] on a new facade, every
    read of the same property returns the same object, the two properties
    return different objects, at most two objects are created, and each is
    of its class with the server of the chosen environment, its port, and
    the certificate and key files of the facade. *)
Theorem facade_memoizes (use_sandbox : bool) (cert_file key_file : option string)
    (accesses : list Facade.access) (store : list connection_object)
    (cs : list (Facade.access * nat)) (self' : Facade.t)
    (store' : list connection_object)
    (Hgets : Facade.gets accesses
               (Facade.__init__ use_sandbox cert_file key_file) store
             = (cs, self', store')) :
  (forall a c1 c2, In (a, c1) cs -> In (a, c2) cs -> c1 = c2)
  /\ (forall c1 c2,
        In (Facade.Get_feedback_server, c1) cs ->
        In (Facade.Get_gateway_server, c2) cs -> c1 <> c2)
  /\ (forall a c,
        In (a, c) cs ->
        nth_error store' c
        = Some (object_for a use_sandbox cert_file key_file))
  /\ map fst cs = accesses
  /\ exists new,
       store' = store ++ new /\ (List.length new <= 2)%nat.
Proof.
  assert (Hok : facade_ok (Facade.__init__ use_sandbox cert_file key_file)
                  store).
  { intros a c Hm. destruct a; discriminate Hm. }
  destruct (facade_gets accesses _ store cs self' store' Hok Hgets)
    as (Hok' & Hu & Hc & Hk & Hm & _ & new & Hs & Hl).
  cbn in Hu, Hc, Hk.
  assert (Hobj : forall a c,
             In (a, c) cs ->
             nth_error store' c
             = Some (object_for a use_sandbox cert_file key_file)).
  { intros a c Hin. rewrite <- Hu, <- Hc, <- Hk. apply Hok', Hm. exact Hin. }
  split.
  { intros a c1 c2 H1 H2. apply Hm in H1. apply Hm in H2. congruence. }
  split.
  { intros c1 c2 H1 H2 <-. apply Hobj in H1. apply Hobj in H2.
    rewrite H1 in H2. discriminate H2. }
  split; [exact Hobj |].
  split.
  { clear - Hgets. revert cs self' store' Hgets.
    generalize (Facade.__init__ use_sandbox cert_file key_file).
    revert store.
    induction accesses as [|a rest IH]; intros store self cs self' store' H;
      cbn [Facade.gets] in H.
    - injection H as <- _ _. reflexivity.
    - destruct (Facade.get a self store) as [[c self1] store1].
      destruct (Facade.gets rest self1 store1) as [[cs2 self2] store2] eqn:E.
      injection H as <- _ _. cbn [map fst]. f_equal. apply (IH _ _ _ _ _ E). }
  exists new. split; [exact Hs |].
  unfold remembered in Hl. cbn in Hl.
  destruct (Facade._feedback_connection self'),
    (Facade._gateway_connection self'); lia.
Qed.

Lemma facade_memoizes_witness :
  exists cs self' store',
    Facade.gets [Facade.Get_gateway_server; Facade.Get_feedback_server;
                 Facade.Get_gateway_server]
      (Facade.__init__ true None None) [] = (cs, self', store')
    /\ cs = [(Facade.Get_gateway_server, 0%nat);
             (Facade.Get_feedback_server, 1%nat);
             (Facade.Get_gateway_server, 0%nat)]
    /\ nth_error store' 0
       = Some (object_for Facade.Get_gateway_server true None None).
Proof.
  eexists _, _, _. split; [reflexivity |]. split; [reflexivity |].
  refine (proj1 (proj2 (proj2
            (facade_memoizes true None None
               [Facade.Get_gateway_server; Facade.Get_feedback_server;
                Facade.Get_gateway_server] [] _ _ _ eq_refl)))
            Facade.Get_gateway_server 0%nat _).
  left. reflexivity.
Defined.

(** ** What the feedback generator can yield *)

Lemma unpack_I_range data n :
  struct.unpack_I data = Ok n -> 0 <= n < 2 ^ 32.
Proof.
  intros H.
  destruct data as [|b3 [|b2 [|b1 [|b0 [|? ?]]]]]; try discriminate H.
  assert (E : n = Z.lor (Z.shiftl (Z_of_byte b3) 24)
                    (Z.lor (Z.shiftl (Z_of_byte b2) 16)
                       (Z.lor (Z.shiftl (Z_of_byte b1) 8) (Z_of_byte b0))))
    by (unfold struct.unpack_I in H; congruence).
  rewrite E. clear H E.
  pose proof (Z_of_byte_range b0). pose proof (Z_of_byte_range b1).
  pose proof (Z_of_byte_range b2). pose proof (Z_of_byte_range b3).
  rewrite (lor_shiftl_small _ (Z_of_byte b0) 8)
    by (change (2 ^ 8) with 256; lia).
  rewrite (lor_shiftl_small _ _ 16) by (change (2 ^ 16) with 65536;
                                        change (2 ^ 8) with 256; lia).
  rewrite (lor_shiftl_small _ _ 24)
    by (change (2 ^ 24) with 16777216; change (2 ^ 16) with 65536;
        change (2 ^ 8) with 256; lia).
  change (2 ^ 8) with 256. change (2 ^ 16) with 65536.
  change (2 ^ 24) with 16777216. change (2 ^ 32) with 4294967296. lia.
Qed.

Lemma drain_plausible n : forall buff,
  (List.length buff <= n)%nat ->
  Forall plausible (fst (FeedbackConnection.drain buff)).
Proof.
  induction n as [|n IH]; intros buff Hn.
  - rewrite drain_short by lia. constructor.
  - destruct (Nat.le_gt_cases (List.length buff) 6) as [Hs | Hl].
    { rewrite drain_short by exact Hs. constructor. }
    rewrite drain_eq.
    replace (6 <? List.length buff)%nat with true
      by (symmetry; apply Nat.ltb_lt; exact Hl).
    destruct (APNs.unpacked_ushort_big_endian (slice buff 4 6))
      as [token_length | e]; [| constructor].
    destruct (_ <=? _)%nat eqn:El; [| constructor].
    destruct (APNs.unpacked_uint_big_endian (slice buff 0 4))
      as [ts | e] eqn:Et; [| constructor].
    cbv zeta. cbn [fst]. constructor.
    + exists (slice buff 6 (6 + Z.to_nat token_length)), ts.
      split; [reflexivity |].
      apply (unpack_I_range (slice buff 0 4)). exact Et.
    + apply IH. rewrite length_skipn. lia.
Qed.

Lemma items_from_plausible chunks stop : forall buff,
  Forall plausible
    (yielded (FeedbackConnection.items_from buff chunks stop)).
Proof.
  induction chunks as [|c cs IH]; intros buff; [constructor |].
  cbn [FeedbackConnection.items_from].
  destruct (buff ++ c) as [|x l] eqn:E; [constructor |].
  destruct (_ <? 6)%nat; [constructor |].
  pose proof (drain_plausible _ (x :: l) (Nat.le_refl _)) as Hd.
  destruct (FeedbackConnection.drain (x :: l)) as [ys [buff' | e]];
    cbn [fst yielded] in *; [| exact Hd].
  apply Forall_app. split; [exact Hd | apply IH].
Qed.

Lemma ascii_lower_hexdigit n :
  0 <= n < 16 -> ascii_lower (binascii.hexdigit n) = binascii.hexdigit n.
Proof.
  revert n. apply below_16. intros k Hk.
  do 16 (destruct k as [|k]; [reflexivity |]). lia.
Qed.

Lemma lower_b2a_hex data :
  lower (binascii.b2a_hex data) = binascii.b2a_hex data.
Proof.
  induction data as [|b data IH]; [reflexivity |].
  cbn [binascii.b2a_hex lower].
  pose proof (Z_of_byte_range b) as Hb.
  rewrite !ascii_lower_hexdigit, IH;
    [reflexivity | apply Z.mod_pos_bound; lia
    | Z.to_euclidean_division_equations; lia].
Qed.

Lemma civil_dates_ok_all n : forall z0 z,
  civil_dates_ok n z0 = true ->
  z0 <= z < z0 + Z.of_nat n -> civil_date_ok z = true.
Proof.
  induction n as [|n IH]; intros z0 z H Hz; [lia |].
  cbn [civil_dates_ok] in H. apply andb_true_iff in H.
  destruct H as [H0 H1].
  destruct (Z.eq_dec z z0) as [-> | Hne]; [exact H0 |].
  apply (IH (z0 + 1)); [exact H1 | lia].
Qed.

(** The days an unsigned 32-bit time stamp reaches are dates of the
    calendar. *)
Lemma epoch_days_ok : civil_dates_ok (Z.to_nat 49711) 0 = true.
Proof. vm_compute. reflexivity. Qed.

Lemma civil_from_days_ok z :
  0 <= z <= 49710 -> civil_date_ok z = true.
Proof.
  intros Hz. apply (civil_dates_ok_all _ 0 z epoch_days_ok). lia.
Qed.

Lemma utcfromtimestamp_ok ts :
  0 <= ts < 2 ^ 32 ->
  let t := datetime.utcfromtimestamp ts in
  calendar_date (datetime.year t) (datetime.month t) (datetime.day t) = true
  /\ time_of_day t.
Proof.
  intros Hts. change (2 ^ 32) with 4294967296 in Hts.
  assert (Hd : 0 <= ts / 86400 <= 49710)
    by (Z.to_euclidean_division_equations; lia).
  pose proof (civil_from_days_ok _ Hd) as Hc.
  unfold civil_date_ok in Hc. unfold datetime.utcfromtimestamp.
  destruct (datetime.civil_from_days (ts / 86400)) as [[y m] d].
  cbn [datetime.year datetime.month datetime.day]. cbv zeta.
  split; [exact Hc |].
  unfold time_of_day.
  cbn [datetime.hour datetime.minute datetime.second].
  Z.to_euclidean_division_equations; lia.
Qed.

(** X19: every item the loop of [items] yields is well formed, whatever
    bytes its chunks hold: the token is lower-case hexadecimal text that
    [a2b_hex] accepts, and the time is a date of the calendar between 1970
    and 2106 with a time of day. *)
Theorem items_are_wellformed (buff : bytes) (chunks : list bytes)
    (stop : option exn) (token_hex : string) (fail_time : datetime.t)
    (Hin : In (token_hex, fail_time)
             (yielded (FeedbackConnection.items_from buff chunks stop))) :
  (exists token_bin,
      binascii.a2b_hex token_hex = Ok token_bin
      /\ binascii.b2a_hex token_bin = token_hex)
  /\ lower token_hex = token_hex
  /\ calendar_date (datetime.year fail_time) (datetime.month fail_time)
       (datetime.day fail_time) = true
  /\ time_of_day fail_time.
Proof.
  pose proof (items_from_plausible chunks stop buff) as H.
  rewrite Forall_forall in H. apply H in Hin.
  destruct Hin as (data & ts & E & Hts). injection E as -> ->.
  split; [exists data; split; [apply a2b_b2a_hex | reflexivity] |].
  split; [apply lower_b2a_hex |].
  apply utcfromtimestamp_ok. exact Hts.
Qed.

Lemma items_are_wellformed_witness :
  let chunks := [[x00; x00; x00; x0a; x00; x01; x99]] in
  In ("99"%string, datetime.utcfromtimestamp 10)
    (yielded (FeedbackConnection.items_from [] chunks None))
  /\ lower "99" = "99"%string
  /\ calendar_date 1970 1 1 = true.
Proof.
  intros chunks.
  assert (Hin : In ("99"%string, datetime.utcfromtimestamp 10)
                  (yielded (FeedbackConnection.items_from [] chunks None)))
    by (left; reflexivity).
  split; [exact Hin |].
  destruct (items_are_wellformed [] chunks None _ _ Hin)
    as (_ & Hl & Hc & _).
  split; [exact Hl | exact Hc].
Defined.

(** ** The codec, from bytes to numbers and back *)

Lemma byte_of_Z_eq z b : z mod 256 = Z_of_byte b -> byte_of_Z z = b.
Proof.
  intros H. rewrite <- (byte_of_Z_of_byte b), <- H.
  unfold byte_of_Z. rewrite Z.mod_mod by lia. reflexivity.
Qed.

Lemma pack_unpack_H data n :
  struct.unpack_H data = Ok n ->
  struct.pack_H n = Ok data /\ 0 <= n < 2 ^ 16.
Proof.
  intros H.
  destruct data as [|b1 [|b0 [|? ?]]]; try discriminate H.
  assert (E : n = Z.lor (Z.shiftl (Z_of_byte b1) 8) (Z_of_byte b0))
    by (unfold struct.unpack_H in H; congruence).
  clear H.
  pose proof (Z_of_byte_range b0). pose proof (Z_of_byte_range b1).
  rewrite lor_shiftl_small in E by (change (2 ^ 8) with 256; lia).
  change (2 ^ 8) with 256 in E. change (2 ^ 16) with 65536.
  split; [| lia].
  rewrite pack_H_big_endian by lia.
  change (big_endian 2 n) with [byte_of_Z (n / 256); byte_of_Z n].
  rewrite (byte_of_Z_eq (n / 256) b1), (byte_of_Z_eq n b0);
    [reflexivity | |]; subst n; Z.to_euclidean_division_equations; lia.
Qed.

Lemma pack_unpack_I data n :
  struct.unpack_I data = Ok n ->
  struct.pack_I n = Ok data /\ 0 <= n < 2 ^ 32.
Proof.
  intros H. pose proof (unpack_I_range data n H) as Hr.
  split; [| exact Hr]. change (2 ^ 32) with 4294967296 in Hr.
  destruct data as [|b3 [|b2 [|b1 [|b0 [|? ?]]]]]; try discriminate H.
  assert (E : n = Z.lor (Z.shiftl (Z_of_byte b3) 24)
                    (Z.lor (Z.shiftl (Z_of_byte b2) 16)
                       (Z.lor (Z.shiftl (Z_of_byte b1) 8) (Z_of_byte b0))))
    by (unfold struct.unpack_I in H; congruence).
  clear H.
  pose proof (Z_of_byte_range b0). pose proof (Z_of_byte_range b1).
  pose proof (Z_of_byte_range b2). pose proof (Z_of_byte_range b3).
  rewrite (lor_shiftl_small _ (Z_of_byte b0) 8) in E
    by (change (2 ^ 8) with 256; lia).
  rewrite (lor_shiftl_small _ _ 16) in E
    by (change (2 ^ 16) with 65536; change (2 ^ 8) with 256; lia).
  rewrite (lor_shiftl_small _ _ 24) in E
    by (change (2 ^ 24) with 16777216; change (2 ^ 16) with 65536;
        change (2 ^ 8) with 256; lia).
  change (2 ^ 8) with 256 in E. change (2 ^ 16) with 65536 in E.
  change (2 ^ 24) with 16777216 in E.
  rewrite pack_I_big_endian by lia.
  change (big_endian 4 n) with
    [byte_of_Z (n / 256 / 256 / 256); byte_of_Z (n / 256 / 256);
     byte_of_Z (n / 256); byte_of_Z n].
  rewrite (byte_of_Z_eq (n / 256 / 256 / 256) b3),
    (byte_of_Z_eq (n / 256 / 256) b2),
    (byte_of_Z_eq (n / 256) b1), (byte_of_Z_eq n b0);
    [reflexivity | | | |]; subst n; Z.to_euclidean_division_equations; lia.
Qed.

(** X20: the codec is also right from bytes to numbers and back: whatever
    [unpacked_ushort_big_endian] or [unpacked_uint_big_endian] returns for
    some bytes is in the range of the format, and packing it gives those
    bytes back. So the bytes are two, or four, and two different byte
    strings never unpack to the same number. *)
Theorem codec_inverse (data2 data4 : bytes) (n m : Z)
    (H2 : APNs.unpacked_ushort_big_endian data2 = Ok n)
    (H4 : APNs.unpacked_uint_big_endian data4 = Ok m) :
  APNs.packed_ushort_big_endian n = Ok data2
  /\ 0 <= n < 2 ^ 16
  /\ List.length data2 = 2%nat
  /\ APNs.packed_uint_big_endian m = Ok data4
  /\ 0 <= m < 2 ^ 32
  /\ List.length data4 = 4%nat.
Proof.
  unfold APNs.unpacked_ushort_big_endian, APNs.unpacked_uint_big_endian,
    APNs.packed_ushort_big_endian, APNs.packed_uint_big_endian in *.
  destruct (pack_unpack_H data2 n H2) as [P2 R2].
  destruct (pack_unpack_I data4 m H4) as [P4 R4].
  split; [exact P2 |]. split; [exact R2 |].
  split.
  { destruct data2 as [|? [|? [|? ?]]]; try discriminate H2. reflexivity. }
  split; [exact P4 |]. split; [exact R4 |].
  destruct data4 as [|? [|? [|? [|? [|? ?]]]]]; try discriminate H4.
  reflexivity.
Qed.

Lemma codec_inverse_witness :
  APNs.packed_ushort_big_endian 258 = Ok [x01; x02]
  /\ APNs.packed_uint_big_endian 4294967295 = Ok [xff; xff; xff; xff].
Proof.
  destruct (codec_inverse [x01; x02] [xff; xff; xff; xff] 258 4294967295
              eq_refl eq_refl) as (P2 & _ & _ & P4 & _).
  split; [exact P2 | exact P4].
Defined.

(** ** The socket of an earlier connection *)

Lemma socket_known_step e w w' :
  socket_known w -> step e w = Some w' -> socket_known w'.
Proof.
  unfold socket_known. intros K.
  destruct e as [cb | n cb io | data cb io | | d | h | s cb];
    cbn [step]; intros H.
  - injection H as <-. unfold APNsConnection.connect.
    destruct (_connecting (self w)); cbn; [exact K |].
    intros s E. injection E as <-. lia.
  - injection H as <-.
    unfold APNsConnection.read, APNsConnection.stream_read_bytes,
      APNsConnection._disconnect.
    destruct (_stream (self w)); [destruct io as [e|] |]; cbn;
      try destruct (APNsConnection.caught e); cbn;
      try destruct (_socket (self w)) eqn:Es; cbn;
      intros s' E; try discriminate E; apply K; exact E.
  - injection H as <-.
    unfold APNsConnection.write, APNsConnection.stream_write,
      APNsConnection._disconnect.
    destruct (_stream (self w)); [destruct io as [e|] |]; cbn;
      try destruct (APNsConnection.caught e); cbn;
      try destruct (_socket (self w)) eqn:Es; cbn;
      intros s' E; try discriminate E; apply K; exact E.
  - injection H as <-. unfold APNsConnection._disconnect.
    destruct (_socket (self w)) eqn:Es; cbn;
      intros s' E; try discriminate E; apply K; exact E.
  - destruct (0 <=? d); [| discriminate]. injection H as <-. exact K.
  - destruct (due h w); [| discriminate]. injection H as <-.
    unfold APNsConnection._connecting_timeout_callback,
      APNsConnection._disconnect.
    cbn. destruct (_alive (self w)); cbn;
      try destruct (_socket (self w)) eqn:Es; cbn;
      intros s' E; try discriminate E; apply K; exact E.
  - destruct (pending_connect s cb w);
      [| discriminate].
    injection H as <-. cbn. exact K.
Qed.

Lemma socket_known_reachable w : reachable w -> socket_known w.
Proof.
  intros (t0 & evs & H).
  assert (K : socket_known (initial t0)) by (intros s E; discriminate E).
  revert K H. generalize (initial t0).
  induction evs as [|e evs IH]; intros w0 K H; cbn [run] in H.
  - injection H as <-. exact K.
  - destruct (step e w0) as [w1|] eqn:E; [| discriminate].
    apply (IH w1); [apply (socket_known_step e w0) |]; assumption.
Qed.

Lemma is_closed_cons s0 s w :
  s <> s0 -> is_closed s0 w = false ->
  existsb (Nat.eqb s0) (s :: closed w) = false.
Proof.
  intros Hne Hc. cbn [existsb]. unfold is_closed in Hc. rewrite Hc.
  replace (s0 =? s)%nat with false; [reflexivity |].
  symmetry. apply Nat.eqb_neq. congruence.
Qed.

Lemma abandoned_disconnect s0 w :
  abandoned s0 w -> abandoned s0 (APNsConnection._disconnect w).
Proof.
  intros (Hc & Hn & Hs). unfold abandoned, APNsConnection._disconnect.
  destruct (_socket (self w)) as [s|] eqn:Es; cbn; rewrite ?Es.
  - split; [| split; [exact Hn | congruence]].
    unfold is_closed. cbn. apply is_closed_cons; congruence.
  - split; [exact Hc | split; [exact Hn | congruence]].
Qed.

Lemma abandoned_step s0 e w w' :
  abandoned s0 w -> step e w = Some w' -> abandoned s0 w'.
Proof.
  intros A. pose proof A as (Hc & Hn & Hs).
  destruct e as [cb | n cb io | data cb io | | d | h | s cb];
    cbn [step]; intros H.
  - injection H as <-. unfold APNsConnection.connect.
    destruct (_connecting (self w)); cbn; [exact A |].
    unfold abandoned; cbn. split; [exact Hc |].
    split; [lia |]. intros E. injection E as E. lia.
  - injection H as <-.
    unfold APNsConnection.read, APNsConnection.stream_read_bytes.
    destruct (_stream (self w)); [destruct io as [e|] |]; cbn;
      try destruct (APNsConnection.caught e); cbn;
      try (apply abandoned_disconnect; exact A); exact A.
  - injection H as <-.
    unfold APNsConnection.write, APNsConnection.stream_write.
    destruct (_stream (self w)); [destruct io as [e|] |]; cbn;
      try destruct (APNsConnection.caught e); cbn;
      try (apply abandoned_disconnect; exact A); exact A.
  - injection H as <-. apply abandoned_disconnect. exact A.
  - destruct (0 <=? d); [| discriminate]. injection H as <-. exact A.
  - destruct (due h w); [| discriminate]. injection H as <-.
    unfold APNsConnection._connecting_timeout_callback.
    cbn. destruct (_alive (self w)); cbn; [exact A |].
    apply abandoned_disconnect. exact A.
  - destruct (pending_connect s cb w);
      [| discriminate].
    injection H as <-. exact A.
Qed.

(** X21: a connect that goes ahead on a connection that holds an open
    socket abandons it: the connection takes a new socket, and nothing the
    connection does later (teardown after a failure, [_disconnect], a timer,
    further connects) ever closes the old one, nor does the connection hold
    it again. *)
Theorem reconnect_abandons_socket (w w' : world) (cb : callback) (s0 : nat)
    (evs : list event)
    (Hreach : reachable w)
    (Hsock : _socket (self w) = Some s0)
    (Hopen : is_closed s0 w = false)
    (Hidle : _connecting (self w) = false)
    (Hrun : run evs (APNsConnection.connect cb w) = Some w') :
  is_closed s0 w' = false /\ _socket (self w') <> Some s0.
Proof.
  pose proof (socket_known_reachable w Hreach s0 Hsock) as Hk.
  assert (A : abandoned s0 (APNsConnection.connect cb w)).
  { unfold abandoned, APNsConnection.connect. rewrite Hidle. cbn.
    split; [exact Hopen |]. split; [lia |].
    intros E. injection E as E. lia. }
  clear Hreach Hsock Hopen Hidle Hk.
  revert A Hrun. generalize (APNsConnection.connect cb w).
  induction evs as [|e evs IH]; intros w0 A H; cbn [run] in H.
  - injection H as <-. destruct A as (Hc & _ & Hs). auto.
  - destruct (step e w0) as [w1|] eqn:E; [| discriminate].
    apply (IH w1); [apply (abandoned_step s0 e w0) |]; assumption.
Qed.

Lemma reconnect_abandons_socket_witness :
  exists w w',
    run [Call_connect 1%nat; Connect_completes 0%nat 1%nat] (initial 0)
    = Some w
    /\ run [Call_write [x01] 0%nat (Some (IOError "reset")); Tick 20;
            Timeout_fires 1%nat; Call_disconnect]
         (APNsConnection.connect 2%nat w) = Some w'
    /\ is_closed 0%nat w' = false
    /\ is_closed 1%nat w' = true.
Proof.
  pose (w := APNsConnection._on_connected 0%nat 1%nat
              (drop_connect 0%nat 1%nat
                 (APNsConnection.connect 1%nat (initial 0)))).
  exists w. eexists. split; [reflexivity |]. split; [reflexivity |].
  split; [| reflexivity].
  refine (proj1 (reconnect_abandons_socket w _ 2%nat 0%nat
                   [Call_write [x01] 0%nat (Some (IOError "reset")); Tick 20;
                    Timeout_fires 1%nat; Call_disconnect]
                   _ eq_refl eq_refl eq_refl eq_refl)).
  exists 0, [Call_connect 1%nat; Connect_completes 0%nat 1%nat].
  reflexivity.
Defined.
